(** * QuantumLab: state-vector simulator, embedded and verified

    The JavaScript sources [quantum-core.js], the gate library and
    [quantum-simulator.js] are embedded method by method.

    Conventions of the embedding.
    - A JavaScript number that holds an amplitude, an angle, a probability
      or a timeline position is a real number ([R]): rounding, overflow,
      [NaN] and signed zeros of IEEE doubles are not part of that model,
      and what is proved over it describes the value a method computes, not
      the digits of the double.  The three methods whose properties turn on
      overflow and [NaN], [Complex.divide], [QuantumState.normalize] and
      [QuantumState.fromAmplitudes], are embedded over binary64 floats
      ([IEEE]), and their properties are proved there.
    - A JavaScript number that is used as an array index, a qubit index or
      an operand of the 32-bit operators [>>], [<<], [&], [|], [^], [~] is
      an integer ([Z]); the operators wrap to 32 bits as the language does.
    - A method that can throw returns [result]; [Err] carries the kind of
      the exception.  Reading a property of [undefined] and assigning to a
      [const] binding are the two [TypeError]s the sources can raise; a call
      of a method that an object does not have finds [undefined] in its
      place and is reported as the former.
    - An array is a list.  Reading past its end yields [undefined]; every
      read in the sources is followed by a property access, so the read
      itself reports [TypeErrorUndefined]. *)

From Stdlib Require Import Floats.
From Stdlib Require Import Reals Lra Lia ZArith List String Ascii Bool.
Import ListNotations.

(** A decimal literal of a double stands for the nearest double, as it does
    in the sources. *)
Set Warnings "-inexact-float".

(** ** Exceptions *)

Inductive error : Type :=
| DivisionByZero
| DimensionMismatch
| NotSquare
| InvalidDimension
| ZeroState
| GateSizeNotPowerOfTwo
| GateArityMismatch
| UnknownGate
| MissingParameter
| QubitIndexOutOfRange
| QubitCountMismatch
| TypeErrorUndefined
| TypeErrorConstAssign.

Inductive result (A : Type) : Type :=
| Ok (a : A)
| Err (e : error).

Arguments Ok {A} a.
Arguments Err {A} e.

Definition bind {A B : Type} (m : result A) (k : A -> result B) : result B :=
  match m with
  | Ok a => k a
  | Err e => Err e
  end.

Notation "x <- m ;; k" := (bind m (fun x => k))
  (at level 61, m at next level, right associativity).
Notation "' pat <- m ;; k" := (bind m (fun x => match x with pat => k end))
  (at level 61, pat pattern, m at next level, right associativity).

(** ** The JavaScript substrate: 32-bit operators, loops, arrays *)

Module JS.

Local Open Scope Z_scope.

(** [ToInt32] of the language definition, on integers. *)
Definition ToInt32 (z : Z) : Z := (z + 2 ^ 31) mod 2 ^ 32 - 2 ^ 31.

(** [a >> b]: the count is taken modulo 32. *)
Definition shr (a b : Z) : Z := Z.shiftr (ToInt32 a) (b mod 32).

(** [a << b]. *)
Definition shl (a b : Z) : Z := ToInt32 (Z.shiftl (ToInt32 a) (b mod 32)).

(** [a & b], [a | b], [a ^ b], [~ a]. *)
Definition band (a b : Z) : Z := Z.land (ToInt32 a) (ToInt32 b).
Definition bor (a b : Z) : Z := Z.lor (ToInt32 a) (ToInt32 b).
Definition bxor (a b : Z) : Z := Z.lxor (ToInt32 a) (ToInt32 b).
Definition bnot (a : Z) : Z := Z.lnot (ToInt32 a).

(** [for (let i = lo; i < lo + k; i++) body], the loop state threaded
    through; an exception in the body leaves the loop. *)
Fixpoint for_from {S : Type} (k : nat) (lo : Z)
  (body : Z -> S -> result S) (s : S) : result S :=
  match k with
  | O => Ok s
  | Datatypes.S k' => s' <- body lo s ;; for_from k' (lo + 1) body s'
  end.

(** [for (let i = 0; i < n; i++) body]. *)
Definition for_range {S : Type} (n : Z) (body : Z -> S -> result S) (s : S)
  : result S :=
  for_from (Z.to_nat n) 0 body s.

(** What the body of a loop with [break] says: go on, or leave. *)
Inductive flow (S : Type) : Type :=
| Continue (s : S)
| Break (s : S).

Arguments Continue {S} s.
Arguments Break {S} s.

(** [for (const x of xs) body] with [break]. *)
Fixpoint for_of_break {A S : Type} (xs : list A) (body : A -> S -> flow S)
  (s : S) : S :=
  match xs with
  | [] => s
  | x :: xs' =>
      match body x s with
      | Continue s' => for_of_break xs' body s'
      | Break s' => s'
      end
  end.

(** [arr[i]] followed by a property access. *)
Definition aget {A : Type} (arr : list A) (i : Z) : result A :=
  if i <? 0 then Err TypeErrorUndefined
  else match nth_error arr (Z.to_nat i) with
       | Some a => Ok a
       | None => Err TypeErrorUndefined
       end.

(** [arr[i] = v] for an index inside the array.  (Outside it the language
    would grow the array and leave holes, or add a property for a negative
    index; the sources write inside only when their qubit indices are valid,
    and the embedding leaves the list as it is otherwise.) *)
Fixpoint list_set {A : Type} (arr : list A) (i : nat) (v : A) : list A :=
  match arr, i with
  | [], _ => []
  | _ :: t, O => v :: t
  | h :: t, Datatypes.S i' => h :: list_set t i' v
  end.

Definition aset {A : Type} (arr : list A) (i : Z) (v : A) : list A :=
  if i <? 0 then arr else list_set arr (Z.to_nat i) v.

(** [Array(n).fill().map(() => v)]. *)
Definition afill {A : Type} (n : Z) (v : A) : list A := repeat v (Z.to_nat n).

(** [Array.from({length: n}, (_, i) => i)]. *)
Definition arange (n : Z) : list Z := map Z.of_nat (seq 0 (Z.to_nat n)).

(** [arr.length]. *)
Definition alength {A : Type} (arr : list A) : Z := Z.of_nat (List.length arr).

(** [arr.includes(x)] on integers. *)
Definition includes (arr : list Z) (x : Z) : bool := existsb (Z.eqb x) arr.

(** [arr.map(f)] for an [f] that can throw. *)
Fixpoint amap {A B : Type} (f : A -> result B) (arr : list A)
  : result (list B) :=
  match arr with
  | [] => Ok []
  | a :: rest => b <- f a ;; bs <- amap f rest ;; Ok (b :: bs)
  end.

(** [Number.isInteger(Math.log2(n))] together with the logarithm. *)
Definition log2_integer (n : Z) : option Z :=
  if (0 <? n) && (2 ^ Z.log2 n =? n) then Some (Z.log2 n) else None.

(** [n.toString(2)] for an integer [n]: the binary digits, most
    significant first, after a minus sign for a negative number. *)
Fixpoint posToBinary (p : positive) : string :=
  match p with
  | xH => "1"
  | xO p' => posToBinary p' ++ "0"
  | xI p' => posToBinary p' ++ "1"
  end%string.

Definition toBinary (n : Z) : string :=
  match n with
  | Z0 => "0"
  | Zpos p => posToBinary p
  | Zneg p => "-" ++ posToBinary p
  end%string.

(** [s.padStart(targetLength, '0')]. *)
Fixpoint zeroDigits (k : nat) : string :=
  match k with
  | O => EmptyString
  | Datatypes.S k' => String "0"%char (zeroDigits k')
  end.

Definition padStart (s : string) (targetLength : Z) : string :=
  (zeroDigits (Z.to_nat targetLength - String.length s) ++ s)%string.

End JS.

(** ** quantum-core.js: class Complex *)

Module Complex.

Local Open Scope R_scope.

Record t : Type := mk { real : R; imag : R }.

Definition fromPolar (magnitude angle : R) : t :=
  mk (magnitude * cos angle) (magnitude * sin angle).

Definition add (this other : t) : t :=
  mk (real this + real other) (imag this + imag other).

Definition subtract (this other : t) : t :=
  mk (real this - real other) (imag this - imag other).

Definition multiply (this other : t) : t :=
  mk (real this * real other - imag this * imag other)
     (real this * imag other + imag this * real other).

(** [divide]: the body computes the denominator and the two quotients; it
    has no [throw]. *)
Definition divide (this other : t) : result t :=
  let denominator := real other * real other + imag other * imag other in
  Ok (mk ((real this * real other + imag this * imag other) / denominator)
         ((imag this * real other - real this * imag other) / denominator)).

Definition magnitude (this : t) : R :=
  sqrt (real this * real this + imag this * imag this).

Definition conjugate (this : t) : t := mk (real this) (- imag this).

Definition clone (this : t) : t := mk (real this) (imag this).

Definition zero : t := mk 0 0.
Definition one : t := mk 1 0.

End Complex.

(** A value found in an array handed to [Matrix.fromArray]: an instance of
    [Complex], a number, or anything else (a string, a boolean, [null],
    [undefined], an object of another class). *)
Inductive jsval : Type :=
| VComplex (c : Complex.t)
| VNumber (x : R)
| VOther.

(** ** quantum-core.js: class Matrix *)

Module Matrix.

Local Open Scope Z_scope.

Record t : Type := mk { rows : Z; cols : Z; data : list (list Complex.t) }.

(** [new Matrix(rows, cols)] without data: a grid of zeros. *)
Definition new_ (rows cols : Z) : t :=
  mk rows cols (JS.afill rows (JS.afill cols Complex.zero)).

(** [data[i][j] = v]. *)
Definition dset (d : list (list Complex.t)) (i j : Z) (v : Complex.t)
  : result (list (list Complex.t)) :=
  row <- JS.aget d i ;; Ok (JS.aset d i (JS.aset row j v)).

(** [data[i][j]] followed by a property access. *)
Definition dget (d : list (list Complex.t)) (i j : Z) : result Complex.t :=
  row <- JS.aget d i ;; JS.aget row j.

Definition identity (size : Z) : result t :=
  let matrix := new_ size size in
  d <- JS.for_range size (fun i d => dset d i i Complex.one) (data matrix) ;;
  Ok (mk size size d).

Definition zeros (rows cols : Z) : t := new_ rows cols.

Definition fromArray (arr : list (list jsval)) : result t :=
  let rows := JS.alength arr in
  row0 <- JS.aget arr 0 ;;
  let cols := JS.alength row0 in
  let data :=
    map (fun row =>
           map (fun val =>
                  match val with
                  | VComplex c => c
                  | VNumber x => Complex.mk x 0
                  | VOther => Complex.mk 0 0
                  end) row) arr in
  Ok (mk rows cols data).

Definition multiply (this other : t) : result t :=
  if negb (cols this =? rows other) then Err DimensionMismatch
  else
    let result := new_ (rows this) (cols other) in
    d <- JS.for_range (rows this) (fun i d =>
           JS.for_range (cols other) (fun j d =>
             sum <- JS.for_range (cols this) (fun k sum =>
                      a <- dget (data this) i k ;;
                      b <- dget (data other) k j ;;
                      Ok (Complex.add sum (Complex.multiply a b)))
                    Complex.zero ;;
             dset d i j sum) d)
         (data result) ;;
    Ok (mk (rows this) (cols other) d).

Definition transpose (this : t) : result t :=
  let result := new_ (cols this) (rows this) in
  d <- JS.for_range (rows this) (fun i d =>
         JS.for_range (cols this) (fun j d =>
           v <- dget (data this) i j ;; dset d j i v) d)
       (data result) ;;
  Ok (mk (cols this) (rows this) d).

Definition conjugate (this : t) : result t :=
  let result := new_ (rows this) (cols this) in
  d <- JS.for_range (rows this) (fun i d =>
         JS.for_range (cols this) (fun j d =>
           v <- dget (data this) i j ;; dset d i j (Complex.conjugate v)) d)
       (data result) ;;
  Ok (mk (rows this) (cols this) d).

Definition dagger (this : t) : result t :=
  c <- conjugate this ;; transpose c.

(** [isUnitary(tolerance)]: the two loops leave with [false] at the first
    entry of [this * dagger(this)] farther than [tolerance] from the
    identity.  The loop state is the answer so far; once it is [false] no
    further entry is read, which is the early [return]. *)
Definition isUnitary (this : t) (tolerance : R) : result bool :=
  d <- dagger this ;;
  product <- multiply this d ;;
  identity <- identity (rows this) ;;
  r <- JS.for_range (rows this) (fun i ok =>
         if negb ok then Ok ok
         else
           JS.for_range (cols this) (fun j ok =>
             if negb ok then Ok ok
             else
               p <- dget (data product) i j ;;
               e <- dget (data identity) i j ;;
               let diff := Complex.subtract p e in
               if Rlt_dec tolerance (Complex.magnitude diff)
               then Ok false else Ok true) ok)
       true ;;
  Ok r.

Definition clone (this : t) : t :=
  mk (rows this) (cols this)
     (map (fun row => map (fun val => Complex.mk (Complex.real val) (Complex.imag val)) row)
          (data this)).

Definition multiplyScalar (this : t) (scalar : Complex.t) : result t :=
  let result := new_ (rows this) (cols this) in
  d <- JS.for_range (rows this) (fun i d =>
         JS.for_range (cols this) (fun j d =>
           v <- dget (data this) i j ;;
           dset d i j (Complex.multiply v scalar)) d)
       (data result) ;;
  Ok (mk (rows this) (cols this) d).

Definition add (this other : t) : result t :=
  if negb (rows this =? rows other) || negb (cols this =? cols other)
  then Err DimensionMismatch
  else
    let result := new_ (rows this) (cols this) in
    d <- JS.for_range (rows this) (fun i d =>
           JS.for_range (cols this) (fun j d =>
             a <- dget (data this) i j ;;
             b <- dget (data other) i j ;;
             dset d i j (Complex.add a b)) d)
         (data result) ;;
    Ok (mk (rows this) (cols this) d).

Definition trace (this : t) : result Complex.t :=
  JS.for_range (Z.min (rows this) (cols this)) (fun i sum =>
    v <- dget (data this) i i ;; Ok (Complex.add sum v))
    Complex.zero.

(** [minor(row, col)]: the rows and columns are pushed in order, the given
    row and column skipped.  An entry beyond the end of its row is pushed as
    [undefined], which [fromArray] turns into zero. *)
Definition minor (this : t) (row col : Z) : result t :=
  minorData <- JS.for_range (rows this) (fun i minorData =>
    if i =? row then Ok minorData
    else
      minorRow <- JS.for_range (cols this) (fun j minorRow =>
        if j =? col then Ok minorRow
        else
          r <- JS.aget (data this) i ;;
          let v := if j <? 0 then None else nth_error r (Z.to_nat j) in
          Ok (minorRow ++ [match v with
                           | Some c => c
                           | None => Complex.mk 0 0
                           end])) [] ;;
      Ok (minorData ++ [minorRow])) [] ;;
  fromArray (map (map VComplex) minorData).

(** [determinant()].  For three rows and more the first turn of the Laplace
    loop builds the minor and then calls [multiplyScalar] on an entry: the
    class [Complex] has no such method, so the call is the [TypeError] of
    using [undefined], and the recursive call is never reached. *)
Definition determinant (this : t) : result Complex.t :=
  if negb (rows this =? cols this) then Err NotSquare
  else if rows this =? 1 then dget (data this) 0 0
  else if rows this =? 2 then
    a <- dget (data this) 0 0 ;;
    d <- dget (data this) 1 1 ;;
    b <- dget (data this) 0 1 ;;
    c <- dget (data this) 1 0 ;;
    Ok (Complex.subtract (Complex.multiply a d) (Complex.multiply b c))
  else
    JS.for_range (cols this) (fun j det =>
      minor <- minor this 0 j ;;
      entry <- dget (data this) 0 j ;;
      Err TypeErrorUndefined)
      (Complex.mk 0 0).

End Matrix.

(** ** quantum-gates.js: class QuantumGates *)

Module QuantumGates.

Local Open Scope R_scope.

Definition C (re im : R) : jsval := VComplex (Complex.mk re im).

(** [String.prototype.toUpperCase] on the ASCII letters (the gate names
    and aliases are ASCII; other characters are left as they are). *)
Definition upper_ascii (c : ascii) : ascii :=
  let n := nat_of_ascii c in
  if (97 <=? n)%nat && (n <=? 122)%nat then ascii_of_nat (n - 32) else c.

Fixpoint toUpperCase (s : string) : string :=
  match s with
  | EmptyString => EmptyString
  | String c s' => String (upper_ascii c) (toUpperCase s')
  end.

Definition Hadamard : result Matrix.t :=
  let invSqrt2 := 1 / sqrt 2 in
  Matrix.fromArray
    [ [C invSqrt2 0; C invSqrt2 0];
      [C invSqrt2 0; C (- invSqrt2) 0] ].

Definition PauliX : result Matrix.t :=
  Matrix.fromArray [ [C 0 0; C 1 0]; [C 1 0; C 0 0] ].

Definition PauliY : result Matrix.t :=
  Matrix.fromArray [ [C 0 0; C 0 (-1)]; [C 0 1; C 0 0] ].

Definition PauliZ : result Matrix.t :=
  Matrix.fromArray [ [C 1 0; C 0 0]; [C 0 0; C (-1) 0] ].

Definition Phase : result Matrix.t :=
  Matrix.fromArray [ [C 1 0; C 0 0]; [C 0 0; C 0 1] ].

Definition T : result Matrix.t :=
  let invSqrt2 := 1 / sqrt 2 in
  Matrix.fromArray [ [C 1 0; C 0 0]; [C 0 0; C invSqrt2 invSqrt2] ].

Definition RotationX (theta : R) : result Matrix.t :=
  let cos := cos (theta / 2) in
  let sin := sin (theta / 2) in
  Matrix.fromArray [ [C cos 0; C 0 (- sin)]; [C 0 (- sin); C cos 0] ].

Definition RotationY (theta : R) : result Matrix.t :=
  let cos := cos (theta / 2) in
  let sin := sin (theta / 2) in
  Matrix.fromArray [ [C cos 0; C (- sin) 0]; [C sin 0; C cos 0] ].

Definition RotationZ (theta : R) : result Matrix.t :=
  let exp1 := Complex.fromPolar 1 (- theta / 2) in
  let exp2 := Complex.fromPolar 1 (theta / 2) in
  Matrix.fromArray [ [VComplex exp1; C 0 0]; [C 0 0; VComplex exp2] ].

Definition CNOT : result Matrix.t :=
  Matrix.fromArray
    [ [C 1 0; C 0 0; C 0 0; C 0 0];
      [C 0 0; C 1 0; C 0 0; C 0 0];
      [C 0 0; C 0 0; C 0 0; C 1 0];
      [C 0 0; C 0 0; C 1 0; C 0 0] ].

Definition CZ : result Matrix.t :=
  Matrix.fromArray
    [ [C 1 0; C 0 0; C 0 0; C 0 0];
      [C 0 0; C 1 0; C 0 0; C 0 0];
      [C 0 0; C 0 0; C 1 0; C 0 0];
      [C 0 0; C 0 0; C 0 0; C (-1) 0] ].

Definition CRZ (angle : R) : result Matrix.t :=
  let expMinus := Complex.fromPolar 1 (- angle / 2) in
  let expPlus := Complex.fromPolar 1 (angle / 2) in
  Matrix.fromArray
    [ [C 1 0; C 0 0; C 0 0; C 0 0];
      [C 0 0; C 1 0; C 0 0; C 0 0];
      [C 0 0; C 0 0; VComplex expMinus; C 0 0];
      [C 0 0; C 0 0; C 0 0; VComplex expPlus] ].

Definition SWAP : result Matrix.t :=
  Matrix.fromArray
    [ [C 1 0; C 0 0; C 0 0; C 0 0];
      [C 0 0; C 0 0; C 1 0; C 0 0];
      [C 0 0; C 1 0; C 0 0; C 0 0];
      [C 0 0; C 0 0; C 0 0; C 1 0] ].

Definition Toffoli : result Matrix.t :=
  matrix <- Matrix.identity 8 ;;
  d <- Matrix.dset (Matrix.data matrix) 6 6 (Complex.mk 0 0) ;;
  d <- Matrix.dset d 6 7 (Complex.mk 1 0) ;;
  d <- Matrix.dset d 7 6 (Complex.mk 1 0) ;;
  d <- Matrix.dset d 7 7 (Complex.mk 0 0) ;;
  Ok (Matrix.mk (Matrix.rows matrix) (Matrix.cols matrix) d).

Definition Fredkin : result Matrix.t :=
  matrix <- Matrix.identity 8 ;;
  d <- Matrix.dset (Matrix.data matrix) 5 5 (Complex.mk 0 0) ;;
  d <- Matrix.dset d 5 6 (Complex.mk 1 0) ;;
  d <- Matrix.dset d 6 5 (Complex.mk 1 0) ;;
  d <- Matrix.dset d 6 6 (Complex.mk 0 0) ;;
  Ok (Matrix.mk (Matrix.rows matrix) (Matrix.cols matrix) d).

(** [U(theta, phi, lambda)]: the array literal handed to [fromArray] has
    four rows of two entries. *)
Definition U (theta phi lambda : R) : result Matrix.t :=
  let cos := cos (theta / 2) in
  let sin := sin (theta / 2) in
  let expPhi := Complex.fromPolar 1 phi in
  let expLambda := Complex.fromPolar 1 lambda in
  let expPhiPlusLambda := Complex.fromPolar 1 (phi + lambda) in
  Matrix.fromArray
    [ [C cos 0; C 0 0];
      [C 0 0; C (cos * Complex.real expLambda) (cos * Complex.imag expLambda)];
      [C 0 0; C (sin * Complex.real expPhi) (sin * Complex.imag expPhi)];
      [C (- sin) 0;
       C (cos * Complex.real expPhiPlusLambda)
         (cos * Complex.imag expPhiPlusLambda)] ].

Definition Rk (k : R) : result Matrix.t :=
  let angle := 2 * PI / Rpower 2 k in
  Matrix.fromArray
    [ [C 1 0; C 0 0]; [C 0 0; VComplex (Complex.fromPolar 1 angle)] ].

(** [params[i]] of the rest parameter, read as a number. *)
Definition param (params : list R) (i : nat) : R := nth i params 0.

Local Open Scope string_scope.

Definition oneOf (name : string) (cases : list string) : bool :=
  existsb (String.eqb name) cases.

(** [getGate(gateName, ...params)]: the [switch] on the upper-cased name. *)
Definition getGate (gateName : string) (params : list R) : result Matrix.t :=
  let name := toUpperCase gateName in
  if oneOf name ["H"; "HADAMARD"] then Hadamard
  else if oneOf name ["X"; "PAULI_X"] then PauliX
  else if oneOf name ["Y"; "PAULI_Y"] then PauliY
  else if oneOf name ["Z"; "PAULI_Z"] then PauliZ
  else if oneOf name ["S"; "PHASE"] then Phase
  else if oneOf name ["T"; "T_GATE"] then T
  else if oneOf name ["RX"; "ROTATION_X"] then
    if (List.length params =? 0)%nat then Err MissingParameter
    else RotationX (param params 0)
  else if oneOf name ["RY"; "ROTATION_Y"] then
    if (List.length params =? 0)%nat then Err MissingParameter
    else RotationY (param params 0)
  else if oneOf name ["RZ"; "ROTATION_Z"] then
    if (List.length params =? 0)%nat then Err MissingParameter
    else RotationZ (param params 0)
  else if oneOf name ["CNOT"; "CONTROLLED_NOT"] then CNOT
  else if oneOf name ["CZ"; "CONTROLLED_Z"] then CZ
  else if oneOf name ["CRZ"; "CONTROLLED_RZ"] then
    if (List.length params =? 0)%nat then Err MissingParameter
    else CRZ (param params 0)
  else if oneOf name ["SWAP"] then SWAP
  else if oneOf name ["TOFFOLI"; "CCNOT"] then Toffoli
  else if oneOf name ["FREDKIN"; "CSWAP"] then Fredkin
  else if oneOf name ["U"] then
    if (List.length params <? 3)%nat then Err MissingParameter
    else U (param params 0) (param params 1) (param params 2)
  else if oneOf name ["RK"] then
    if (List.length params =? 0)%nat then Err MissingParameter
    else Rk (param params 0)
  else Err UnknownGate.

Record GateInfo : Type := mkInfo {
  name : string;
  qubits : Z;
  params : Z;
  description : string
}.

(** The object literal of [getGateInfo], in the order it is written. *)
Definition info : list (string * GateInfo) :=
  [ ("H", mkInfo "Hadamard" 1 0 "Creates superposition");
    ("X", mkInfo "Pauli-X" 1 0 "Bit flip gate");
    ("Y", mkInfo "Pauli-Y" 1 0 "Bit and phase flip gate");
    ("Z", mkInfo "Pauli-Z" 1 0 "Phase flip gate");
    ("S", mkInfo "Phase" 1 0 "pi/2 phase shift");
    ("T", mkInfo "T-Gate" 1 0 "pi/4 phase shift");
    ("RX", mkInfo "Rotation-X" 1 1 "Rotation around X axis");
    ("RY", mkInfo "Rotation-Y" 1 1 "Rotation around Y axis");
    ("RZ", mkInfo "Rotation-Z" 1 1 "Rotation around Z axis");
    ("CNOT", mkInfo "Controlled-NOT" 2 0 "Conditional bit flip");
    ("CZ", mkInfo "Controlled-Z" 2 0 "Conditional phase flip");
    ("SWAP", mkInfo "SWAP" 2 0 "Exchanges two qubits");
    ("TOFFOLI", mkInfo "Toffoli" 3 0 "Controlled-controlled-NOT");
    ("FREDKIN", mkInfo "Fredkin" 3 0 "Controlled-SWAP") ].

(** [info[key]]: the own property of that name, if any. *)
Fixpoint lookup {A : Type} (key : string) (table : list (string * A))
  : option A :=
  match table with
  | [] => None
  | (k, v) :: rest => if String.eqb key k then Some v else lookup key rest
  end.

(** [getGateInfo(gateName)]: [info[gateName.toUpperCase()] || null]. *)
Definition getGateInfo (gateName : string) : option GateInfo :=
  lookup (toUpperCase gateName) info.

Definition getAllGates : list string :=
  [ "H"; "X"; "Y"; "Z"; "S"; "T"; "RX"; "RY"; "RZ";
    "CNOT"; "CZ"; "SWAP"; "TOFFOLI"; "FREDKIN" ].

Definition ControlledPhaseShift (phi : R) : result Matrix.t :=
  matrix <- Matrix.identity 8 ;;
  d <- Matrix.dset (Matrix.data matrix) 7 7 (Complex.fromPolar 1 phi) ;;
  Ok (Matrix.mk (Matrix.rows matrix) (Matrix.cols matrix) d).

(** [compose(gates)]: [gates.reduce((result, gate) => gate.multiply(result),
    Matrix.identity(gates[0].rows))]. *)
Definition compose (gates : list Matrix.t) : result Matrix.t :=
  first <- JS.aget gates 0 ;;
  identity <- Matrix.identity (Matrix.rows first) ;;
  fold_left
    (fun result gate => r <- result ;; Matrix.multiply gate r)
    gates (Ok identity).

End QuantumGates.

(** ** quantum-core.js: class QuantumState *)

Module QuantumState.

Local Open Scope Z_scope.

Record t : Type := mk {
  numQubits : Z;
  dimension : Z;
  amplitudes : list Complex.t
}.

(** [new QuantumState(numQubits)]: the register in the basis state 0. *)
Definition new_ (numQubits : Z) : t :=
  let dimension := 2 ^ numQubits in
  let amplitudes := JS.afill dimension Complex.zero in
  mk numQubits dimension (JS.aset amplitudes 0 Complex.one).

(** [this.amplitudes = amps]. *)
Definition with_amplitudes (this : t) (amps : list Complex.t) : t :=
  mk (numQubits this) (dimension this) amps.

(** [(i >> (numQubits - 1 - qubit)) & 1]. *)
Definition bitOf (numQubits i qubit : Z) : Z :=
  JS.band (JS.shr i (numQubits - 1 - qubit)) 1.

(** The block "check if this transition is allowed" of
    [createFullGateMatrix]: the loop over the qubits outside the targets
    leaves with [false] at the first one whose bit differs in [i] and [j]. *)
Definition transitionAllowed (numQubits : Z) (controlQubits : list Z)
  (i j : Z) : bool :=
  JS.for_of_break controlQubits
    (fun controlQubit allowed =>
       let iBit := bitOf numQubits i controlQubit in
       let jBit := bitOf numQubits j controlQubit in
       if negb (iBit =? jBit) then JS.Break false
       else JS.Continue allowed)
    true.

(** The block "extract target qubit indices": [targetIndex] and
    [targetJIndex] after the loop over [targetQubits]. *)
Definition targetIndices (numQubits : Z) (targetQubits : list Z) (i j : Z)
  : Z * Z :=
  fold_left
    (fun '(targetIndex, targetJIndex) qubit =>
       let iBit := bitOf numQubits i qubit in
       let jBit := bitOf numQubits j qubit in
       (JS.bor (JS.shl targetIndex 1) iBit,
        JS.bor (JS.shl targetJIndex 1) jBit))
    targetQubits (0, 0).

(** The body of the two loops over [i] and [j]: the assignment to
    [fullMatrix.data[i][j]]. *)
Definition setFullEntry (numQubits : Z) (gateMatrix : Matrix.t)
  (targetQubits controlQubits : list Z) (i j : Z)
  (d : list (list Complex.t)) : result (list (list Complex.t)) :=
  if negb (transitionAllowed numQubits controlQubits i j)
  then Matrix.dset d i j (Complex.mk 0 0)
  else
    let '(targetIndex, targetJIndex) :=
      targetIndices numQubits targetQubits i j in
    v <- Matrix.dget (Matrix.data gateMatrix) targetIndex targetJIndex ;;
    Matrix.dset d i j v.

Definition createFullGateMatrix (this : t) (gateMatrix : Matrix.t)
  (targetQubits : list Z) : result Matrix.t :=
  let gateSize := Matrix.rows gateMatrix in
  match JS.log2_integer gateSize with
  | None => Err GateSizeNotPowerOfTwo
  | Some gateQubitCount =>
      if negb (JS.alength targetQubits =? gateQubitCount)
      then Err GateArityMismatch
      else
        fullMatrix <- Matrix.identity (dimension this) ;;
        let allQubits := JS.arange (numQubits this) in
        let controlQubits :=
          filter (fun q => negb (JS.includes targetQubits q)) allQubits in
        d <- JS.for_range (dimension this) (fun i d =>
               JS.for_range (dimension this) (fun j d =>
                 setFullEntry (numQubits this) gateMatrix targetQubits
                              controlQubits i j d) d)
             (Matrix.data fullMatrix) ;;
        Ok (Matrix.mk (Matrix.rows fullMatrix) (Matrix.cols fullMatrix) d)
  end.

(** The statement of the inner loop of [applyGate]. *)
Definition accumulate (fullMatrix : Matrix.t) (amplitudes : list Complex.t)
  (i j : Z) (newAmplitudes : list Complex.t) : result (list Complex.t) :=
  f <- Matrix.dget (Matrix.data fullMatrix) i j ;;
  a <- JS.aget amplitudes j ;;
  let term := Complex.multiply f a in
  cur <- JS.aget newAmplitudes i ;;
  Ok (JS.aset newAmplitudes i (Complex.add cur term)).

Definition applyGate (this : t) (gateMatrix : Matrix.t)
  (targetQubits : list Z) : result t :=
  fullMatrix <- createFullGateMatrix this gateMatrix targetQubits ;;
  let newAmplitudes := JS.afill (dimension this) Complex.zero in
  na <- JS.for_range (dimension this) (fun i na =>
          JS.for_range (dimension this) (fun j na =>
            accumulate fullMatrix (amplitudes this) i j na) na)
        newAmplitudes ;;
  Ok (with_amplitudes this na).

Definition getProbabilities (this : t) : list R :=
  map (fun amp => (Complex.magnitude amp * Complex.magnitude amp)%R)
      (amplitudes this).

Definition clone (this : t) : t :=
  let cloned := new_ (numQubits this) in
  with_amplitudes cloned
    (map (fun amp => Complex.mk (Complex.real amp) (Complex.imag amp))
         (amplitudes this)).

Definition fromBasisState (numQubits basisIndex : Z) : t :=
  let state := new_ numQubits in
  let amplitudes := JS.afill (dimension state) Complex.zero in
  with_amplitudes state (JS.aset amplitudes basisIndex (Complex.mk 1 0)).

Record MeasureResult : Type := mkMeasureResult {
  basisIndex : Z;
  bitString : string;
  probability : option R
}.

(** [probabilities[i]]: a number, or [undefined]. *)
Definition probabilityAt (probabilities : list R) (i : Z) : option R :=
  if i <? 0 then None else nth_error probabilities (Z.to_nat i).

(** The scan of [measure]: the running sum, and the first index at which
    the sample is below it; once an index is found the loop has returned. *)
Fixpoint scanCumulative (probabilities : list R) (random : R) (i : Z)
  (cumulative : R) : option Z :=
  match probabilities with
  | [] => None
  | p :: rest =>
      let cumulative := (cumulative + p)%R in
      if Rlt_dec random cumulative then Some i
      else scanCumulative rest random (i + 1) cumulative
  end.

(** [measure()]; [random] is the value of [Math.random()]. *)
Definition measure (this : t) (random : R) : MeasureResult * t :=
  let probabilities := getProbabilities this in
  let collapsed (i : Z) :=
    with_amplitudes this
      (JS.aset (JS.afill (dimension this) Complex.zero) i (Complex.mk 1 0)) in
  match scanCumulative probabilities random 0 0%R with
  | Some i =>
      (mkMeasureResult i (JS.padStart (JS.toBinary i) (numQubits this))
                       (probabilityAt probabilities i),
       collapsed i)
  | None =>
      let lastIndex := JS.alength probabilities - 1 in
      (mkMeasureResult lastIndex
                       (JS.padStart (JS.toBinary lastIndex) (numQubits this))
                       (probabilityAt probabilities lastIndex),
       collapsed lastIndex)
  end.

Definition getDensityMatrix (this : t) : result Matrix.t :=
  let density := Matrix.new_ (dimension this) (dimension this) in
  d <- JS.for_range (dimension this) (fun i d =>
         JS.for_range (dimension this) (fun j d =>
           a <- JS.aget (amplitudes this) i ;;
           b <- JS.aget (amplitudes this) j ;;
           Matrix.dset d i j (Complex.multiply a (Complex.conjugate b))) d)
       (Matrix.data density) ;;
  Ok (Matrix.mk (dimension this) (dimension this) d).


End QuantumState.

(** ** quantum-simulator.js: class QuantumCircuit *)

Module QuantumCircuit.

Local Open Scope Z_scope.

(** The [params] object of a gate: its own properties in insertion order,
    all of them numbers. *)
Definition Params : Type := list (string * R).

(** [Object.values(params)]. *)
Definition values (params : Params) : list R := map snd params.

(** [params.position]. *)
Definition positionOf (params : Params) : option R :=
  QuantumGates.lookup "position"%string params.

(** An entry of [this.gates]: a gate queued by [addGate], or a classical
    pseudo-gate ([type === 'classical']) with input and output qubits and a
    position of its own. *)
Inductive Gate : Type :=
| Quantum (name : string) (targetQubits : list Z) (params : option Params)
    (matrix : option Matrix.t)
| Classical (name : string) (inputQubits : list Z) (outputQubit : Z)
    (position : option R).

Definition gateName (g : Gate) : string :=
  match g with
  | Quantum name _ _ _ => name
  | Classical name _ _ _ => name
  end.

Record MeasurementResult : Type := mkMeasurementResult {
  mr_qubit : Z;
  mr_result : Z;
  mr_probabilities : R * R
}.

Record Measurement : Type := mkMeasurement {
  qubit : Z;
  result_ : option MeasurementResult
}.

Record GateOperation : Type := mkGateOperation {
  op_gate : string;
  op_targetQubits : option (list Z);
  op_params : option Params;
  beforeState : QuantumState.t;
  afterState : QuantumState.t
}.

Record ShotResult : Type := mkShotResult {
  initialState : QuantumState.t;
  finalState : option QuantumState.t;
  shot_measurements : list MeasurementResult;
  gateOperations : list GateOperation
}.

Record t : Type := mk {
  numQubits : Z;
  gates : list Gate;
  measurements : list Measurement;
  state : QuantumState.t;
  executionHistory : list ShotResult
}.

Definition new_ (numQubits : Z) : t :=
  mk numQubits [] [] (QuantumState.new_ numQubits) [].

Definition with_state (this : t) (s : QuantumState.t) : t :=
  mk (numQubits this) (gates this) (measurements this) s
     (executionHistory this).

Definition with_gates (this : t) (gs : list Gate) : t :=
  mk (numQubits this) gs (measurements this) (state this)
     (executionHistory this).

(** [a || b] for a position [a] that may be [undefined]: the number is
    taken when it is defined and not zero. *)
Definition orElse (a : option R) (b : R) : R :=
  match a with
  | Some x => if Req_dec_T x 0 then b else x
  | None => b
  end.

(** [existingGate.params?.position || existingGate.position || i]. *)
Definition existingPosition (existingGate : Gate) (i : Z) : R :=
  match existingGate with
  | Quantum _ _ params _ =>
      orElse (match params with Some p => positionOf p | None => None end)
             (IZR i)
  | Classical _ _ _ position => orElse position (IZR i)
  end.

(** [existingGate.targetQubits || existingGate.inputQubits || []]. *)
Definition existingGateQubits (existingGate : Gate) : list Z :=
  match existingGate with
  | Quantum _ targetQubits _ _ => targetQubits
  | Classical _ inputQubits _ _ => inputQubits
  end.

(** The loop of [addGate] over [this.gates[i]], [i] counting from the
    index of the head of [gs]; the value is [insertIndex] when the loop
    ends or breaks. *)
Fixpoint insertionScan (position : R) (targetQubits : list Z)
  (gs : list Gate) (i : Z) (insertIndex : Z) : Z :=
  match gs with
  | [] => insertIndex
  | existingGate :: rest =>
      let existingPosition := existingPosition existingGate i in
      if existsb (fun q => JS.includes targetQubits q)
                 (existingGateQubits existingGate)
         && (if Rlt_dec existingPosition position then true else false)
      then insertionScan position targetQubits rest (i + 1) (i + 1)
      else if Rge_dec existingPosition position then insertIndex
      else insertionScan position targetQubits rest (i + 1) insertIndex
  end.

(** [arr.splice(index, 0, item)] for [0 <= index]. *)
Definition splice {A : Type} (arr : list A) (index : Z) (item : A) : list A :=
  firstn (Z.to_nat index) arr ++ item :: skipn (Z.to_nat index) arr.

Definition addGate (this : t) (gateName : string) (targetQubits : list Z)
  (params : Params) : result t :=
  match QuantumGates.getGateInfo gateName with
  | None => Err UnknownGate
  | Some gateInfo =>
      if negb (JS.alength targetQubits =? QuantumGates.qubits gateInfo)
      then Err GateArityMismatch
      else if existsb (fun qubit => (qubit <? 0) || (qubit >=? numQubits this))
                      targetQubits
      then Err QubitIndexOutOfRange
      else
        matrix <- QuantumGates.getGate gateName (values params) ;;
        let gate := Quantum gateName targetQubits (Some params) (Some matrix) in
        match positionOf params with
        | Some position =>
            let insertIndex :=
              insertionScan position targetQubits (gates this) 0
                            (JS.alength (gates this)) in
            Ok (with_gates this (splice (gates this) insertIndex gate))
        | None => Ok (with_gates this (gates this ++ [gate]))
        end
  end.

Definition addMeasurement (this : t) (qubit : Z) : result t :=
  if (qubit <? 0) || (qubit >=? numQubits this) then Err QubitIndexOutOfRange
  else
    Ok (mk (numQubits this) (gates this)
           (measurements this ++ [mkMeasurement qubit None])
           (state this) (executionHistory this)).

(** [reset()]: every recorded result becomes [null], the history is
    emptied; [this.state] is not assigned. *)
Definition reset (this : t) : t :=
  mk (numQubits this) (gates this)
     (map (fun m => mkMeasurement (qubit m) None) (measurements this))
     (state this) [].

(** [numQubits - 1 - q] for [q = inputQubits[k]]: when the array is too
    short [q] is [undefined], the difference is [NaN], and the 32-bit
    operators read [NaN] as 0. *)
Definition shiftFor (numQubits : Z) (q : option Z) : Z :=
  match q with
  | Some q => numQubits - 1 - q
  | None => 0
  end.

(** The scan of the AND and OR branches: the first index whose amplitude
    has magnitude above 0.9, or -1. *)
Definition findBasisState (dimension : Z) (amplitudes : list Complex.t)
  : result Z :=
  JS.for_range dimension (fun i stateIndex =>
    if 0 <=? stateIndex then Ok stateIndex
    else
      a <- JS.aget amplitudes i ;;
      if Rlt_dec 0.9 (Complex.magnitude a) then Ok i else Ok stateIndex)
    (-1).

(** The body shared by the AND and OR branches once [stateIndex >= 0];
    [op] is [&] or [|]. *)
Definition writeLogicResult (op : Z -> Z -> Z) (numQubits dimension : Z)
  (stateIndex : Z) (inputQubit1 inputQubit2 : option Z) (outputQubit : Z)
  : list Complex.t :=
  let bit1 := JS.band (JS.shr stateIndex (shiftFor numQubits inputQubit1)) 1 in
  let bit2 := JS.band (JS.shr stateIndex (shiftFor numQubits inputQubit2)) 1 in
  let logicResult := op bit1 bit2 in
  let newAmplitudes := JS.afill dimension Complex.zero in
  let targetIndex := stateIndex in
  let outputBitMask := JS.shl 1 (numQubits - 1 - outputQubit) in
  let resultMask := JS.shl logicResult (numQubits - 1 - outputQubit) in
  let targetIndex := JS.band targetIndex (JS.bnot outputBitMask) in
  let targetIndex := JS.bor targetIndex resultMask in
  JS.aset newAmplitudes targetIndex (Complex.mk 1 0).

Definition applyClassicalGate (this : t) (gate : Gate) : result t :=
  let numQubits := QuantumState.numQubits (state this) in
  let dimension := 2 ^ numQubits in
  match gate with
  | Quantum _ _ _ _ => Ok this
  | Classical name inputQubits outputQubit _ =>
      if String.eqb name "NOT" then
        let inputQubit := nth_error inputQubits 0 in
        let newAmplitudes := JS.afill dimension Complex.zero in
        na <- JS.for_range dimension (fun i na =>
                let inputBit :=
                  JS.band (JS.shr i (shiftFor numQubits inputQubit)) 1 in
                let flippedBit := 1 - inputBit in
                let newStateIndex :=
                  if negb (flippedBit =?
                           JS.band (JS.shr i (numQubits - 1 - outputQubit)) 1)
                  then JS.bxor i (JS.shl 1 (numQubits - 1 - outputQubit))
                  else i in
                a <- JS.aget (QuantumState.amplitudes (state this)) i ;;
                Ok (JS.aset na newStateIndex (Complex.clone a)))
              newAmplitudes ;;
        Ok (with_state this (QuantumState.with_amplitudes (state this) na))
      else if String.eqb name "AND" then
        stateIndex <- findBasisState dimension
                        (QuantumState.amplitudes (state this)) ;;
        if 0 <=? stateIndex then
          Ok (with_state this
                (QuantumState.with_amplitudes (state this)
                   (writeLogicResult JS.band numQubits dimension stateIndex
                      (nth_error inputQubits 0) (nth_error inputQubits 1)
                      outputQubit)))
        else Ok this
      else if String.eqb name "OR" then
        stateIndex <- findBasisState dimension
                        (QuantumState.amplitudes (state this)) ;;
        if 0 <=? stateIndex then
          Ok (with_state this
                (QuantumState.with_amplitudes (state this)
                   (writeLogicResult JS.bor numQubits dimension stateIndex
                      (nth_error inputQubits 0) (nth_error inputQubits 1)
                      outputQubit)))
        else Ok this
      else Ok this
  end.

(** [const] binding assigned to: the statement throws. *)
Definition assignToConst {A : Type} : result A := Err TypeErrorConstAssign.

(** [getQubitProbabilities(qubit)]: [prob0] and [prob1] are declared with
    [const], and both branches of the loop body assign to one of them. *)
Definition getQubitProbabilities (this : t) (qubit : Z) : result (R * R) :=
  let prob0 := 0%R in
  let prob1 := 0%R in
  _ <- JS.for_range (QuantumState.dimension (state this)) (fun i (_ : unit) =>
         let bit := QuantumState.bitOf (numQubits this) i qubit in
         a <- JS.aget (QuantumState.amplitudes (state this)) i ;;
         let probability := (Complex.magnitude a ^ 2)%R in
         if bit =? 0 then assignToConst (* prob0 += probability *)
         else assignToConst (* prob1 += probability *))
       tt ;;
  Ok (prob0, prob1).

Definition collapseQubit (this : t) (qubit : Z) (result' : Z) : result t :=
  let newAmplitudes :=
    JS.afill (QuantumState.dimension (state this)) Complex.zero in
  let norm := 0%R in
  '(newAmplitudes, norm) <-
    JS.for_range (QuantumState.dimension (state this))
      (fun i '(newAmplitudes, norm) =>
         let bit := QuantumState.bitOf (numQubits this) i qubit in
         if bit =? result' then
           a <- JS.aget (QuantumState.amplitudes (state this)) i ;;
           Ok (JS.aset newAmplitudes i a,
               (norm + Complex.magnitude a ^ 2)%R)
         else Ok (newAmplitudes, norm))
      (newAmplitudes, norm) ;;
  if Rlt_dec 1e-10 norm then
    amps <- JS.amap (fun amp =>
                       Complex.divide amp (Complex.mk (sqrt norm) 0))
                    newAmplitudes ;;
    Ok (with_state this (QuantumState.with_amplitudes (state this) amps))
  else Ok this.

(** [measureQubit(qubit)]; [random] is the value [Math.random()] returns
    when the call is reached. *)
Definition measureQubit (this : t) (random : R) (qubit : Z)
  : result (MeasurementResult * t) :=
  probabilities <- getQubitProbabilities this qubit ;;
  let result := if Rlt_dec random (fst probabilities) then 0 else 1 in
  this' <- collapseQubit this qubit result ;;
  Ok (mkMeasurementResult qubit result probabilities, this').

(** The loop of [executeSingleShot] over [this.gates]: each gate is applied
    to [this.state] and recorded with a snapshot before and after.  A gate
    without a matrix gets one from the catalog, which is stored in the
    gate; the gates are returned as the loop leaves them. *)
Fixpoint applyGates (this : t) (gs : list Gate)
  : result (t * list Gate * list GateOperation) :=
  match gs with
  | [] => Ok (this, [], [])
  | gate :: rest =>
      let beforeState := QuantumState.clone (state this) in
      '(this', gate', targets, params) <-
        match gate with
        | Classical _ _ _ _ =>
            this' <- applyClassicalGate this gate ;;
            Ok (this', gate, None, None)
        | Quantum name targetQubits params matrix =>
            m <- match matrix with
                 | Some m => Ok m
                 | None =>
                     QuantumGates.getGate name
                       (match params with Some p => values p | None => [] end)
                 end ;;
            s' <- QuantumState.applyGate (state this) m targetQubits ;;
            Ok (with_state this s',
                Quantum name targetQubits params (Some m),
                Some targetQubits, params)
        end ;;
      let op :=
        mkGateOperation (gateName gate) targets params beforeState
                        (QuantumState.clone (state this')) in
      '(this'', rest', ops) <- applyGates this' rest ;;
      Ok (this'', gate' :: rest', op :: ops)
  end.

(** The loop of [executeSingleShot] over [this.measurements]; [rand k] is
    what the [k]-th call of [Math.random()] returns. *)
Fixpoint performMeasurements (this : t) (rand : nat -> R) (k : nat)
  (ms : list Measurement)
  : result (t * nat * list Measurement * list MeasurementResult) :=
  match ms with
  | [] => Ok (this, k, [], [])
  | measurement :: rest =>
      '(measurementResult, this') <-
        measureQubit this (rand k) (qubit measurement) ;;
      let measurement' :=
        mkMeasurement (qubit measurement) (Some measurementResult) in
      '(this'', k', rest', results) <-
        performMeasurements this' rand (Datatypes.S k) rest ;;
      Ok (this'', k', measurement' :: rest', measurementResult :: results)
  end.

Definition executeSingleShot (this : t) (rand : nat -> R) (k : nat)
  : result (ShotResult * t * nat) :=
  let initialState := QuantumState.clone (state this) in
  '(this1, gates', ops) <- applyGates this (gates this) ;;
  '(this2, k', measurements', results) <-
    performMeasurements this1 rand k (measurements this1) ;;
  let finalState := QuantumState.clone (state this2) in
  let result := mkShotResult initialState (Some finalState) results ops in
  Ok (result,
      mk (numQubits this2) gates' measurements' (state this2)
         (executionHistory this2 ++ [result]),
      k').

Record Aggregate : Type := mkAggregate {
  first : option ShotResult;
  shots : Z;
  measurementStats : list (Z * (R * R));
  bitStringProbabilities : list (Z * R)
}.

Inductive RunResult : Type :=
| SingleShot (r : ShotResult)
| Aggregated (a : Aggregate).

(** [table[key]++] on an object used as a counter table, a missing entry
    being made with [init] first. *)
Fixpoint bump {V : Type} (key : Z) (init : V) (incr : V -> V)
  (table : list (Z * V)) : list (Z * V) :=
  match table with
  | [] => [(key, incr init)]
  | (k, v) :: rest =>
      if k =? key then (k, incr v) :: rest
      else (k, v) :: bump key init incr rest
  end.

(** The index of the head of
    [amplitudes.map((amp, i) => ...).sort((a, b) => b.amp - a.amp)]: the
    sort is stable, so this is the first index of greatest probability. *)
Fixpoint mostProbable (amps : list Complex.t) (i : Z) (best : option (Z * R))
  : option (Z * R) :=
  match amps with
  | [] => best
  | amp :: rest =>
      let p := (Complex.magnitude amp ^ 2)%R in
      match best with
      | None => mostProbable rest (i + 1) (Some (i, p))
      | Some (_, q) =>
          if Rlt_dec q p then mostProbable rest (i + 1) (Some (i, p))
          else mostProbable rest (i + 1) best
      end
  end.

(** The body of [results.forEach] in [aggregateResults]: the outcome
    counts per measured qubit, and the count of the shot's most probable
    basis index.  The key of the second table is kept as the basis index
    whose padded binary form the source uses. *)
Definition countShot
  (acc : result (list (Z * (Z * Z)) * list (Z * Z))) (shot : ShotResult)
  : result (list (Z * (Z * Z)) * list (Z * Z)) :=
  '(stats, strings) <- acc ;;
  let stats :=
    fold_left
      (fun stats meas =>
         bump (mr_qubit meas) (0, 0)
           (fun '(n0, n1) =>
              if mr_result meas =? 0 then (n0 + 1, n1) else (n0, n1 + 1))
           stats)
      (shot_measurements shot) stats in
  final <- match finalState shot with
           | Some s => Ok s
           | None => Err TypeErrorUndefined
           end ;;
  '(index, _) <-
    match mostProbable (QuantumState.amplitudes final) 0 None with
    | Some b => Ok b
    | None => Err TypeErrorUndefined
    end ;;
  Ok (stats, bump index 0 (fun n => n + 1) strings).

(** [aggregateResults(results)]. *)
Definition aggregateResults (this : t) (results : list ShotResult)
  : result RunResult :=
  match results with
  | [r] => Ok (SingleShot r)
  | _ =>
      '(stats, strings) <- fold_left countShot results (Ok ([], [])) ;;
      let totalShots := JS.alength results in
      Ok (Aggregated
            (mkAggregate (nth_error results 0) totalShots
               (map (fun '(q, (n0, n1)) =>
                       (q, ((IZR n0 / IZR totalShots)%R,
                            (IZR n1 / IZR totalShots)%R)))
                    stats)
               (map (fun '(b, n) => (b, (IZR n / IZR totalShots)%R))
                    strings)))
  end.

(** [run(shots)]: each shot resets the measurement results and the
    history, then executes. *)
Definition run (this : t) (rand : nat -> R) (k : nat) (shots : Z)
  : result (RunResult * t * nat) :=
  '(this', k', results) <-
    JS.for_range shots (fun _ '(this, k, results) =>
      let this := reset this in
      '(shotResult, this, k) <- executeSingleShot this rand k ;;
      Ok (this, k, results ++ [shotResult]))
    (this, k, []) ;;
  r <- aggregateResults this' results ;;
  Ok (r, this', k').

(** [prepareQubitState(qubit, value)]. *)
Definition prepareQubitState (this : t) (qubit value : Z) : t :=
  let numQubits := QuantumState.numQubits (state this) in
  let newAmplitudes :=
    map (fun '(index, amp) =>
           let bitValue :=
             JS.band (JS.shr index (numQubits - 1 - qubit)) 1 in
           if bitValue =? value then Complex.clone amp
           else Complex.mk 0 0)
        (combine (JS.arange (JS.alength (QuantumState.amplitudes (state this))))
                 (QuantumState.amplitudes (state this))) in
  let hasNonZero :=
    existsb (fun amp =>
               if Rlt_dec 1e-10 (Complex.magnitude amp) then true else false)
            newAmplitudes in
  if negb hasNonZero then this
  else with_state this
         (QuantumState.with_amplitudes (state this) newAmplitudes).

(** [measureJointState(qubits)]: the assignments [result[qubit] = bit] in
    the order they are made, and the collapsed circuit; [random] is the
    value of [Math.random()]. *)
Definition measureJointState (this : t) (random : R) (qubits : list Z)
  : result (list (Z * Z) * t) :=
  let numQubits := QuantumState.numQubits (state this) in
  let dimension := 2 ^ numQubits in
  probabilities <- JS.for_range dimension (fun i probabilities =>
      a <- JS.aget (QuantumState.amplitudes (state this)) i ;;
      let probability := (Complex.magnitude a * Complex.magnitude a)%R in
      Ok (probabilities ++ [probability])) [] ;;
  let collapsed (i : Z) :=
    with_state this
      (QuantumState.with_amplitudes (state this)
         (JS.aset (JS.afill dimension Complex.zero) i (Complex.mk 1 0))) in
  let bits (i : Z) :=
    map (fun qubit => (qubit, JS.band (JS.shr i (numQubits - 1 - qubit)) 1))
        qubits in
  match QuantumState.scanCumulative probabilities random 0 0%R with
  | Some i => Ok (bits i, collapsed i)
  | None =>
      let lastIndex := dimension - 1 in
      Ok (bits lastIndex, collapsed lastIndex)
  end.

Record StateVectorEntry : Type := mkStateVectorEntry {
  sv_index : Z;
  sv_bitString : string;
  sv_amplitude : Complex.t;
  sv_probability : R
}.

Definition getStateVector (this : t) : list StateVectorEntry :=
  map (fun '(i, amp) =>
         mkStateVectorEntry i
           (JS.padStart (JS.toBinary i) (numQubits this))
           amp (Complex.magnitude amp ^ 2)%R)
      (combine (JS.arange (JS.alength (QuantumState.amplitudes (state this))))
               (QuantumState.amplitudes (state this))).

End QuantumCircuit.

(** ** quantum-core.js over IEEE doubles

    [Complex.divide], [QuantumState.normalize] and
    [QuantumState.fromAmplitudes] with a JavaScript number as a binary64
    float: every operation rounds to nearest, overflows to an infinity and
    yields [NaN] where the language's does, and a comparison with [NaN] is
    false.  What is proved of these methods is proved of the doubles, not
    of real numbers. *)

Module IEEE.

Local Open Scope float_scope.

Module Complex.

Record t : Type := mk { real : float; imag : float }.

(** [divide]: the body computes the denominator and the two quotients; it
    has no [throw]. *)
Definition divide (this other : t) : result t :=
  let denominator := real other * real other + imag other * imag other in
  Ok (mk ((real this * real other + imag this * imag other) / denominator)
         ((imag this * real other - real this * imag other) / denominator)).

Definition magnitude (this : t) : float :=
  PrimFloat.sqrt (real this * real this + imag this * imag this).

Definition clone (this : t) : t := mk (real this) (imag this).

End Complex.

(** A value found in the array handed to [QuantumState.fromAmplitudes]: an
    instance of [Complex]; a number; [null]; [undefined]; or any other
    value (a string, a boolean, an object of another class), which the
    method reads through [toString] and [Math.abs] only: [abs] is what
    [Math.abs] returns for it. *)
Inductive jsval : Type :=
| VComplex (c : Complex.t)
| VNumber (x : float)
| VOther (abs : float)
| VNull
| VUndefined.

(** [null] and [undefined] have no property [toString]. *)
Definition isNullish (v : jsval) : bool :=
  match v with
  | VNull | VUndefined => true
  | _ => false
  end.

Module QuantumState.

Local Open Scope Z_scope.

Record t : Type := mk {
  numQubits : Z;
  dimension : Z;
  amplitudes : list Complex.t
}.

(** [new QuantumState(numQubits)]. *)
Definition new_ (numQubits : Z) : t :=
  let dimension := 2 ^ numQubits in
  let amplitudes := JS.afill dimension (Complex.mk 0 0) in
  mk numQubits dimension (JS.aset amplitudes 0 (Complex.mk 1 0)).

(** [this.amplitudes = amps]. *)
Definition with_amplitudes (this : t) (amps : list Complex.t) : t :=
  mk (numQubits this) (dimension this) amps.

(** The [reduce] of [normalize]: the sum, from the left, of the squared
    magnitudes. *)
Definition sumOfSquares (amplitudes : list Complex.t) : float :=
  fold_left
    (fun sum amp =>
       (sum + Complex.magnitude amp * Complex.magnitude amp)%float)
    amplitudes 0%float.

Definition normalize (this : t) : result t :=
  let norm := PrimFloat.sqrt (sumOfSquares (amplitudes this)) in
  if (norm <? 1e-10)%float then Err ZeroState
  else
    amps <- JS.amap (fun amp => Complex.divide amp (Complex.mk norm 0))
                    (amplitudes this) ;;
    Ok (with_amplitudes this amps).

(** The [reduce] of [fromAmplitudes]: an instance of [Complex] counts with
    its [magnitude()], anything else with its [Math.abs]. *)
Definition inputSumOfSquares (amplitudes : list jsval) : float :=
  fold_left
    (fun sum amp =>
       let magnitude :=
         match amp with
         | VComplex c => Complex.magnitude c
         | VNumber x => PrimFloat.abs x
         | VOther a => a
         | VNull => 0%float
         | VUndefined => nan
         end in
       (sum + magnitude * magnitude)%float)
    amplitudes 0%float.

(** [fromAmplitudes(amplitudes)].  The first statement prints
    [a.toString()] of every element, which raises a [TypeError] on [null]
    and on [undefined]. *)
Definition fromAmplitudes (amplitudes : list jsval) : result t :=
  if existsb isNullish amplitudes then Err TypeErrorUndefined
  else
    match JS.log2_integer (JS.alength amplitudes) with
    | None => Err InvalidDimension
    | Some numQubits =>
        let norm := PrimFloat.sqrt (inputSumOfSquares amplitudes) in
        if (norm <? 1e-10)%float then Err ZeroState
        else
          let state := new_ numQubits in
          let state :=
            with_amplitudes state
              (map (fun amp =>
                      match amp with
                      | VComplex c => Complex.clone c
                      | VNumber x => Complex.mk x 0
                      | _ => Complex.mk 0 0
                      end) amplitudes) in
          normalize state
    end.

End QuantumState.

(** *** [QuantumState.fromAmplitudes] with object identity

    The same method over a store of objects, for the properties that speak
    of aliasing: an instance of [Complex], an array and a state are objects
    at a location; an array holds numbers, references to instances of
    [Complex], and other values, which the method never stores.  Every
    [new] takes the next free location; temporaries that are never stored
    (the array under [fill], the divisor of [normalize], the strings that
    are printed) are not given one.  A reference is used for an instance of
    [Complex] only: one that leads elsewhere is outside the inputs
    considered and is reported as [TypeErrorUndefined]. *)

Module Heap.

Definition loc : Type := nat.

Inductive value : Type :=
| Ref (l : loc)
| Num (x : float)
| Other (abs : float)
| Null
| Undefined.

Inductive object : Type :=
| ObjComplex (c : Complex.t)
| ObjArray (elems : list value)
| ObjState (numQubits dimension : Z) (amplitudes : option loc).

Definition heap : Type := list object.

(** [new ...]: the object gets the next free location. *)
Definition alloc (h : heap) (o : object) : heap * loc :=
  (h ++ [o], List.length h).

(** Assignment to a field or an element of the object at [l]. *)
Definition write (h : heap) (l : loc) (o : object) : heap :=
  JS.list_set h l o.

(** One [new Complex] per element of [cs], in order. *)
Fixpoint allocAll (h : heap) (cs : list Complex.t) : heap * list value :=
  match cs with
  | [] => (h, [])
  | c :: rest =>
      let '(h1, l) := alloc h (ObjComplex c) in
      let '(h2, vs) := allocAll h1 rest in
      (h2, Ref l :: vs)
  end.

(** An element of an amplitude array as the arithmetic sees it. *)
Definition resolve (h : heap) (v : value) : option jsval :=
  match v with
  | Num x => Some (VNumber x)
  | Other a => Some (VOther a)
  | Null => Some VNull
  | Undefined => Some VUndefined
  | Ref l =>
      match nth_error h l with
      | Some (ObjComplex c) => Some (VComplex c)
      | _ => None
      end
  end.

Fixpoint resolveAll (h : heap) (vs : list value) : option (list jsval) :=
  match vs with
  | [] => Some []
  | v :: rest =>
      match resolve h v, resolveAll h rest with
      | Some j, Some js => Some (j :: js)
      | _, _ => None
      end
  end.

(** The instances of [Complex] behind an array of references. *)
Fixpoint readComplexes (h : heap) (vs : list value) : option (list Complex.t) :=
  match vs with
  | [] => Some []
  | Ref l :: rest =>
      match nth_error h l, readComplexes h rest with
      | Some (ObjComplex c), Some cs => Some (c :: cs)
      | _, _ => None
      end
  | _ :: _ => None
  end.

(** [state.amplitudes = arr]. *)
Definition setAmplitudes (h : heap) (state arr : loc) : heap :=
  match nth_error h state with
  | Some (ObjState n d _) => write h state (ObjState n d (Some arr))
  | _ => h
  end.

(** [new QuantumState(numQubits)]: the state object, one zero per basis
    index, the array that holds them, and the amplitude 1 stored at
    index 0. *)
Definition newState (h : heap) (numQubits : Z) : heap * loc :=
  let dimension := (2 ^ numQubits)%Z in
  let '(h0, this) := alloc h (ObjState numQubits dimension None) in
  let '(h1, zeros) := allocAll h0 (JS.afill dimension (Complex.mk 0 0)) in
  let '(h2, arr) := alloc h1 (ObjArray zeros) in
  let h3 := setAmplitudes h2 this arr in
  let '(h4, one) := alloc h3 (ObjComplex (Complex.mk 1 0)) in
  (write h4 arr (ObjArray (JS.aset zeros 0 (Ref one))), this).

(** [normalize()] on the state object at [this]. *)
Definition normalize (h : heap) (this : loc) : heap * result loc :=
  match nth_error h this with
  | Some (ObjState _ _ (Some arr)) =>
      match nth_error h arr with
      | Some (ObjArray vs) =>
          match readComplexes h vs with
          | Some cs =>
              let norm := PrimFloat.sqrt (QuantumState.sumOfSquares cs) in
              if norm <? 1e-10 then (h, Err ZeroState)
              else
                match JS.amap (fun amp =>
                                 Complex.divide amp (Complex.mk norm 0)) cs with
                | Ok qs =>
                    let '(h1, vs') := allocAll h qs in
                    let '(h2, arr') := alloc h1 (ObjArray vs') in
                    (setAmplitudes h2 this arr', Ok this)
                | Err e => (h, Err e)
                end
          | None => (h, Err TypeErrorUndefined)
          end
      | _ => (h, Err TypeErrorUndefined)
      end
  | _ => (h, Err TypeErrorUndefined)
  end.

(** [QuantumState.fromAmplitudes(amplitudes)] on the array at
    [amplitudes]; the answer is the location of the state object. *)
Definition fromAmplitudes (h : heap) (amplitudes : loc) : heap * result loc :=
  match nth_error h amplitudes with
  | Some (ObjArray vs) =>
      match resolveAll h vs with
      | Some js =>
          if existsb isNullish js then (h, Err TypeErrorUndefined)
          else
            match JS.log2_integer (JS.alength vs) with
            | None => (h, Err InvalidDimension)
            | Some numQubits =>
                let norm := PrimFloat.sqrt (QuantumState.inputSumOfSquares js) in
                if norm <? 1e-10 then (h, Err ZeroState)
                else
                  let '(h1, state) := newState h numQubits in
                  let '(h2, clones) :=
                    allocAll h1
                      (map (fun amp =>
                              match amp with
                              | VComplex c => Complex.clone c
                              | VNumber x => Complex.mk x 0
                              | _ => Complex.mk 0 0
                              end) js) in
                  let '(h3, arr) := alloc h2 (ObjArray clones) in
                  normalize (setAmplitudes h3 state arr) state
            end
      | None => (h, Err TypeErrorUndefined)
      end
  | _ => (h, Err TypeErrorUndefined)
  end.

End Heap.

End IEEE.

(** * Notions used to state the properties *)

(** The bit of qubit [q] in basis index [i] of an [n]-qubit register:
    qubit 0 is the most significant binary digit. *)
Definition qubitBit (n q i : Z) : Z := ((i / 2 ^ (n - 1 - q)) mod 2)%Z.

(** The sum of the squared moduli, as a sum over the list. *)
Fixpoint squaredNorm (amps : list Complex.t) : R :=
  match amps with
  | [] => 0%R
  | a :: rest =>
      (Complex.real a * Complex.real a + Complex.imag a * Complex.imag a
       + squaredNorm rest)%R
  end.

(** A register the sources can hold: [n] qubits, [2 ^ n] amplitudes, and
    indices that fit the 32-bit operators. *)
Definition wellFormedState (s : QuantumState.t) : Prop :=
  (0 <= QuantumState.numQubits s <= 31)%Z /\
  QuantumState.dimension s = (2 ^ QuantumState.numQubits s)%Z /\
  JS.alength (QuantumState.amplitudes s) = QuantumState.dimension s.

(** A circuit whose register has the circuit's qubit count. *)
Definition wellFormedCircuit (c : QuantumCircuit.t) : Prop :=
  wellFormedState (QuantumCircuit.state c) /\
  QuantumState.numQubits (QuantumCircuit.state c) = QuantumCircuit.numQubits c.

(** The record of a shot of a circuit without gates and measurements on
    the register [s]: two snapshots of it, no measurement, no operation. *)
Definition idleShot (s : QuantumState.t) : QuantumCircuit.ShotResult :=
  QuantumCircuit.mkShotResult (QuantumState.clone s)
    (Some (QuantumState.clone s)) [] [].

(** A circuit of one qubit without gates and measurements whose register
    holds the amplitudes 3/5 and 4/5 and whose history holds the record of
    an earlier shot on the basis state 0. *)
Definition usedCircuit : QuantumCircuit.t :=
  QuantumCircuit.mk 1 [] []
    (QuantumState.mk 1 2 [Complex.mk (3 / 5) 0; Complex.mk (4 / 5) 0])
    [idleShot (QuantumState.new_ 1)].

(** The first index, in increasing order, whose amplitude has magnitude
    above 0.9; [i] is the index of the head of the list. *)
Fixpoint firstDominant (amps : list Complex.t) (i : Z) : option Z :=
  match amps with
  | [] => None
  | a :: rest =>
      if Rlt_dec 0.9 (Complex.magnitude a) then Some i
      else firstDominant rest (i + 1)
  end.

(** The basis state [t] of a register of dimension [d]: amplitude 1 at
    index [t], amplitude 0 at every other index. *)
Definition basisState (d t : Z) : list Complex.t :=
  map (fun i => if (i =? t)%Z then Complex.mk 1 0 else Complex.mk 0 0)
      (JS.arange d).

(** A loop over the elements of an array with their indices, as a
    recursion on the list. *)
Fixpoint foldIndexed {A S : Type} (g : Z -> A -> S -> result S)
  (l : list A) (i : Z) (s : S) : result S :=
  match l with
  | [] => Ok s
  | a :: rest => bind (g i a s) (fun s' => foldIndexed g rest (i + 1) s')
  end.

(** The gate acts on one of the qubits in [targets]. *)
Definition sharesQubit (targets : list Z) (g : QuantumCircuit.Gate) : Prop :=
  exists q, In q (QuantumCircuit.existingGateQubits g) /\ In q targets.

(** The probability mass retained by a collapse of qubit [q] onto [r]:
    the sum of the squared moduli over the indices, from [i] on, whose bit
    for [q] is [r]. *)
Fixpoint retainedMass (n q r : Z) (amps : list Complex.t) (i : Z) : R :=
  match amps with
  | [] => 0%R
  | a :: rest =>
      ((if (qubitBit n q i =? r)%Z
        then Complex.real a * Complex.real a + Complex.imag a * Complex.imag a
        else 0)
       + retainedMass n q r rest (i + 1))%R
  end.

(** The amplitudes with every entry whose bit for [q] differs from [r]
    replaced by zero. *)
Fixpoint projectOnto (n q r : Z) (amps : list Complex.t) (i : Z)
  : list Complex.t :=
  match amps with
  | [] => []
  | a :: rest =>
      (if (qubitBit n q i =? r)%Z then a else Complex.zero)
        :: projectOnto n q r rest (i + 1)
  end.







(** A grid of [r] rows of [c] entries each. *)
Definition shape (r c : Z) (d : list (list Complex.t)) : Prop :=
  JS.alength d = r /\ Forall (fun row => JS.alength row = c) d.

(** The sub-index of [i] on the target qubits: their bits shifted in, in
    the order of [targets], the first one most significant. *)
Definition subIndex (n : Z) (targets : list Z) (i : Z) : Z :=
  fold_left (fun acc q => (2 * acc + qubitBit n q i)%Z) targets 0%Z.

(** Some qubit outside the targets has different bits in [i] and [j]. *)
Definition differsOutside (n : Z) (targets : list Z) (i j : Z) : Prop :=
  exists q, (0 <= q < n)%Z /\ ~ In q targets /\
            qubitBit n q i <> qubitBit n q j.

(** Entry [(i, j)] of the operator on the whole register: zero when a
    qubit outside the targets differs, the gate's entry at the two
    sub-indices otherwise. *)
Definition fullOperatorEntry (n : Z) (gate : Matrix.t) (targets : list Z)
  (i j : Z) : Complex.t :=
  if existsb (fun q => negb (JS.includes targets q)
                       && negb (qubitBit n q i =? qubitBit n q j)%Z)
             (JS.arange n)
  then Complex.mk 0 0
  else match Matrix.dget (Matrix.data gate)
               (subIndex n targets i) (subIndex n targets j) with
       | Ok v => v
       | Err _ => Complex.mk 0 0
       end.

(** The sum of a list of complex numbers. *)
Fixpoint complexSum (l : list Complex.t) : Complex.t :=
  match l with
  | [] => Complex.zero
  | a :: rest => Complex.add a (complexSum rest)
  end.

(** The Pauli-X matrix, as the catalog builds it. *)
Definition pauliXMatrix : Matrix.t :=
  Matrix.mk 2 2
    [ [Complex.mk 0 0; Complex.mk 1 0]; [Complex.mk 1 0; Complex.mk 0 0] ].

(** A matrix whose grid has the recorded number of rows and columns. *)
Definition wellFormedMatrix (m : Matrix.t) : Prop :=
  (0 <= Matrix.rows m)%Z /\ (0 <= Matrix.cols m)%Z /\
  shape (Matrix.rows m) (Matrix.cols m) (Matrix.data m).

(** Entry [(i, j)] of a grid, zero outside it. *)
Definition entryOf (d : list (list Complex.t)) (i j : Z) : Complex.t :=
  nth (Z.to_nat j) (nth (Z.to_nat i) d []) Complex.zero.

(** The sum over [k] below [n] of the products [f k * g k]. *)
Definition dot (n : Z) (f g : Z -> Complex.t) : Complex.t :=
  complexSum (map (fun k => Complex.multiply (f k) (g k)) (JS.arange n)).

(** The entries of the identity. *)
Definition delta (i j : Z) : Complex.t :=
  if (i =? j)%Z then Complex.one else Complex.zero.

(** The index the NOT pseudo-gate moves the amplitude of index [i] to: [i]
    with the bit of the output qubit set to the complement of the bit of
    the input qubit. *)
Definition notTarget (n inQ outQ i : Z) : Z :=
  Z.lor (Z.ldiff i (2 ^ (n - 1 - outQ)))
        ((1 - qubitBit n inQ i) * 2 ^ (n - 1 - outQ)).

(** The greatest index below [m] that [f] sends to [j], if there is one:
    the turn of a loop over the indices below [m] that writes slot [j]
    last. *)
Fixpoint lastWriter (f : Z -> Z) (m : nat) (j : Z) : option Z :=
  match m with
  | O => None
  | S m' =>
      if (f (Z.of_nat m') =? j)%Z then Some (Z.of_nat m')
      else lastWriter f m' j
  end.

(** The index in the whole matrix of row or column [k] of a minor that
    leaves out row or column [skip]. *)
Definition skipOver (skip k : Z) : Z := if (k <? skip)%Z then k else (k + 1)%Z.

(** * Facts about the substrate *)

Lemma ToInt32_small : forall z : Z,
  (- 2 ^ 31 <= z < 2 ^ 31)%Z -> JS.ToInt32 z = z.
Proof.
  intros z Hz. unfold JS.ToInt32.
  rewrite Z.mod_small; lia.
Qed.

Lemma pow2_le_31 : forall n : Z, (0 <= n <= 31)%Z -> (0 < 2 ^ n <= 2 ^ 31)%Z.
Proof.
  intros n Hn. split.
  - apply Z.pow_pos_nonneg; lia.
  - apply Z.pow_le_mono_r; lia.
Qed.

Lemma band_1 : forall x : Z, (- 2 ^ 31 <= x < 2 ^ 31)%Z -> JS.band x 1 = (x mod 2)%Z.
Proof.
  intros x Hx. unfold JS.band.
  rewrite (ToInt32_small x Hx).
  change (JS.ToInt32 1) with (Z.ones 1).
  rewrite Z.land_ones by lia. reflexivity.
Qed.

Lemma bitOf_qubitBit : forall n q i : Z,
  (0 <= n <= 31)%Z -> (0 <= q < n)%Z -> (0 <= i < 2 ^ n)%Z ->
  QuantumState.bitOf n i q = qubitBit n q i.
Proof.
  intros n q i Hn Hq Hi.
  pose proof (pow2_le_31 n Hn) as Hp.
  unfold QuantumState.bitOf, qubitBit, JS.shr.
  rewrite ToInt32_small by lia.
  rewrite (Z.mod_small (n - 1 - q) 32) by lia.
  rewrite Z.shiftr_div_pow2 by lia.
  assert (Hd : (0 <= i / 2 ^ (n - 1 - q) <= i)%Z).
  { split.
    - apply Z.div_pos; [lia | apply Z.pow_pos_nonneg; lia].
    - apply Z.div_le_upper_bound.
      + apply Z.pow_pos_nonneg; lia.
      + assert (0 < 2 ^ (n - 1 - q))%Z by (apply Z.pow_pos_nonneg; lia). nia. }
  apply band_1. lia.
Qed.

Lemma qubitBit_range : forall n q i : Z, (0 <= qubitBit n q i < 2)%Z.
Proof.
  intros. unfold qubitBit. apply Z.mod_pos_bound. lia.
Qed.

(** * Complex division *)






(** * The gate catalog and its metadata table *)

(** C5, failing on the code: [getGate] accepts the names U, CRZ and RK and
    the aliases (HADAMARD, CCNOT, ...), the table of [getGateInfo] has no
    entry for any of them, and [addGate] therefore raises [UnknownGate] for
    a name the catalog recognises. *)
Theorem addGate_unknown_for_catalog_names : forall name : string,
  In name ["U"; "CRZ"; "RK"; "HADAMARD"; "PAULI_X"; "CONTROLLED_NOT";
           "CCNOT"; "CSWAP"; "crz"; "hadamard"]%string ->
  (exists m, QuantumGates.getGate name [1; 1; 1]%R = Ok m) /\
  QuantumGates.getGateInfo name = None /\
  (forall c targets params,
     QuantumCircuit.addGate c name targets params = Err UnknownGate).
Proof.
  intros name Hin. simpl in Hin.
  repeat (destruct Hin as [<- | Hin];
          [split; [eexists; reflexivity | split; [reflexivity | intros; reflexivity]] |]).
  contradiction.
Qed.

Lemma addGate_unknown_for_catalog_names_witness :
  (exists m, QuantumGates.getGate "CRZ"%string [1; 1; 1]%R = Ok m) /\
  QuantumCircuit.addGate (QuantumCircuit.new_ 2) "CRZ"%string [0; 1]%Z
    [("angle"%string, 1%R)] = Err UnknownGate.
Proof.
  destruct (addGate_unknown_for_catalog_names "CRZ"%string) as [Hget [_ Hadd]].
  - simpl. right. left. reflexivity.
  - split; [exact Hget | apply Hadd].
Defined.

Lemma U_at_zero_fails_isUnitary :
  exists m : Matrix.t,
    QuantumGates.U 0 0 0 = Ok m /\ Matrix.isUnitary m 1e-10 = Ok false.
Proof.
  eexists. split; [reflexivity |].
  cbv -[Rlt_dec sqrt Rmult Rplus Rminus Ropp IZR Rdiv Rinv cos sin].
  replace (0 / 2)%R with 0%R by lra.
  replace (0 + 0)%R with 0%R by lra.
  rewrite cos_0, sin_0.
  repeat match goal with
         | |- context [Rlt_dec ?a ?b] => destruct (Rlt_dec a b)
         end; try reflexivity.
  exfalso.
  match goal with
  | H : ~ (_ < sqrt ?e)%R |- _ =>
      apply H; replace e with 1%R by lra; rewrite sqrt_1; lra
  end.
Qed.

(** C4, failing on the code: for all angles the matrix [U] builds has four
    rows of two entries, so it is not a 2 x 2 matrix; and at the angles
    (0, 0, 0) the repository's own [isUnitary] test with tolerance 1e-10
    answers [false] on it. *)
Theorem U_has_four_rows :
  (forall theta phi lambda : R,
     exists m : Matrix.t,
       QuantumGates.U theta phi lambda = Ok m /\
       Matrix.rows m = 4%Z /\ Matrix.cols m = 2%Z /\
       List.length (Matrix.data m) = 4%nat /\
       Forall (fun row => List.length row = 2%nat) (Matrix.data m)) /\
  (exists m : Matrix.t,
     QuantumGates.U 0 0 0 = Ok m /\ Matrix.isUnitary m 1e-10 = Ok false).
Proof.
  split.
  - intros theta phi lambda. eexists.
    split; [reflexivity |].
    repeat split; simpl; repeat constructor.
  - exact U_at_zero_fails_isUnitary.
Qed.

(** * Measurement of one qubit *)

(** C1, failing on the code: [getQubitProbabilities] assigns to its
    [const] accumulators in the first turn of its loop, so [measureQubit]
    raises on every register that has an amplitude. *)
Theorem measureQubit_raises :
  forall (c : QuantumCircuit.t) (random : R) (q : Z),
    (0 < QuantumState.dimension (QuantumCircuit.state c))%Z ->
    QuantumState.amplitudes (QuantumCircuit.state c) <> [] ->
    QuantumCircuit.getQubitProbabilities c q = Err TypeErrorConstAssign /\
    QuantumCircuit.measureQubit c random q = Err TypeErrorConstAssign.
Proof.
  intros c random q Hdim Hamps.
  assert (Hp : QuantumCircuit.getQubitProbabilities c q = Err TypeErrorConstAssign).
  { unfold QuantumCircuit.getQubitProbabilities, JS.for_range.
    destruct (Z.to_nat (QuantumState.dimension (QuantumCircuit.state c)))
      as [| k] eqn:Hk; [lia |].
    destruct (QuantumState.amplitudes (QuantumCircuit.state c))
      as [| a rest]; [contradiction |].
    simpl.
    destruct (QuantumState.bitOf (QuantumCircuit.numQubits c) 0 q =? 0)%Z;
      reflexivity. }
  split; [exact Hp |].
  unfold QuantumCircuit.measureQubit. rewrite Hp. reflexivity.
Qed.

Lemma measureQubit_raises_witness :
  QuantumCircuit.measureQubit (QuantumCircuit.new_ 1) (1 / 2)%R 0%Z
  = Err TypeErrorConstAssign.
Proof.
  apply (measureQubit_raises (QuantumCircuit.new_ 1) (1 / 2)%R 0%Z).
  - simpl. lia.
  - simpl. discriminate.
Defined.

(** * Runs and the register *)

Lemma mostProbable_some : forall amps i b,
  exists b', QuantumCircuit.mostProbable amps i (Some b) = Some b'.
Proof.
  induction amps as [| a rest IH]; intros i [j q]; simpl.
  - eexists. reflexivity.
  - match goal with
    | |- context [Rlt_dec ?x ?y] => destruct (Rlt_dec x y)
    end; apply IH.
Qed.

Lemma mostProbable_nonempty : forall amps,
  amps <> [] -> exists b, QuantumCircuit.mostProbable amps 0 None = Some b.
Proof.
  intros [| a rest] Hne; [contradiction |].
  simpl. apply mostProbable_some.
Qed.

Lemma clone_amplitudes_nonempty : forall s,
  QuantumState.amplitudes s <> [] ->
  QuantumState.amplitudes (QuantumState.clone s) <> [].
Proof.
  intros s Hne. unfold QuantumState.clone. simpl.
  destruct (QuantumState.amplitudes s); [contradiction | discriminate].
Qed.

(** A shot of a circuit without gates and measurements: the record holds
    two snapshots of the register, the register stays, the record is pushed
    on the history, and no random number is drawn. *)
Lemma executeSingleShot_idle : forall c rand k,
  QuantumCircuit.gates c = [] ->
  QuantumCircuit.measurements c = [] ->
  QuantumCircuit.executeSingleShot c rand k
  = Ok (idleShot (QuantumCircuit.state c),
        QuantumCircuit.mk (QuantumCircuit.numQubits c) [] []
          (QuantumCircuit.state c)
          (QuantumCircuit.executionHistory c
           ++ [idleShot (QuantumCircuit.state c)]),
        k).
Proof.
  intros c rand k Hg Hm.
  unfold QuantumCircuit.executeSingleShot.
  rewrite Hg. simpl. rewrite Hm. reflexivity.
Qed.

(** The loop of [run] on such a circuit: after [n] turns the circuit holds
    the record of the last shot only, and [n] equal records have been
    collected. *)
Lemma run_loop_idle :
  forall (rand : nat -> R)
         (body : Z -> QuantumCircuit.t * nat * list QuantumCircuit.ShotResult ->
                 result (QuantumCircuit.t * nat
                         * list QuantumCircuit.ShotResult)),
    (forall i this k results,
       body i (this, k, results)
       = bind (QuantumCircuit.executeSingleShot (QuantumCircuit.reset this)
                 rand k)
              (fun x => let '(shotResult, this', k') := x in
                        Ok (this', k', results ++ [shotResult]))) ->
    forall (n : nat) (lo : Z) (c : QuantumCircuit.t) (k : nat)
           (results : list QuantumCircuit.ShotResult),
      QuantumCircuit.gates c = [] ->
      QuantumCircuit.measurements c = [] ->
      JS.for_from n lo body (c, k, results)
      = Ok (match n with
            | O => c
            | Datatypes.S _ =>
                QuantumCircuit.mk (QuantumCircuit.numQubits c) [] []
                  (QuantumCircuit.state c)
                  [idleShot (QuantumCircuit.state c)]
            end,
            k,
            results ++ repeat (idleShot (QuantumCircuit.state c)) n).
Proof.
  intros rand body Hbody n.
  induction n as [| n IH]; intros lo c k results Hg Hm.
  - cbn [JS.for_from repeat]. rewrite app_nil_r. reflexivity.
  - cbn [JS.for_from]. rewrite Hbody.
    rewrite executeSingleShot_idle
      by (unfold QuantumCircuit.reset; cbn [QuantumCircuit.gates
            QuantumCircuit.measurements];
          first [exact Hg | rewrite Hm; reflexivity]).
    cbn [bind QuantumCircuit.reset QuantumCircuit.state
         QuantumCircuit.numQubits QuantumCircuit.executionHistory app].
    rewrite IH by reflexivity.
    cbn [QuantumCircuit.state QuantumCircuit.numQubits].
    rewrite <- app_assoc. cbn [app repeat].
    destruct n; reflexivity.
Qed.

Lemma countShot_idle : forall s stats strings b q,
  QuantumCircuit.mostProbable
    (QuantumState.amplitudes (QuantumState.clone s)) 0 None = Some (b, q) ->
  QuantumCircuit.countShot (Ok (stats, strings)) (idleShot s)
  = Ok (stats, QuantumCircuit.bump b 0%Z (fun n => (n + 1)%Z) strings).
Proof.
  intros s stats strings b q Hb.
  unfold QuantumCircuit.countShot, idleShot.
  cbn [bind QuantumCircuit.shot_measurements QuantumCircuit.finalState
       fold_left].
  rewrite Hb. reflexivity.
Qed.

Lemma countShot_idle_fold : forall s b q (n : nat) (m : Z),
  QuantumCircuit.mostProbable
    (QuantumState.amplitudes (QuantumState.clone s)) 0 None = Some (b, q) ->
  fold_left QuantumCircuit.countShot (repeat (idleShot s) n)
    (Ok ([], [(b, m)]))
  = Ok ([], [(b, (m + Z.of_nat n)%Z)]).
Proof.
  intros s b q n. induction n as [| n IH]; intros m Hb.
  - cbn [repeat fold_left]. rewrite Z.add_0_r. reflexivity.
  - cbn [repeat fold_left]. rewrite (countShot_idle s _ _ b q Hb).
    cbn [QuantumCircuit.bump]. rewrite Z.eqb_refl.
    rewrite IH by exact Hb. do 3 f_equal. f_equal. lia.
Qed.

(** What [aggregateResults] makes of [n] equal records of idle shots. *)
Lemma aggregate_idle : forall c s b q (n : nat),
  QuantumCircuit.mostProbable
    (QuantumState.amplitudes (QuantumState.clone s)) 0 None = Some (b, q) ->
  QuantumCircuit.aggregateResults c (repeat (idleShot s) n)
  = Ok (match n with
        | O => QuantumCircuit.Aggregated
                 (QuantumCircuit.mkAggregate None 0 [] [])
        | Datatypes.S O => QuantumCircuit.SingleShot (idleShot s)
        | Datatypes.S (Datatypes.S _) =>
            QuantumCircuit.Aggregated
              (QuantumCircuit.mkAggregate (Some (idleShot s)) (Z.of_nat n) []
                 [(b, 1%R)])
        end).
Proof.
  intros c s b q n Hb.
  destruct n as [| [| n]]; [reflexivity | reflexivity |].
  unfold QuantumCircuit.aggregateResults.
  cbn [repeat]. cbn [fold_left].
  rewrite (countShot_idle s _ _ b q Hb). cbn [QuantumCircuit.bump].
  rewrite (countShot_idle s _ _ b q Hb). cbn [QuantumCircuit.bump].
  rewrite Z.eqb_refl.
  rewrite (countShot_idle_fold s b q n (0 + 1 + 1)%Z Hb).
  cbn [bind map nth_error].
  unfold JS.alength. cbn [List.length]. rewrite repeat_length.
  replace (0 + 1 + 1 + Z.of_nat n)%Z
    with (Z.of_nat (Datatypes.S (Datatypes.S n))) by lia.
  do 4 f_equal. f_equal. field.
  apply not_0_IZR. lia.
Qed.

(** C8: [reset] sets every recorded result to [null] and empties the
    history, and leaves the register, the gates and the measured qubits as
    they are.  [run] performs it at the start of every shot: a run of one
    shot or more does not depend on the results and the history the
    circuit held before; and for a circuit without gates and measurements,
    whatever its register and its earlier history, a run returns, draws no
    random number, and leaves the register exactly as it was supplied, the
    history holding the record of the last shot alone, whose two snapshots
    are copies of that register; the value returned is that record for one
    shot and the aggregate of the equal records for more.  The circuit is
    then again without gates and measurements, so a second run leaves the
    same register once more. *)
Theorem run_preserves_input_state :
  (forall c : QuantumCircuit.t,
     QuantumCircuit.state (QuantumCircuit.reset c) = QuantumCircuit.state c /\
     QuantumCircuit.executionHistory (QuantumCircuit.reset c) = [] /\
     Forall (fun m => QuantumCircuit.result_ m = None)
            (QuantumCircuit.measurements (QuantumCircuit.reset c)) /\
     map QuantumCircuit.qubit (QuantumCircuit.measurements (QuantumCircuit.reset c))
     = map QuantumCircuit.qubit (QuantumCircuit.measurements c) /\
     QuantumCircuit.gates (QuantumCircuit.reset c) = QuantumCircuit.gates c /\
     QuantumCircuit.numQubits (QuantumCircuit.reset c)
     = QuantumCircuit.numQubits c) /\
  (forall (c1 c2 : QuantumCircuit.t) (rand : nat -> R) (k : nat) (shots : Z),
     (0 < shots)%Z ->
     QuantumCircuit.reset c1 = QuantumCircuit.reset c2 ->
     QuantumCircuit.run c1 rand k shots = QuantumCircuit.run c2 rand k shots) /\
  (forall (c : QuantumCircuit.t) (rand : nat -> R) (k : nat) (shots : Z),
     QuantumCircuit.gates c = [] ->
     QuantumCircuit.measurements c = [] ->
     QuantumState.amplitudes (QuantumCircuit.state c) <> [] ->
     exists (r : QuantumCircuit.RunResult) (c' : QuantumCircuit.t)
            (b : Z) (q : R),
       QuantumCircuit.run c rand k shots = Ok (r, c', k) /\
       QuantumCircuit.state c' = QuantumCircuit.state c /\
       QuantumCircuit.gates c' = [] /\
       QuantumCircuit.measurements c' = [] /\
       QuantumCircuit.numQubits c' = QuantumCircuit.numQubits c /\
       QuantumCircuit.mostProbable
         (QuantumState.amplitudes
            (QuantumState.clone (QuantumCircuit.state c))) 0 None
       = Some (b, q) /\
       ((shots <= 0)%Z ->
        c' = c /\
        r = QuantumCircuit.Aggregated
              (QuantumCircuit.mkAggregate None 0 [] [])) /\
       ((1 <= shots)%Z ->
        QuantumCircuit.executionHistory c'
        = [idleShot (QuantumCircuit.state c)]) /\
       (shots = 1%Z ->
        r = QuantumCircuit.SingleShot (idleShot (QuantumCircuit.state c))) /\
       ((2 <= shots)%Z ->
        r = QuantumCircuit.Aggregated
              (QuantumCircuit.mkAggregate
                 (Some (idleShot (QuantumCircuit.state c))) shots []
                 [(b, 1%R)])) /\
       (forall (k2 : nat) (shots2 : Z),
          exists (r2 : QuantumCircuit.RunResult) (c2 : QuantumCircuit.t),
            QuantumCircuit.run c' rand k2 shots2 = Ok (r2, c2, k2) /\
            QuantumCircuit.state c2 = QuantumCircuit.state c)).
Proof.
  assert (Hrun : forall (c : QuantumCircuit.t) (rand : nat -> R) (k : nat)
                        (shots : Z) (b : Z) (q : R),
    QuantumCircuit.gates c = [] ->
    QuantumCircuit.measurements c = [] ->
    QuantumCircuit.mostProbable
      (QuantumState.amplitudes
         (QuantumState.clone (QuantumCircuit.state c))) 0 None
    = Some (b, q) ->
    QuantumCircuit.run c rand k shots
    = Ok (match Z.to_nat shots with
          | O => QuantumCircuit.Aggregated
                   (QuantumCircuit.mkAggregate None 0 [] [])
          | Datatypes.S O =>
              QuantumCircuit.SingleShot (idleShot (QuantumCircuit.state c))
          | Datatypes.S (Datatypes.S _) =>
              QuantumCircuit.Aggregated
                (QuantumCircuit.mkAggregate
                   (Some (idleShot (QuantumCircuit.state c)))
                   (Z.of_nat (Z.to_nat shots)) [] [(b, 1%R)])
          end,
          match Z.to_nat shots with
          | O => c
          | Datatypes.S _ =>
              QuantumCircuit.mk (QuantumCircuit.numQubits c) [] []
                (QuantumCircuit.state c)
                [idleShot (QuantumCircuit.state c)]
          end,
          k)).
  { intros c rand k shots b q Hg Hm Hb.
    unfold QuantumCircuit.run, JS.for_range.
    rewrite (run_loop_idle rand) by (intros; reflexivity || assumption).
    cbn [bind app].
    rewrite (aggregate_idle _ _ b q _ Hb). reflexivity. }
  split; [| split].
  - intros c. unfold QuantumCircuit.reset. simpl.
    repeat split.
    + induction (QuantumCircuit.measurements c) as [| m ms IH]; simpl;
        constructor; [reflexivity | exact IH].
    + rewrite map_map. reflexivity.
  - intros c1 c2 rand k shots Hpos Hreset.
    unfold QuantumCircuit.run, JS.for_range.
    destruct (Z.to_nat shots) as [| n] eqn:Hn; [lia |].
    cbn [JS.for_from]. rewrite Hreset. reflexivity.
  - intros c rand k shots Hg Hm Hne.
    destruct (mostProbable_nonempty _ (clone_amplitudes_nonempty _ Hne))
      as [[b q] Hb].
    pose proof (Hrun c rand k shots b q Hg Hm Hb) as Hr.
    eexists. eexists. exists b, q.
    split; [exact Hr |].
    split; [destruct (Z.to_nat shots); reflexivity |].
    split; [destruct (Z.to_nat shots); [exact Hg | reflexivity] |].
    split; [destruct (Z.to_nat shots); [exact Hm | reflexivity] |].
    split; [destruct (Z.to_nat shots); reflexivity |].
    split; [exact Hb |].
    split.
    { intros H0. replace (Z.to_nat shots) with 0%nat by lia.
      split; reflexivity. }
    split.
    { intros H1. destruct (Z.to_nat shots) eqn:Hn; [lia | reflexivity]. }
    split.
    { intros H1. subst shots. reflexivity. }
    split.
    { intros H2. destruct (Z.to_nat shots) as [| [| n]] eqn:Hn; [lia | lia |].
      rewrite <- Hn. rewrite Z2Nat.id by lia. reflexivity. }
    intros k2 shots2.
    set (c' := match Z.to_nat shots with
               | O => c
               | Datatypes.S _ =>
                   QuantumCircuit.mk (QuantumCircuit.numQubits c) [] []
                     (QuantumCircuit.state c)
                     [idleShot (QuantumCircuit.state c)]
               end).
    assert (Hs' : QuantumCircuit.state c' = QuantumCircuit.state c)
      by (unfold c'; destruct (Z.to_nat shots); reflexivity).
    assert (Hg' : QuantumCircuit.gates c' = [])
      by (unfold c'; destruct (Z.to_nat shots); [exact Hg | reflexivity]).
    assert (Hm' : QuantumCircuit.measurements c' = [])
      by (unfold c'; destruct (Z.to_nat shots); [exact Hm | reflexivity]).
    assert (Hb' : QuantumCircuit.mostProbable
                    (QuantumState.amplitudes
                       (QuantumState.clone (QuantumCircuit.state c'))) 0 None
                  = Some (b, q)) by (rewrite Hs'; exact Hb).
    rewrite (Hrun c' rand k2 shots2 b q Hg' Hm' Hb').
    eexists. eexists. split; [reflexivity |].
    destruct (Z.to_nat shots2); [exact Hs' | exact Hs'].
Qed.

(** Three shots of [usedCircuit], whose register is not the basis state 0
    and whose history holds the record of an earlier shot: the register is
    left as it is and the earlier record is gone from the history. *)
Lemma run_preserves_input_state_witness :
  exists (r : QuantumCircuit.RunResult) (c' : QuantumCircuit.t),
    QuantumCircuit.run usedCircuit (fun _ => (1 / 2)%R) 0%nat 3%Z
    = Ok (r, c', 0%nat) /\
    QuantumCircuit.state c' = QuantumCircuit.state usedCircuit /\
    QuantumCircuit.state c' <> QuantumState.new_ 1 /\
    QuantumCircuit.executionHistory usedCircuit
    = [idleShot (QuantumState.new_ 1)] /\
    QuantumCircuit.executionHistory c'
    = [idleShot (QuantumCircuit.state usedCircuit)].
Proof.
  destruct run_preserves_input_state as [_ [_ Hrun]].
  destruct (Hrun usedCircuit (fun _ => (1 / 2)%R) 0%nat 3%Z)
    as [r [c' [b [q [Hr [Hs [_ [_ [_ [_ [_ [Hh _]]]]]]]]]]]].
  - reflexivity.
  - reflexivity.
  - simpl. discriminate.
  - exists r, c'. split; [exact Hr |]. split; [exact Hs |].
    split; [| split; [reflexivity | apply Hh; lia]].
    rewrite Hs. unfold usedCircuit, QuantumState.new_. intros H.
    apply (f_equal QuantumState.amplitudes) in H.
    apply (f_equal (fun l => nth 0 l Complex.zero)) in H.
    apply (f_equal Complex.real) in H.
    cbv -[Rdiv Rmult Rplus Rminus Ropp IZR Rinv] in H. lra.
Defined.

(** * The classical AND and OR pseudo-gates *)

Lemma aget_app_head : forall (A : Type) (pre suf : list A) (a : A),
  JS.aget (pre ++ a :: suf) (Z.of_nat (List.length pre)) = Ok a.
Proof.
  intros A pre suf a. unfold JS.aget.
  destruct (Z.ltb_spec (Z.of_nat (List.length pre)) 0); [lia |].
  rewrite Nat2Z.id, nth_error_app2 by lia.
  rewrite Nat.sub_diag. reflexivity.
Qed.

Lemma for_from_over_list :
  forall (A S : Type) (l : list A) (body : Z -> S -> result S)
         (g : Z -> A -> S -> result S),
    (forall i a s, JS.aget l i = Ok a -> body i s = g i a s) ->
    forall (suf pre : list A) (s : S),
      l = pre ++ suf ->
      JS.for_from (List.length suf) (Z.of_nat (List.length pre)) body s
      = foldIndexed g suf (Z.of_nat (List.length pre)) s.
Proof.
  intros A S l body g Hbody suf.
  induction suf as [| a rest IH]; intros pre s Hl.
  - reflexivity.
  - simpl. rewrite (Hbody _ a s) by (subst l; apply aget_app_head).
    destruct (g (Z.of_nat (List.length pre)) a s) as [s' | e]; simpl;
      [| reflexivity].
    specialize (IH (pre ++ [a]) s').
    rewrite length_app in IH. simpl in IH.
    replace (Z.of_nat (List.length pre + 1)) with (Z.of_nat (List.length pre) + 1)%Z
      in IH by lia.
    apply IH. subst l. rewrite <- app_assoc. reflexivity.
Qed.

Lemma for_range_over_list :
  forall (A S : Type) (l : list A) (body : Z -> S -> result S)
         (g : Z -> A -> S -> result S) (n : Z) (s : S),
    (forall i a s, JS.aget l i = Ok a -> body i s = g i a s) ->
    JS.alength l = n ->
    JS.for_range n body s = foldIndexed g l 0 s.
Proof.
  intros A S l body g n s Hbody Hn.
  unfold JS.for_range. unfold JS.alength in Hn.
  rewrite <- Hn, Nat2Z.id.
  apply (for_from_over_list A S l body g Hbody l [] s). reflexivity.
Qed.

Lemma findBasisState_found : forall amps i s,
  (0 <= s)%Z ->
  foldIndexed
    (fun i a stateIndex =>
       if (0 <=? stateIndex)%Z then Ok stateIndex
       else if Rlt_dec 0.9 (Complex.magnitude a) then Ok i else Ok stateIndex)
    amps i s = Ok s.
Proof.
  induction amps as [| a rest IH]; intros i s Hs; simpl.
  - reflexivity.
  - destruct (Z.leb_spec 0 s); [| lia]. simpl. apply IH. exact Hs.
Qed.

Lemma findBasisState_scan : forall amps i,
  (0 <= i)%Z ->
  foldIndexed
    (fun i a stateIndex =>
       if (0 <=? stateIndex)%Z then Ok stateIndex
       else if Rlt_dec 0.9 (Complex.magnitude a) then Ok i else Ok stateIndex)
    amps i (-1)%Z
  = Ok (match firstDominant amps i with Some j => j | None => (-1)%Z end).
Proof.
  induction amps as [| a rest IH]; intros i Hi; simpl.
  - reflexivity.
  - destruct (Rlt_dec 0.9 (Complex.magnitude a)); simpl.
    + apply findBasisState_found. lia.
    + apply IH. lia.
Qed.

Lemma findBasisState_spec : forall d amps,
  JS.alength amps = d ->
  QuantumCircuit.findBasisState d amps
  = Ok (match firstDominant amps 0 with Some j => j | None => (-1)%Z end).
Proof.
  intros d amps Hlen. unfold QuantumCircuit.findBasisState.
  rewrite (for_range_over_list _ _ amps _
             (fun i a stateIndex =>
                if (0 <=? stateIndex)%Z then Ok stateIndex
                else if Rlt_dec 0.9 (Complex.magnitude a) then Ok i
                     else Ok stateIndex) d (-1)%Z).
  - apply findBasisState_scan. lia.
  - intros i a s Ha. rewrite Ha. reflexivity.
  - exact Hlen.
Qed.

Lemma firstDominant_range : forall amps i j,
  firstDominant amps i = Some j ->
  (i <= j < i + Z.of_nat (List.length amps))%Z.
Proof.
  induction amps as [| a rest IH]; intros i j H; simpl in H.
  - discriminate.
  - destruct (Rlt_dec 0.9 (Complex.magnitude a)).
    + inversion H; subst. simpl. lia.
    + apply IH in H. simpl List.length. lia.
Qed.

Lemma band_1_bit : forall x, JS.band x 1 = 0%Z \/ JS.band x 1 = 1%Z.
Proof.
  intros x. unfold JS.band.
  change (JS.ToInt32 1) with (Z.ones 1).
  rewrite Z.land_ones by lia.
  pose proof (Z.mod_pos_bound (JS.ToInt32 x) (2 ^ 1) ltac:(lia)). lia.
Qed.

Lemma shl_bit : forall r s,
  (r = 0 \/ r = 1)%Z -> (0 <= s <= 30)%Z -> JS.shl r s = (r * 2 ^ s)%Z.
Proof.
  intros r s Hr Hs. unfold JS.shl.
  assert (Hp : (0 < 2 ^ s <= 2 ^ 30)%Z).
  { split; [apply Z.pow_pos_nonneg; lia | apply Z.pow_le_mono_r; lia]. }
  rewrite (ToInt32_small r) by (destruct Hr; subst; lia).
  rewrite Z.mod_small by lia.
  rewrite Z.shiftl_mul_pow2 by lia.
  apply ToInt32_small. destruct Hr; subst; lia.
Qed.

Lemma bits_below_pow2 : forall x n,
  (0 <= n)%Z ->
  (forall j, (n <= j)%Z -> Z.testbit x j = false) ->
  (0 <= x < 2 ^ n)%Z.
Proof.
  intros x n Hn Hbits.
  assert (Hx : x = (x mod 2 ^ n)%Z).
  { apply Z.bits_inj'. intros j Hj.
    rewrite Z.testbit_mod_pow2 by lia.
    destruct (Z.ltb_spec j n); simpl; [reflexivity | apply Hbits; lia]. }
  rewrite Hx. apply Z.mod_pos_bound. apply Z.pow_pos_nonneg; lia.
Qed.

Lemma bits_above_pow2 : forall x n j,
  (0 <= x < 2 ^ n)%Z -> (0 <= n <= j)%Z -> Z.testbit x j = false.
Proof.
  intros x n j Hx Hj.
  rewrite <- (Z.mod_small x (2 ^ n)) by lia.
  apply Z.mod_pow2_bits_high. lia.
Qed.

Lemma target_bits : forall idx s r j,
  (0 <= s)%Z -> (r = 0 \/ r = 1)%Z -> (0 <= j)%Z ->
  Z.testbit (Z.lor (Z.ldiff idx (2 ^ s)) (r * 2 ^ s)) j
  = if (j =? s)%Z then (r =? 1)%Z else Z.testbit idx j.
Proof.
  intros idx s r j Hs Hr Hj.
  rewrite Z.lor_spec, Z.ldiff_spec, Z.pow2_bits_eqb by lia.
  rewrite (Z.eqb_sym s j).
  destruct (Z.eqb_spec j s) as [-> | Hne].
  - rewrite andb_false_r. simpl.
    destruct Hr as [-> | ->].
    + rewrite Z.mul_0_l. apply Z.testbit_0_l.
    + rewrite Z.mul_1_l. apply Z.pow2_bits_true. lia.
  - rewrite andb_true_r.
    destruct Hr as [-> | ->].
    + simpl. rewrite Z.testbit_0_l. apply orb_false_r.
    + rewrite Z.mul_1_l, Z.pow2_bits_false by lia. apply orb_false_r.
Qed.

Lemma target_code : forall n idx out r,
  (0 <= n <= 31)%Z -> (0 <= idx < 2 ^ n)%Z -> (0 <= out < n)%Z ->
  (r = 0 \/ r = 1)%Z ->
  JS.bor (JS.band idx (JS.bnot (JS.shl 1 (n - 1 - out))))
         (JS.shl r (n - 1 - out))
  = Z.lor (Z.ldiff idx (2 ^ (n - 1 - out))) (r * 2 ^ (n - 1 - out)).
Proof.
  intros n idx out r Hn Hidx Hout Hr.
  pose proof (pow2_le_31 n Hn) as Hp.
  set (s := (n - 1 - out)%Z).
  assert (Hs : (0 <= s <= 30)%Z) by (unfold s; lia).
  assert (Hps : (0 < 2 ^ s <= 2 ^ 30)%Z).
  { split; [apply Z.pow_pos_nonneg; lia | apply Z.pow_le_mono_r; lia]. }
  rewrite !shl_bit by (auto; lia). rewrite Z.mul_1_l.
  unfold JS.bor, JS.band, JS.bnot.
  rewrite (ToInt32_small (2 ^ s)) by lia.
  rewrite (ToInt32_small idx) by lia.
  rewrite (ToInt32_small (Z.lnot (2 ^ s))) by (unfold Z.lnot; lia).
  rewrite <- Z.ldiff_land.
  assert (Hl : (0 <= Z.ldiff idx (2 ^ s) < 2 ^ n)%Z).
  { apply bits_below_pow2; [lia |].
    intros j Hj. rewrite Z.ldiff_spec.
    rewrite (bits_above_pow2 idx n j) by lia. reflexivity. }
  rewrite (ToInt32_small (Z.ldiff idx (2 ^ s))) by lia.
  rewrite (ToInt32_small (r * 2 ^ s)) by (destruct Hr; subst; lia).
  reflexivity.
Qed.

Lemma list_set_repeat : forall (A : Type) (z v : A) (n t off : nat),
  (t < n)%nat ->
  JS.list_set (repeat z n) t v
  = map (fun i => if (i =? off + t)%nat then v else z) (seq off n).
Proof.
  intros A z v n. induction n as [| n IH]; intros t off Ht; [lia |].
  simpl. destruct t as [| t].
  - rewrite Nat.add_0_r, Nat.eqb_refl. f_equal.
    clear IH Ht. generalize (Datatypes.S off) (Nat.lt_succ_diag_r off).
    induction n as [| n IH]; intros k Hk; simpl; [reflexivity |].
    destruct (Nat.eqb_spec k off); [lia |]. f_equal. apply IH. lia.
  - destruct (Nat.eqb_spec off (off + Datatypes.S t)); [lia |]. f_equal.
    rewrite (IH t (Datatypes.S off)) by lia.
    apply map_ext. intros i.
    replace (Datatypes.S off + t)%nat with (off + Datatypes.S t)%nat by lia.
    reflexivity.
Qed.

Lemma aset_afill_basis : forall d t,
  (0 <= t < d)%Z ->
  JS.aset (JS.afill d Complex.zero) t (Complex.mk 1 0) = basisState d t.
Proof.
  intros d t Ht. unfold JS.aset, JS.afill, basisState, JS.arange.
  destruct (Z.ltb_spec t 0); [lia |].
  rewrite (list_set_repeat _ _ _ _ _ 0%nat) by lia.
  rewrite map_map. apply map_ext_in. intros i Hi. simpl.
  destruct (Nat.eqb_spec i (Z.to_nat t)); destruct (Z.eqb_spec (Z.of_nat i) t);
    try reflexivity; lia.
Qed.

Lemma squaredNorm_basis_aux : forall t (l : list Z),
  NoDup l ->
  squaredNorm
    (map (fun i => if (i =? t)%Z then Complex.mk 1 0 else Complex.mk 0 0) l)
  = if existsb (Z.eqb t) l then 1%R else 0%R.
Proof.
  intros t l Hnd. induction Hnd as [| x l Hnotin Hnd IH]; simpl.
  - reflexivity.
  - rewrite IH. rewrite (Z.eqb_sym t x).
    destruct (Z.eqb_spec x t) as [-> | Hne]; simpl.
    + destruct (existsb (Z.eqb t) l) eqn:E.
      * apply existsb_exists in E. destruct E as [y [Hy Hty]].
        apply Z.eqb_eq in Hty. subst y. contradiction.
      * lra.
    + destruct (existsb (Z.eqb t) l); lra.
Qed.

Lemma arange_NoDup : forall d, NoDup (JS.arange d).
Proof.
  intros d. unfold JS.arange.
  apply NoDup_map_NoDup_ForallPairs; [| apply seq_NoDup].
  intros x y _ _. apply Nat2Z.inj.
Qed.

Lemma arange_In : forall d i, In i (JS.arange d) <-> (0 <= i < d)%Z.
Proof.
  intros d i. unfold JS.arange. rewrite in_map_iff. split.
  - intros [k [<- Hk]]. apply in_seq in Hk. lia.
  - intros Hi. exists (Z.to_nat i). split; [lia | apply in_seq; lia].
Qed.

Lemma squaredNorm_basisState : forall d t,
  (0 <= t < d)%Z -> squaredNorm (basisState d t) = 1%R.
Proof.
  intros d t Ht. unfold basisState.
  rewrite squaredNorm_basis_aux by apply arange_NoDup.
  destruct (existsb (Z.eqb t) (JS.arange d)) eqn:E; [reflexivity |].
  assert (Hin : In t (JS.arange d)) by (apply arange_In; exact Ht).
  assert (Hex : existsb (Z.eqb t) (JS.arange d) = true).
  { apply existsb_exists. exists t. split; [exact Hin | apply Z.eqb_refl]. }
  congruence.
Qed.

Lemma qubitBit_testbit : forall n q i,
  (0 <= q < n)%Z -> qubitBit n q i = Z.b2z (Z.testbit i (n - 1 - q)).
Proof.
  intros n q i Hq. unfold qubitBit. rewrite Z.testbit_spec' by lia. reflexivity.
Qed.

Lemma writeLogicResult_spec :
  forall (op : Z -> Z -> Z) (n idx : Z) (in1 in2 : option Z) (out : Z),
    (forall b1 b2, (b1 = 0 \/ b1 = 1)%Z -> (b2 = 0 \/ b2 = 1)%Z ->
                   (op b1 b2 = 0 \/ op b1 b2 = 1)%Z) ->
    (0 <= n <= 31)%Z -> (0 <= idx < 2 ^ n)%Z -> (0 <= out < n)%Z ->
    let r := op (JS.band (JS.shr idx (QuantumCircuit.shiftFor n in1)) 1)
                (JS.band (JS.shr idx (QuantumCircuit.shiftFor n in2)) 1) in
    exists target : Z,
      (0 <= target < 2 ^ n)%Z /\
      QuantumCircuit.writeLogicResult op n (2 ^ n) idx in1 in2 out
      = basisState (2 ^ n) target /\
      qubitBit n out target = r /\
      (forall q, (0 <= q < n)%Z -> q <> out ->
                 qubitBit n q target = qubitBit n q idx).
Proof.
  intros op n idx in1 in2 out Hop Hn Hidx Hout r.
  assert (Hr : (r = 0 \/ r = 1)%Z) by (apply Hop; apply band_1_bit).
  set (s := (n - 1 - out)%Z).
  exists (Z.lor (Z.ldiff idx (2 ^ s)) (r * 2 ^ s)).
  assert (Hbits : forall j, (0 <= j)%Z ->
            Z.testbit (Z.lor (Z.ldiff idx (2 ^ s)) (r * 2 ^ s)) j
            = if (j =? s)%Z then (r =? 1)%Z else Z.testbit idx j).
  { intros j Hj. apply target_bits; [unfold s; lia | exact Hr | exact Hj]. }
  assert (Hrange : (0 <= Z.lor (Z.ldiff idx (2 ^ s)) (r * 2 ^ s) < 2 ^ n)%Z).
  { apply bits_below_pow2; [lia |].
    intros j Hj. rewrite Hbits by lia.
    destruct (Z.eqb_spec j s); [unfold s in *; lia |].
    apply (bits_above_pow2 idx n j); lia. }
  split; [exact Hrange |]. split; [| split].
  - unfold QuantumCircuit.writeLogicResult. fold r.
    rewrite (target_code n idx out r Hn Hidx Hout Hr). fold s.
    apply aset_afill_basis. exact Hrange.
  - rewrite qubitBit_testbit by lia. fold s.
    rewrite Hbits by (unfold s; lia). rewrite Z.eqb_refl.
    destruct Hr as [-> | ->]; reflexivity.
  - intros q Hq Hne. rewrite !qubitBit_testbit by lia.
    rewrite Hbits by lia.
    destruct (Z.eqb_spec (n - 1 - q) s); [unfold s in *; lia | reflexivity].
Qed.

Lemma band_bits : forall b1 b2,
  (b1 = 0 \/ b1 = 1)%Z -> (b2 = 0 \/ b2 = 1)%Z ->
  JS.band b1 b2 = (b1 * b2)%Z.
Proof. intros b1 b2 [-> | ->] [-> | ->]; reflexivity. Qed.

Lemma bor_bits : forall b1 b2,
  (b1 = 0 \/ b1 = 1)%Z -> (b2 = 0 \/ b2 = 1)%Z ->
  JS.bor b1 b2 = Z.max b1 b2.
Proof. intros b1 b2 [-> | ->] [-> | ->]; reflexivity. Qed.

(** C10: when the AND or the OR pseudo-gate finds a dominant basis index
    (the first index whose amplitude has magnitude above 0.9), the register
    it leaves is exactly a basis state: amplitude (1, 0) at the target index,
    (0, 0) at every other index, of squared norm exactly 1, whatever phase,
    magnitude or residue the register had.  The target index agrees with the
    dominant index on every qubit but the output qubit, whose bit is the
    conjunction (AND) or disjunction (OR) of the two input qubits' bits. *)
Theorem classical_logic_gate_basis_state :
  forall (c : QuantumCircuit.t) (name : string) (inputQubits : list Z)
         (outputQubit : Z) (position : option R) (stateIndex : Z),
    (name = "AND" \/ name = "OR")%string ->
    wellFormedState (QuantumCircuit.state c) ->
    (0 <= outputQubit < QuantumState.numQubits (QuantumCircuit.state c))%Z ->
    firstDominant (QuantumState.amplitudes (QuantumCircuit.state c)) 0
    = Some stateIndex ->
    exists (c' : QuantumCircuit.t) (targetIndex : Z),
      QuantumCircuit.applyClassicalGate c
        (QuantumCircuit.Classical name inputQubits outputQubit position)
      = Ok c' /\
      (0 <= targetIndex
       < 2 ^ QuantumState.numQubits (QuantumCircuit.state c))%Z /\
      QuantumState.amplitudes (QuantumCircuit.state c')
      = basisState (2 ^ QuantumState.numQubits (QuantumCircuit.state c))
                   targetIndex /\
      squaredNorm (QuantumState.amplitudes (QuantumCircuit.state c')) = 1%R /\
      (forall q,
         (0 <= q < QuantumState.numQubits (QuantumCircuit.state c))%Z ->
         q <> outputQubit ->
         qubitBit (QuantumState.numQubits (QuantumCircuit.state c)) q targetIndex
         = qubitBit (QuantumState.numQubits (QuantumCircuit.state c)) q stateIndex) /\
      (forall q1 q2,
         inputQubits = [q1; q2] ->
         (0 <= q1 < QuantumState.numQubits (QuantumCircuit.state c))%Z ->
         (0 <= q2 < QuantumState.numQubits (QuantumCircuit.state c))%Z ->
         qubitBit (QuantumState.numQubits (QuantumCircuit.state c))
                  outputQubit targetIndex
         = let b1 := qubitBit (QuantumState.numQubits (QuantumCircuit.state c))
                              q1 stateIndex in
           let b2 := qubitBit (QuantumState.numQubits (QuantumCircuit.state c))
                              q2 stateIndex in
           if String.eqb name "AND" then (b1 * b2)%Z else Z.max b1 b2).
Proof.
  intros c name inputQubits outputQubit position stateIndex Hname
         [Hn [Hdim Hlen]] Hout Hfirst.
  set (n := QuantumState.numQubits (QuantumCircuit.state c)) in *.
  assert (Hidx : (0 <= stateIndex < 2 ^ n)%Z).
  { apply firstDominant_range in Hfirst.
    unfold JS.alength in Hlen. lia. }
  assert (Hfind : QuantumCircuit.findBasisState (2 ^ n)
                    (QuantumState.amplitudes (QuantumCircuit.state c))
                  = Ok stateIndex).
  { rewrite (findBasisState_spec (2 ^ n)) by congruence.
    rewrite Hfirst. reflexivity. }
  assert (Hgen : forall op,
            (forall b1 b2, (b1 = 0 \/ b1 = 1)%Z -> (b2 = 0 \/ b2 = 1)%Z ->
                           (op b1 b2 = 0 \/ op b1 b2 = 1)%Z) ->
            forall spec : Z -> Z -> Z,
            (forall b1 b2, (b1 = 0 \/ b1 = 1)%Z -> (b2 = 0 \/ b2 = 1)%Z ->
                           op b1 b2 = spec b1 b2) ->
            exists targetIndex,
              (0 <= targetIndex < 2 ^ n)%Z /\
              QuantumCircuit.writeLogicResult op n (2 ^ n) stateIndex
                (nth_error inputQubits 0) (nth_error inputQubits 1) outputQubit
              = basisState (2 ^ n) targetIndex /\
              (forall q, (0 <= q < n)%Z -> q <> outputQubit ->
                 qubitBit n q targetIndex = qubitBit n q stateIndex) /\
              (forall q1 q2, inputQubits = [q1; q2] ->
                 (0 <= q1 < n)%Z -> (0 <= q2 < n)%Z ->
                 qubitBit n outputQubit targetIndex
                 = spec (qubitBit n q1 stateIndex) (qubitBit n q2 stateIndex))).
  { intros op Hop spec Hspec.
    destruct (writeLogicResult_spec op n stateIndex
                (nth_error inputQubits 0) (nth_error inputQubits 1)
                outputQubit Hop Hn Hidx Hout)
      as [target [Hrange [Hwrite [Hbit Hother]]]].
    exists target. repeat split; try assumption; try lia.
    intros q1 q2 -> Hq1 Hq2. rewrite Hbit. simpl.
    change (JS.band (JS.shr stateIndex (n - 1 - q1)) 1)
      with (QuantumState.bitOf n stateIndex q1).
    change (JS.band (JS.shr stateIndex (n - 1 - q2)) 1)
      with (QuantumState.bitOf n stateIndex q2).
    rewrite !bitOf_qubitBit by assumption.
    apply Hspec.
    - pose proof (qubitBit_range n q1 stateIndex). lia.
    - pose proof (qubitBit_range n q2 stateIndex). lia. }
  destruct Hname as [-> | ->].
  - destruct (Hgen JS.band) with (spec := Z.mul)
      as [target [Hrange [Hwrite [Hother Hbit]]]].
    + intros b1 b2 [-> | ->] [-> | ->]; vm_compute; auto.
    + apply band_bits.
    + eexists. exists target.
      unfold QuantumCircuit.applyClassicalGate. fold n. simpl String.eqb. cbv iota.
      rewrite Hfind. simpl bind.
      destruct (Z.leb_spec 0 stateIndex); [| lia].
      split; [reflexivity |].
      split; [exact Hrange |].
      unfold QuantumCircuit.with_state, QuantumState.with_amplitudes.
      cbn [QuantumCircuit.state QuantumState.amplitudes].
      cbn [nth_error] in Hwrite. rewrite Hwrite.
      split; [reflexivity |].
      split; [apply squaredNorm_basisState; exact Hrange |].
      split; [exact Hother | exact Hbit].
  - destruct (Hgen JS.bor) with (spec := Z.max)
      as [target [Hrange [Hwrite [Hother Hbit]]]].
    + intros b1 b2 [-> | ->] [-> | ->]; vm_compute; auto.
    + apply bor_bits.
    + eexists. exists target.
      unfold QuantumCircuit.applyClassicalGate. fold n. simpl String.eqb. cbv iota.
      rewrite Hfind. simpl bind.
      destruct (Z.leb_spec 0 stateIndex); [| lia].
      split; [reflexivity |].
      split; [exact Hrange |].
      unfold QuantumCircuit.with_state, QuantumState.with_amplitudes.
      cbn [QuantumCircuit.state QuantumState.amplitudes].
      cbn [nth_error] in Hwrite. rewrite Hwrite.
      split; [reflexivity |].
      split; [apply squaredNorm_basisState; exact Hrange |].
      split; [exact Hother | exact Hbit].
Qed.

Lemma magnitude_one_dominant : (0.9 < Complex.magnitude (Complex.mk 1 0))%R.
Proof.
  unfold Complex.magnitude. simpl.
  replace (1 * 1 + 0 * 0)%R with 1%R by lra.
  rewrite sqrt_1. lra.
Qed.

Lemma classical_logic_gate_basis_state_witness :
  exists (c' : QuantumCircuit.t) (targetIndex : Z),
    QuantumCircuit.applyClassicalGate (QuantumCircuit.new_ 2)
      (QuantumCircuit.Classical "AND" [0; 1]%Z 1%Z None) = Ok c' /\
    QuantumState.amplitudes (QuantumCircuit.state c')
    = basisState (2 ^ 2) targetIndex.
Proof.
  destruct (classical_logic_gate_basis_state (QuantumCircuit.new_ 2)
              "AND" [0; 1]%Z 1%Z None 0%Z)
    as [c' [t [Happly [_ [Hamps _]]]]].
  - left. reflexivity.
  - unfold wellFormedState. simpl. repeat split; try lia; reflexivity.
  - simpl. lia.
  - simpl. destruct (Rlt_dec 0.9 (Complex.magnitude Complex.one)) as [_ | Hn].
    + reflexivity.
    + exfalso. apply Hn. apply magnitude_one_dominant.
  - exists c', t. split; [exact Happly | exact Hamps].
Defined.

(** * Insertion of a gate at a timeline position *)

Lemma includes_In : forall l x, JS.includes l x = true <-> In x l.
Proof.
  intros l x. unfold JS.includes. rewrite existsb_exists. split.
  - intros [y [Hy Hxy]]. apply Z.eqb_eq in Hxy. subst. exact Hy.
  - intros H. exists x. split; [exact H | apply Z.eqb_refl].
Qed.

Lemma sharesQubit_code : forall targets g,
  existsb (fun q => JS.includes targets q) (QuantumCircuit.existingGateQubits g)
  = true <-> sharesQubit targets g.
Proof.
  intros targets g. unfold sharesQubit. rewrite existsb_exists.
  split; intros [q [Hq Ht]]; exists q; (split; [exact Hq |]);
    apply includes_In; exact Ht.
Qed.

(** The scan of [addGate] from list index [i] on: when it reaches a gate of
    position at or after [p] having passed only gates that share no qubit
    with the targets, [insertIndex] is still what it was at the start. *)
Lemma insertionScan_break :
  forall (p : R) (targets : list Z) (gs : list QuantumCircuit.Gate)
         (i : nat) (ins : Z) (stop : nat) (g : QuantumCircuit.Gate),
    nth_error gs stop = Some g ->
    (QuantumCircuit.existingPosition g (Z.of_nat (i + stop)) >= p)%R ->
    (forall j g', (j < stop)%nat -> nth_error gs j = Some g' ->
       (QuantumCircuit.existingPosition g' (Z.of_nat (i + j)) < p)%R /\
       ~ sharesQubit targets g') ->
    QuantumCircuit.insertionScan p targets gs (Z.of_nat i) ins = ins.
Proof.
  intros p targets gs.
  induction gs as [| g0 rest IH]; intros i ins stop g Hnth Hge Hbefore.
  - destruct stop; discriminate.
  - cbn [QuantumCircuit.insertionScan]. cbv zeta.
    destruct stop as [| stop]; cbn [nth_error] in Hnth.
    + inversion Hnth; subst g0. rewrite Nat.add_0_r in Hge.
      destruct (Rlt_dec (QuantumCircuit.existingPosition g (Z.of_nat i)) p)
        as [Hlt | _]; [lra |].
      rewrite andb_false_r.
      destruct (Rge_dec (QuantumCircuit.existingPosition g (Z.of_nat i)) p);
        [reflexivity | contradiction].
    + destruct (Hbefore 0%nat g0) as [Hlt Hns]; [lia | reflexivity |].
      rewrite Nat.add_0_r in Hlt.
      assert (Hsh : existsb (fun q => JS.includes targets q)
                      (QuantumCircuit.existingGateQubits g0) = false).
      { destruct (existsb (fun q => JS.includes targets q)
                    (QuantumCircuit.existingGateQubits g0)) eqn:E;
          [| reflexivity].
        exfalso. apply Hns. apply sharesQubit_code. exact E. }
      rewrite Hsh. cbn [andb].
      destruct (Rge_dec (QuantumCircuit.existingPosition g0 (Z.of_nat i)) p);
        [lra |].
      replace (Z.of_nat i + 1)%Z with (Z.of_nat (Datatypes.S i)) by lia.
      apply (IH (Datatypes.S i) ins stop g Hnth).
      * replace (Datatypes.S i + stop)%nat with (i + Datatypes.S stop)%nat
          by lia.
        exact Hge.
      * intros j g' Hj Hg'.
        replace (Datatypes.S i + j)%nat with (i + Datatypes.S j)%nat by lia.
        apply (Hbefore (Datatypes.S j) g'); [lia | exact Hg'].
Qed.

(** C6: the insertion point the code computes where the claim is not met.
    The scan of [addGate] leaves [insertIndex] at [gates.length] until it
    passes a gate that shares a target qubit, and its [break] does not set
    it.  So when the first gate whose position is at or after the requested
    one (list index [stop]) is reached and no gate before it shares a
    target qubit, the new gate is appended at the end of the queue, behind
    that gate and all that follow it, whether or not they act on the same
    qubits; the claim has it in front of that gate. *)
Theorem addGate_behind_later_gate :
  forall (c c' : QuantumCircuit.t) (name : string) (targets : list Z)
         (params : QuantumCircuit.Params) (p : R) (stop : nat)
         (g : QuantumCircuit.Gate),
    QuantumCircuit.addGate c name targets params = Ok c' ->
    QuantumCircuit.positionOf params = Some p ->
    nth_error (QuantumCircuit.gates c) stop = Some g ->
    (QuantumCircuit.existingPosition g (Z.of_nat stop) >= p)%R ->
    (forall j g', (j < stop)%nat ->
       nth_error (QuantumCircuit.gates c) j = Some g' ->
       (QuantumCircuit.existingPosition g' (Z.of_nat j) < p)%R /\
       ~ sharesQubit targets g') ->
    exists matrix : Matrix.t,
      QuantumGates.getGate name (QuantumCircuit.values params) = Ok matrix /\
      QuantumCircuit.gates c'
      = QuantumCircuit.gates c
        ++ [QuantumCircuit.Quantum name targets (Some params) (Some matrix)] /\
      (stop < List.length (QuantumCircuit.gates c))%nat.
Proof.
  intros c c' name targets params p stop g Hadd Hp Hnth Hge Hbefore.
  unfold QuantumCircuit.addGate in Hadd.
  destruct (QuantumGates.getGateInfo name) as [info |]; [| discriminate].
  destruct (negb (JS.alength targets =? QuantumGates.qubits info)%Z);
    [discriminate |].
  destruct (existsb _ targets); [discriminate |].
  destruct (QuantumGates.getGate name (QuantumCircuit.values params))
    as [matrix | e]; [| discriminate].
  cbn [bind] in Hadd. cbv zeta in Hadd. rewrite Hp in Hadd.
  exists matrix. split; [reflexivity |].
  change 0%Z with (Z.of_nat 0) in Hadd.
  rewrite (insertionScan_break p targets (QuantumCircuit.gates c) 0
             (JS.alength (QuantumCircuit.gates c)) stop g Hnth Hge Hbefore)
    in Hadd.
  inversion Hadd as [Hc']. cbn [QuantumCircuit.gates QuantumCircuit.with_gates].
  split.
  - unfold QuantumCircuit.splice, JS.alength. rewrite Nat2Z.id.
    rewrite firstn_all, skipn_all. reflexivity.
  - apply nth_error_Some. rewrite Hnth. discriminate.
Qed.

(** The failing input: on a circuit of two qubits,
    [addGate('CNOT', [0, 1], {position: 5})] and then
    [addGate('X', [0], {position: 2})].  The scan stops at the CNOT gate,
    whose position 5 is not below 2, and the Pauli-X gate requested at
    position 2 is queued behind it, on the qubit they share. *)
Lemma addGate_behind_later_gate_witness :
  exists (c1 c2 : QuantumCircuit.t) (cnot x : QuantumCircuit.Gate),
    QuantumCircuit.addGate (QuantumCircuit.new_ 2) "CNOT" [0%Z; 1%Z]
      [("position"%string, 5%R)] = Ok c1 /\
    QuantumCircuit.addGate c1 "X" [0%Z] [("position"%string, 2%R)] = Ok c2 /\
    QuantumCircuit.gates c1 = [cnot] /\
    QuantumCircuit.gates c2 = [cnot; x] /\
    QuantumCircuit.gateName cnot = "CNOT"%string /\
    QuantumCircuit.existingGateQubits cnot = [0%Z; 1%Z] /\
    QuantumCircuit.existingPosition cnot 0 = 5%R /\
    QuantumCircuit.gateName x = "X"%string /\
    QuantumCircuit.existingGateQubits x = [0%Z] /\
    QuantumCircuit.existingPosition x 1 = 2%R.
Proof.
  assert (H5 : QuantumCircuit.orElse (Some 5%R) (IZR 0) = 5%R).
  { unfold QuantumCircuit.orElse. destruct (Req_dec_T 5 0); [lra | reflexivity]. }
  assert (H2 : QuantumCircuit.orElse (Some 2%R) (IZR 1) = 2%R).
  { unfold QuantumCircuit.orElse. destruct (Req_dec_T 2 0); [lra | reflexivity]. }
  destruct QuantumGates.CNOT as [mc | e] eqn:Hcnot; [| discriminate].
  set (cnot := QuantumCircuit.Quantum "CNOT" [0%Z; 1%Z]
                 (Some [("position"%string, 5%R)]) (Some mc)).
  set (c1 := QuantumCircuit.with_gates (QuantumCircuit.new_ 2) [cnot]).
  assert (Hadd1 : QuantumCircuit.addGate (QuantumCircuit.new_ 2) "CNOT"
                    [0%Z; 1%Z] [("position"%string, 5%R)] = Ok c1).
  { unfold QuantumCircuit.addGate.
    change (QuantumGates.getGateInfo "CNOT") with
      (Some (QuantumGates.mkInfo "Controlled-NOT" 2 0 "Conditional bit flip")).
    cbv iota beta.
    change (QuantumGates.getGate "CNOT"
              (QuantumCircuit.values [("position"%string, 5%R)]))
      with QuantumGates.CNOT.
    rewrite Hcnot. reflexivity. }
  destruct (QuantumCircuit.addGate c1 "X" [0%Z] [("position"%string, 2%R)])
    as [c2 | e] eqn:Hadd2.
  - destruct (addGate_behind_later_gate c1 c2 "X" [0%Z]
                [("position"%string, 2%R)] 2%R 0%nat cnot Hadd2)
      as [mx [Hget [Hgates _]]].
    + reflexivity.
    + reflexivity.
    + change (QuantumCircuit.existingPosition cnot (Z.of_nat 0))
        with (QuantumCircuit.orElse (Some 5%R) (IZR 0)).
      rewrite H5. lra.
    + intros j g' Hj. lia.
    + exists c1, c2, cnot.
      exists (QuantumCircuit.Quantum "X" [0%Z]
                (Some [("position"%string, 2%R)]) (Some mx)).
      split; [exact Hadd1 |]. split; [exact Hadd2 |].
      split; [reflexivity |]. split; [exact Hgates |].
      split; [reflexivity |]. split; [reflexivity |].
      split; [exact H5 |]. split; [reflexivity |].
      split; [reflexivity | exact H2].
  - exfalso. unfold QuantumCircuit.addGate in Hadd2.
    change (QuantumGates.getGateInfo "X") with
      (Some (QuantumGates.mkInfo "Pauli-X" 1 0 "Bit flip gate")) in Hadd2.
    cbv iota beta in Hadd2.
    change (QuantumGates.getGate "X"
              (QuantumCircuit.values [("position"%string, 2%R)]))
      with QuantumGates.PauliX in Hadd2.
    discriminate Hadd2.
Defined.

(** * Collapse of one qubit *)






Lemma squaredNorm_project : forall n q r amps i,
  squaredNorm (projectOnto n q r amps i) = retainedMass n q r amps i.
Proof.
  intros n q r amps. induction amps as [| a rest IH]; intros i; simpl.
  - reflexivity.
  - rewrite IH. destruct (qubitBit n q i =? r)%Z; simpl; lra.
Qed.





(** * Construction of a register from amplitudes *)


Lemma log2_integer_pow2 : forall k,
  (0 <= k)%Z -> JS.log2_integer (2 ^ k) = Some k.
Proof.
  intros k Hk. unfold JS.log2_integer.
  assert (Hp : (0 < 2 ^ k)%Z) by (apply Z.pow_pos_nonneg; lia).
  destruct (Z.ltb_spec 0 (2 ^ k)); [| lia]. simpl.
  rewrite Z.log2_pow2 by exact Hk.
  rewrite Z.eqb_refl. reflexivity.
Qed.




















(** * Application of a gate to the register *)

Lemma for_from_indexed :
  forall (S : Type) (P : Z -> S -> Prop) (body : Z -> S -> result S)
         (k : nat) (lo : Z) (s : S),
    P lo s ->
    (forall i s, (lo <= i < lo + Z.of_nat k)%Z -> P i s ->
                 exists s', body i s = Ok s' /\ P (i + 1)%Z s') ->
    exists s', JS.for_from k lo body s = Ok s' /\ P (lo + Z.of_nat k)%Z s'.
Proof.
  intros S P body k. induction k as [| k IH]; intros lo s Hs Hbody.
  - exists s. split; [reflexivity |].
    replace (lo + Z.of_nat 0)%Z with lo by lia. exact Hs.
  - simpl JS.for_from.
    destruct (Hbody lo s ltac:(lia) Hs) as [s1 [H1 HP1]].
    rewrite H1. cbn [bind].
    destruct (IH (lo + 1)%Z s1 HP1) as [s2 [H2 HP2]].
    + intros i s0 Hi. apply Hbody. lia.
    + exists s2. split; [exact H2 |].
      replace (lo + Z.of_nat (Datatypes.S k))%Z
        with (lo + 1 + Z.of_nat k)%Z by lia.
      exact HP2.
Qed.

Lemma for_range_indexed :
  forall (S : Type) (P : Z -> S -> Prop) (body : Z -> S -> result S)
         (n : Z) (s : S),
    (0 <= n)%Z ->
    P 0%Z s ->
    (forall i s, (0 <= i < n)%Z -> P i s ->
                 exists s', body i s = Ok s' /\ P (i + 1)%Z s') ->
    exists s', JS.for_range n body s = Ok s' /\ P n s'.
Proof.
  intros S P body n s Hn Hs Hbody. unfold JS.for_range.
  destruct (for_from_indexed S P body (Z.to_nat n) 0 s Hs) as [s' [H HP]].
  - intros i s0 Hi. apply Hbody. lia.
  - exists s'. split; [exact H |].
    replace (0 + Z.of_nat (Z.to_nat n))%Z with n in HP by lia. exact HP.
Qed.

Lemma list_set_length : forall (A : Type) (l : list A) (i : nat) (v : A),
  List.length (JS.list_set l i v) = List.length l.
Proof.
  intros A l. induction l as [| h t IH]; intros i v; simpl.
  - reflexivity.
  - destruct i; simpl; [reflexivity | rewrite IH; reflexivity].
Qed.

Lemma list_set_same : forall (A : Type) (l : list A) (i : nat) (v : A),
  (i < List.length l)%nat -> nth_error (JS.list_set l i v) i = Some v.
Proof.
  intros A l. induction l as [| h t IH]; intros i v Hi; simpl in *.
  - lia.
  - destruct i; simpl; [reflexivity | apply IH; lia].
Qed.

Lemma list_set_other : forall (A : Type) (l : list A) (i j : nat) (v : A),
  i <> j -> nth_error (JS.list_set l i v) j = nth_error l j.
Proof.
  intros A l. induction l as [| h t IH]; intros i j v Hne; simpl.
  - reflexivity.
  - destruct i, j; simpl; try reflexivity; [lia | apply IH; lia].
Qed.

Lemma aget_in_range : forall (A : Type) (l : list A) (i : Z),
  (0 <= i < JS.alength l)%Z -> exists a, JS.aget l i = Ok a.
Proof.
  intros A l i Hi. unfold JS.aget, JS.alength in *.
  destruct (Z.ltb_spec i 0); [lia |].
  destruct (nth_error l (Z.to_nat i)) as [a |] eqn:E.
  - exists a. reflexivity.
  - apply nth_error_None in E. lia.
Qed.

Lemma aset_length : forall (A : Type) (l : list A) (i : Z) (v : A),
  JS.alength (JS.aset l i v) = JS.alength l.
Proof.
  intros A l i v. unfold JS.aset, JS.alength.
  destruct (i <? 0)%Z; [reflexivity |].
  rewrite list_set_length. reflexivity.
Qed.

Lemma aget_aset_same : forall (A : Type) (l : list A) (i : Z) (v : A),
  (0 <= i < JS.alength l)%Z -> JS.aget (JS.aset l i v) i = Ok v.
Proof.
  intros A l i v Hi. unfold JS.aget, JS.aset, JS.alength in *.
  destruct (Z.ltb_spec i 0); [lia |].
  rewrite list_set_same by lia. reflexivity.
Qed.

Lemma aget_aset_other : forall (A : Type) (l : list A) (i j : Z) (v : A),
  (0 <= i)%Z -> (0 <= j)%Z -> i <> j ->
  JS.aget (JS.aset l i v) j = JS.aget l j.
Proof.
  intros A l i j v Hi Hj Hne. unfold JS.aget, JS.aset.
  destruct (Z.ltb_spec i 0); [lia |].
  destruct (Z.ltb_spec j 0); [lia |].
  rewrite list_set_other by lia. reflexivity.
Qed.

Lemma aget_Forall : forall (A : Type) (P : A -> Prop) (l : list A) (i : Z) (a : A),
  Forall P l -> JS.aget l i = Ok a -> P a.
Proof.
  intros A P l i a Hall Hget. unfold JS.aget in Hget.
  destruct (i <? 0)%Z; [discriminate |].
  destruct (nth_error l (Z.to_nat i)) as [x |] eqn:E; [| discriminate].
  inversion Hget; subst x.
  rewrite Forall_forall in Hall. apply Hall.
  apply nth_error_In with (n := Z.to_nat i). exact E.
Qed.

Lemma aset_Forall : forall (A : Type) (P : A -> Prop) (l : list A) (i : Z) (v : A),
  Forall P l -> P v -> Forall P (JS.aset l i v).
Proof.
  intros A P l i v Hall Hv. unfold JS.aset.
  destruct (i <? 0)%Z; [exact Hall |].
  generalize (Z.to_nat i). clear i.
  induction Hall as [| h t Hh Ht IH]; intros n; simpl.
  - constructor.
  - destruct n; constructor; auto.
Qed.

(** [data[i][j] = v] inside a grid: the grid keeps its shape, the entry
    reads [v], and every other entry reads as before. *)
Lemma dset_spec : forall (r c : Z) (d : list (list Complex.t)) (i j : Z)
                         (v : Complex.t),
  shape r c d -> (0 <= i < r)%Z -> (0 <= j < c)%Z ->
  exists d',
    Matrix.dset d i j v = Ok d' /\
    shape r c d' /\
    Matrix.dget d' i j = Ok v /\
    (forall i' j', (0 <= i')%Z -> (0 <= j')%Z -> (i', j') <> (i, j) ->
                   Matrix.dget d' i' j' = Matrix.dget d i' j').
Proof.
  intros r c d i j v [Hr Hc] Hi Hj.
  destruct (aget_in_range _ d i ltac:(lia)) as [row Hrow].
  pose proof (aget_Forall _ _ d i row Hc Hrow) as Hlen. simpl in Hlen.
  unfold Matrix.dset. rewrite Hrow. cbn [bind].
  eexists. split; [reflexivity |].
  split; [| split].
  - split.
    + rewrite aset_length. exact Hr.
    + apply aset_Forall; [exact Hc |]. rewrite aset_length. exact Hlen.
  - unfold Matrix.dget. rewrite aget_aset_same by lia. cbn [bind].
    apply aget_aset_same. lia.
  - intros i' j' Hi' Hj' Hne. unfold Matrix.dget.
    destruct (Z.eq_dec i' i) as [-> | Hdiff].
    + rewrite aget_aset_same by lia. rewrite Hrow. cbn [bind].
      apply aget_aset_other; try lia. congruence.
    + rewrite aget_aset_other by lia. reflexivity.
Qed.

Lemma afill_shape : forall r c,
  (0 <= r)%Z -> (0 <= c)%Z ->
  shape r c (JS.afill r (JS.afill c Complex.zero)).
Proof.
  intros r c Hr Hc. unfold shape, JS.afill, JS.alength. split.
  - rewrite repeat_length. lia.
  - apply Forall_forall. intros row Hin. apply repeat_spec in Hin. subst row.
    rewrite repeat_length. lia.
Qed.

Lemma identity_shape : forall d,
  (0 <= d)%Z ->
  exists m, Matrix.identity d = Ok m /\
            Matrix.rows m = d /\ Matrix.cols m = d /\
            shape d d (Matrix.data m).
Proof.
  intros d Hd. unfold Matrix.identity.
  destruct (for_range_indexed _ (fun _ g => shape d d g)
              (fun i g => Matrix.dset g i i Complex.one) d
              (Matrix.data (Matrix.new_ d d)) Hd) as [g [Hg Hshape]].
  - apply afill_shape; exact Hd.
  - intros i g Hi Hs.
    destruct (dset_spec d d g i i Complex.one Hs Hi Hi) as [g' [H1 [H2 _]]].
    exists g'. split; assumption.
  - rewrite Hg. cbn [bind]. eexists. split; [reflexivity |].
    repeat split; try reflexivity; apply Hshape.
Qed.

Lemma transitionAllowed_forallb : forall n l i j,
  QuantumState.transitionAllowed n l i j
  = forallb (fun q => (QuantumState.bitOf n i q =? QuantumState.bitOf n j q)%Z) l.
Proof.
  intros n l i j. unfold QuantumState.transitionAllowed.
  induction l as [| q rest IH]; simpl.
  - reflexivity.
  - destruct (QuantumState.bitOf n i q =? QuantumState.bitOf n j q)%Z; simpl.
    + exact IH.
    + reflexivity.
Qed.

Lemma transitionAllowed_spec : forall n targets i j,
  (0 <= n <= 31)%Z -> (0 <= i < 2 ^ n)%Z -> (0 <= j < 2 ^ n)%Z ->
  negb (QuantumState.transitionAllowed n
          (filter (fun q => negb (JS.includes targets q)) (JS.arange n)) i j)
  = existsb (fun q => negb (JS.includes targets q)
                      && negb (qubitBit n q i =? qubitBit n q j)%Z)
            (JS.arange n).
Proof.
  intros n targets i j Hn Hi Hj.
  rewrite transitionAllowed_forallb.
  assert (Hin : forall q, In q (JS.arange n) -> (0 <= q < n)%Z)
    by (intros q Hq; apply arange_In; exact Hq).
  induction (JS.arange n) as [| q rest IH]; simpl.
  - reflexivity.
  - assert (Hq : (0 <= q < n)%Z) by (apply Hin; left; reflexivity).
    assert (IH' := IH (fun x Hx => Hin x (or_intror Hx))).
    destruct (JS.includes targets q); simpl.
    + exact IH'.
    + rewrite !bitOf_qubitBit by assumption.
      destruct (qubitBit n q i =? qubitBit n q j)%Z; simpl.
      * exact IH'.
      * reflexivity.
Qed.

Lemma differsOutside_existsb : forall n targets i j,
  existsb (fun q => negb (JS.includes targets q)
                    && negb (qubitBit n q i =? qubitBit n q j)%Z)
          (JS.arange n) = true
  <-> differsOutside n targets i j.
Proof.
  intros n targets i j. rewrite existsb_exists. unfold differsOutside.
  split.
  - intros [q [Hq Hb]]. apply andb_true_iff in Hb. destruct Hb as [Hnin Hne].
    exists q. split; [apply arange_In; exact Hq |]. split.
    + intros Hin. apply includes_In in Hin. rewrite Hin in Hnin. discriminate.
    + intros Heq. rewrite Heq, Z.eqb_refl in Hne. discriminate.
  - intros [q [Hq [Hnin Hne]]]. exists q.
    split; [apply arange_In; exact Hq |].
    apply andb_true_iff. split.
    + destruct (JS.includes targets q) eqn:E; [| reflexivity].
      apply includes_In in E. contradiction.
    + destruct (Z.eqb_spec (qubitBit n q i) (qubitBit n q j));
        [contradiction | reflexivity].
Qed.

Lemma shift_in_bit : forall acc bit m,
  (0 <= m <= 30)%Z -> (0 <= acc < 2 ^ m)%Z -> (bit = 0 \/ bit = 1)%Z ->
  JS.bor (JS.shl acc 1) bit = (2 * acc + bit)%Z /\
  (0 <= 2 * acc + bit < 2 ^ (m + 1))%Z.
Proof.
  intros acc bit m Hm Hacc Hbit.
  assert (Hp : (2 ^ m <= 2 ^ 30)%Z) by (apply Z.pow_le_mono_r; lia).
  assert (Hp1 : (2 ^ (m + 1) = 2 * 2 ^ m)%Z)
    by (rewrite Z.pow_add_r by lia; lia).
  split; [| destruct Hbit; subst; lia].
  unfold JS.bor, JS.shl.
  rewrite (ToInt32_small acc) by lia.
  change (1 mod 32)%Z with 1%Z.
  rewrite Z.shiftl_mul_pow2 by lia. change (2 ^ 1)%Z with 2%Z.
  rewrite (ToInt32_small (acc * 2)) by lia.
  rewrite (ToInt32_small (acc * 2)) by lia.
  rewrite (ToInt32_small bit) by (destruct Hbit; subst; lia).
  destruct Hbit as [-> | ->].
  - rewrite Z.lor_0_r. lia.
  - destruct acc as [| p | p]; [reflexivity | | lia].
    replace (Z.pos p * 2)%Z with (Z.pos p~0) by lia.
    reflexivity.
Qed.

Lemma targetIndices_fold : forall n i j targets a b m,
  (0 <= n <= 31)%Z -> (0 <= i < 2 ^ n)%Z -> (0 <= j < 2 ^ n)%Z ->
  Forall (fun q => (0 <= q < n)%Z) targets ->
  (0 <= m)%Z -> (m + JS.alength targets <= 31)%Z ->
  (0 <= a < 2 ^ m)%Z -> (0 <= b < 2 ^ m)%Z ->
  let fa := fold_left (fun acc q => (2 * acc + qubitBit n q i)%Z) targets a in
  let fb := fold_left (fun acc q => (2 * acc + qubitBit n q j)%Z) targets b in
  fold_left
    (fun '(targetIndex, targetJIndex) qubit =>
       (JS.bor (JS.shl targetIndex 1) (QuantumState.bitOf n i qubit),
        JS.bor (JS.shl targetJIndex 1) (QuantumState.bitOf n j qubit)))
    targets (a, b)
  = (fa, fb) /\
  (0 <= fa < 2 ^ (m + JS.alength targets))%Z /\
  (0 <= fb < 2 ^ (m + JS.alength targets))%Z.
Proof.
  intros n i j targets. induction targets as [| q rest IH];
    intros a b m Hn Hi Hj Hall Hm Hlen Ha Hb.
  - simpl. unfold JS.alength. simpl. rewrite Z.add_0_r. auto.
  - inversion Hall as [| q' rest' Hq Hrest]; subst.
    unfold JS.alength in *. cbn [List.length] in *.
    cbn [fold_left].
    rewrite !bitOf_qubitBit by assumption.
    pose proof (qubitBit_range n q i) as Hbi.
    pose proof (qubitBit_range n q j) as Hbj.
    destruct (shift_in_bit a (qubitBit n q i) m) as [Ha1 Ha2]; try lia.
    destruct (shift_in_bit b (qubitBit n q j) m) as [Hb1 Hb2]; try lia.
    rewrite Ha1, Hb1.
    destruct (IH (2 * a + qubitBit n q i)%Z (2 * b + qubitBit n q j)%Z
                 (m + 1)%Z Hn Hi Hj Hrest) as [Hf [Hfa Hfb]]; try lia.
    replace (m + Z.of_nat (Datatypes.S (List.length rest)))%Z
      with (m + 1 + Z.of_nat (List.length rest))%Z by lia.
    split; [exact Hf | split; assumption].
Qed.

Lemma targetIndices_spec : forall n i j targets,
  (0 <= n <= 31)%Z -> (0 <= i < 2 ^ n)%Z -> (0 <= j < 2 ^ n)%Z ->
  Forall (fun q => (0 <= q < n)%Z) targets ->
  (JS.alength targets <= 31)%Z ->
  QuantumState.targetIndices n targets i j
  = (subIndex n targets i, subIndex n targets j) /\
  (0 <= subIndex n targets i < 2 ^ JS.alength targets)%Z /\
  (0 <= subIndex n targets j < 2 ^ JS.alength targets)%Z.
Proof.
  intros n i j targets Hn Hi Hj Hall Hlen.
  unfold QuantumState.targetIndices, subIndex.
  apply (targetIndices_fold n i j targets 0 0 0); try assumption; try lia.
Qed.

Lemma dget_in_range : forall r c d i j,
  shape r c d -> (0 <= i < r)%Z -> (0 <= j < c)%Z ->
  exists v, Matrix.dget d i j = Ok v.
Proof.
  intros r c d i j [Hr Hc] Hi Hj.
  destruct (aget_in_range _ d i ltac:(lia)) as [row Hrow].
  pose proof (aget_Forall _ _ d i row Hc Hrow) as Hlen. simpl in Hlen.
  destruct (aget_in_range _ row j ltac:(lia)) as [v Hv].
  exists v. unfold Matrix.dget. rewrite Hrow. exact Hv.
Qed.

Lemma setFullEntry_spec :
  forall (n k : Z) (gate : Matrix.t) (targets : list Z) (i j : Z)
         (g : list (list Complex.t)),
    (0 <= n <= 31)%Z -> (0 <= k <= 31)%Z ->
    (0 <= i < 2 ^ n)%Z -> (0 <= j < 2 ^ n)%Z ->
    Forall (fun q => (0 <= q < n)%Z) targets ->
    JS.alength targets = k ->
    shape (2 ^ k) (2 ^ k) (Matrix.data gate) ->
    shape (2 ^ n) (2 ^ n) g ->
    exists g',
      QuantumState.setFullEntry n gate targets
        (filter (fun q => negb (JS.includes targets q)) (JS.arange n)) i j g
      = Ok g' /\
      shape (2 ^ n) (2 ^ n) g' /\
      Matrix.dget g' i j = Ok (fullOperatorEntry n gate targets i j) /\
      (forall i' j', (0 <= i')%Z -> (0 <= j')%Z -> (i', j') <> (i, j) ->
                     Matrix.dget g' i' j' = Matrix.dget g i' j').
Proof.
  intros n k gate targets i j g Hn Hk Hi Hj Hall Hlen Hgate Hg.
  unfold QuantumState.setFullEntry, fullOperatorEntry.
  rewrite (transitionAllowed_spec n targets i j Hn Hi Hj).
  destruct (existsb _ (JS.arange n)).
  - apply (dset_spec (2 ^ n) (2 ^ n)); assumption.
  - destruct (targetIndices_spec n i j targets Hn Hi Hj Hall ltac:(lia))
      as [Hti [Hsi Hsj]].
    rewrite Hti. rewrite Hlen in Hsi, Hsj.
    destruct (dget_in_range _ _ _ _ _ Hgate Hsi Hsj) as [v Hv].
    rewrite Hv. cbn [bind].
    apply (dset_spec (2 ^ n) (2 ^ n)); assumption.
Qed.

(** The operator [createFullGateMatrix] builds, entry by entry. *)
Lemma createFullGateMatrix_spec :
  forall (s : QuantumState.t) (gate : Matrix.t) (targets : list Z) (k : Z),
    wellFormedState s ->
    (0 <= k <= 31)%Z ->
    Matrix.rows gate = (2 ^ k)%Z ->
    shape (2 ^ k) (2 ^ k) (Matrix.data gate) ->
    Forall (fun q => (0 <= q < QuantumState.numQubits s)%Z) targets ->
    JS.alength targets = k ->
    exists full,
      QuantumState.createFullGateMatrix s gate targets = Ok full /\
      Matrix.rows full = QuantumState.dimension s /\
      Matrix.cols full = QuantumState.dimension s /\
      shape (QuantumState.dimension s) (QuantumState.dimension s)
            (Matrix.data full) /\
      (forall i j,
         (0 <= i < QuantumState.dimension s)%Z ->
         (0 <= j < QuantumState.dimension s)%Z ->
         Matrix.dget (Matrix.data full) i j
         = Ok (fullOperatorEntry (QuantumState.numQubits s) gate targets i j)).
Proof.
  intros s gate targets k [Hn [Hdim Hamps]] Hk Hrows Hgate Hall Hlen.
  set (n := QuantumState.numQubits s) in *.
  set (d := QuantumState.dimension s) in *.
  assert (Hd : (0 < d)%Z) by (rewrite Hdim; apply Z.pow_pos_nonneg; lia).
  unfold QuantumState.createFullGateMatrix.
  rewrite Hrows, (log2_integer_pow2 k ltac:(lia)).
  rewrite Hlen, Z.eqb_refl. cbn [negb].
  destruct (identity_shape d ltac:(lia)) as [m [Hid [Hmr [Hmc Hms]]]].
  fold d n. rewrite Hid. cbn [bind].
  set (E := fullOperatorEntry n gate targets).
  set (ctrl := filter (fun q => negb (JS.includes targets q)) (JS.arange n)).
  destruct (for_range_indexed _
              (fun i g =>
                 shape d d g /\
                 forall i' j', (0 <= i' < i)%Z -> (0 <= j' < d)%Z ->
                               Matrix.dget g i' j' = Ok (E i' j'))
              (fun i g =>
                 JS.for_range d
                   (fun j g0 =>
                      QuantumState.setFullEntry n gate targets ctrl i j g0) g)
              d (Matrix.data m) ltac:(lia)) as [g [Hloop [Hshape Hentries]]].
  - split; [exact Hms | intros; lia].
  - intros i g Hi [Hs Hrowsdone].
    destruct (for_range_indexed _
                (fun j g0 =>
                   shape d d g0 /\
                   (forall i' j', (0 <= i' < i)%Z -> (0 <= j' < d)%Z ->
                                  Matrix.dget g0 i' j' = Ok (E i' j')) /\
                   (forall j', (0 <= j' < j)%Z ->
                               Matrix.dget g0 i j' = Ok (E i j')))
                (fun j g0 =>
                   QuantumState.setFullEntry n gate targets ctrl i j g0)
                d g ltac:(lia)) as [g1 [Hinner [Hs1 [Hprev Hrow]]]].
    + split; [exact Hs |]. split; [exact Hrowsdone | intros; lia].
    + intros j g0 Hj [Hs0 [Hprev0 Hrow0]].
      rewrite Hdim in Hs0, Hi, Hj.
      destruct (setFullEntry_spec n k gate targets i j g0 Hn Hk Hi Hj
                  Hall Hlen Hgate Hs0) as [g' [Hset [Hs' [Hnew Hother]]]].
      exists g'. split; [exact Hset |].
      rewrite Hdim. split; [exact Hs' |]. split.
      * intros i' j' Hi' Hj'. rewrite Hother.
        -- apply Hprev0; [exact Hi' | rewrite Hdim; exact Hj'].
        -- lia.
        -- lia.
        -- intros Heq. inversion Heq. lia.
      * intros j' Hj'. destruct (Z.eq_dec j' j) as [-> | Hne].
        -- exact Hnew.
        -- rewrite Hother.
           ++ apply Hrow0. lia.
           ++ lia.
           ++ lia.
           ++ intros Heq. inversion Heq. contradiction.
    + exists g1. split; [exact Hinner |]. split; [exact Hs1 |].
      intros i' j' Hi' Hj'. destruct (Z.eq_dec i' i) as [-> | Hne].
      * apply Hrow. exact Hj'.
      * apply Hprev; [lia | exact Hj'].
  - rewrite Hloop. cbn [bind]. eexists. split; [reflexivity |].
    cbn [Matrix.rows Matrix.cols Matrix.data].
    split; [exact Hmr |]. split; [exact Hmc |]. split; [exact Hshape |].
    intros i j Hi Hj. apply Hentries; assumption.
Qed.

Lemma add_zero_l : forall a, Complex.add Complex.zero a = a.
Proof. intros [re im]. unfold Complex.add. simpl. f_equal; lra. Qed.

Lemma add_zero_r : forall a, Complex.add a Complex.zero = a.
Proof. intros [re im]. unfold Complex.add. simpl. f_equal; lra. Qed.

Lemma add_assoc : forall a b c,
  Complex.add (Complex.add a b) c = Complex.add a (Complex.add b c).
Proof. intros a b c. unfold Complex.add. simpl. f_equal; lra. Qed.

Lemma fold_add_complexSum : forall (l : list Complex.t) (acc : Complex.t),
  fold_left Complex.add l acc = Complex.add acc (complexSum l).
Proof.
  induction l as [| a rest IH]; intros acc; simpl.
  - rewrite add_zero_r. reflexivity.
  - rewrite IH, add_assoc. reflexivity.
Qed.

Lemma arange_succ : forall j, (0 <= j)%Z -> JS.arange (j + 1) = JS.arange j ++ [j].
Proof.
  intros j Hj. unfold JS.arange.
  replace (Z.to_nat (j + 1)) with (Datatypes.S (Z.to_nat j)) by lia.
  rewrite seq_S, map_app. simpl. rewrite Z2Nat.id by lia. reflexivity.
Qed.

Lemma aget_nth : forall (l : list Complex.t) (i : Z),
  (0 <= i < JS.alength l)%Z ->
  JS.aget l i = Ok (nth (Z.to_nat i) l Complex.zero).
Proof.
  intros l i Hi. unfold JS.aget, JS.alength in *.
  destruct (Z.ltb_spec i 0); [lia |].
  destruct (nth_error l (Z.to_nat i)) as [a |] eqn:E.
  - rewrite (nth_error_nth _ _ _ E). reflexivity.
  - apply nth_error_None in E. lia.
Qed.

Lemma aget_afill : forall (d i : Z) (v : Complex.t),
  (0 <= i < d)%Z -> JS.aget (JS.afill d v) i = Ok v.
Proof.
  intros d i v Hi.
  rewrite aget_nth.
  - unfold JS.afill. rewrite nth_repeat_lt by lia. reflexivity.
  - unfold JS.afill, JS.alength. rewrite repeat_length. lia.
Qed.

(** The matrix-vector product computed by the two loops of [applyGate],
    for an operator whose entries are given by [E]. *)
Lemma applyGate_loops :
  forall (full : Matrix.t) (amps : list Complex.t) (d : Z)
         (E : Z -> Z -> Complex.t),
    (0 <= d)%Z -> JS.alength amps = d ->
    (forall i j, (0 <= i < d)%Z -> (0 <= j < d)%Z ->
                 Matrix.dget (Matrix.data full) i j = Ok (E i j)) ->
    exists na,
      JS.for_range d
        (fun i na =>
           JS.for_range d
             (fun j na0 => QuantumState.accumulate full amps i j na0) na)
        (JS.afill d Complex.zero)
      = Ok na /\
      JS.alength na = d /\
      (forall i, (0 <= i < d)%Z ->
         JS.aget na i
         = Ok (complexSum
                 (map (fun j =>
                         Complex.multiply (E i j)
                           (nth (Z.to_nat j) amps Complex.zero))
                      (JS.arange d)))).
Proof.
  intros full amps d E Hd Hamps Hfull.
  set (term := fun i j =>
                 Complex.multiply (E i j) (nth (Z.to_nat j) amps Complex.zero)).
  set (partial := fun i j =>
                    fold_left Complex.add (map (term i) (JS.arange j))
                              Complex.zero).
  destruct (for_range_indexed _
              (fun i na =>
                 JS.alength na = d /\
                 (forall i', (0 <= i' < i)%Z ->
                             JS.aget na i' = Ok (partial i' d)) /\
                 (forall i', (i <= i' < d)%Z ->
                             JS.aget na i' = Ok Complex.zero))
              (fun i na =>
                 JS.for_range d
                   (fun j na0 => QuantumState.accumulate full amps i j na0) na)
              d (JS.afill d Complex.zero) Hd)
    as [na [Hloop [Hlen [Hdone _]]]].
  - split.
    + unfold JS.afill, JS.alength. rewrite repeat_length. lia.
    + split; [intros; lia |]. intros i' Hi'. apply aget_afill. lia.
  - intros i na Hi [Hlen [Hdone Hzero]].
    destruct (for_range_indexed _
                (fun j na0 =>
                   JS.alength na0 = d /\
                   (forall i', (0 <= i' < i)%Z ->
                               JS.aget na0 i' = Ok (partial i' d)) /\
                   JS.aget na0 i = Ok (partial i j) /\
                   (forall i', (i < i' < d)%Z ->
                               JS.aget na0 i' = Ok Complex.zero))
                (fun j na0 => QuantumState.accumulate full amps i j na0)
                d na Hd) as [na1 [Hinner [Hlen1 [Hdone1 [Hcur1 Hzero1]]]]].
    + split; [exact Hlen |]. split; [exact Hdone |]. split.
      * unfold partial. simpl. apply Hzero. lia.
      * intros i' Hi'. apply Hzero. lia.
    + intros j na0 Hj [Hlen0 [Hdone0 [Hcur0 Hzero0]]].
      unfold QuantumState.accumulate.
      rewrite (Hfull i j Hi Hj). cbn [bind].
      rewrite aget_nth by lia. cbn [bind].
      rewrite Hcur0. cbn [bind].
      eexists. split; [reflexivity |].
      split; [rewrite aset_length; exact Hlen0 |].
      split; [| split].
      * intros i' Hi'. rewrite aget_aset_other by lia. apply Hdone0. exact Hi'.
      * rewrite aget_aset_same by lia.
        unfold partial. rewrite arange_succ by lia.
        rewrite map_app, fold_left_app. reflexivity.
      * intros i' Hi'. rewrite aget_aset_other by lia. apply Hzero0. exact Hi'.
    + exists na1. split; [exact Hinner |]. split; [exact Hlen1 |]. split.
      * intros i' Hi'. destruct (Z.eq_dec i' i) as [-> | Hne].
        -- exact Hcur1.
        -- apply Hdone1. lia.
      * intros i' Hi'. apply Hzero1. lia.
  - exists na. split; [exact Hloop |]. split; [exact Hlen |].
    intros i Hi. rewrite (Hdone i Hi). unfold partial.
    rewrite fold_add_complexSum, add_zero_l. reflexivity.
Qed.

Lemma map_combine_from :
  forall (row amps : list Complex.t) (F : Z -> Complex.t) (off : nat),
    List.length row = List.length amps ->
    (forall j, (j < List.length row)%nat ->
               nth j row Complex.zero = F (Z.of_nat (off + j))) ->
    map (fun j => Complex.multiply (F j)
                    (nth (Z.to_nat j - off) amps Complex.zero))
        (map Z.of_nat (seq off (List.length row)))
    = map (fun '(f, a) => Complex.multiply f a) (combine row amps).
Proof.
  intros row. induction row as [| r rest IH]; intros amps F off Hlen Hrow.
  - reflexivity.
  - destruct amps as [| a arest]; [discriminate |].
    simpl in Hlen. cbn [List.length seq map combine].
    f_equal.
    + rewrite Nat2Z.id, Nat.sub_diag.
      pose proof (Hrow 0%nat ltac:(simpl; lia)) as H0.
      replace (off + 0)%nat with off in H0 by lia.
      rewrite <- H0. reflexivity.
    + rewrite <- (IH arest F (Datatypes.S off)).
      * apply map_ext_in. intros j Hj.
        apply in_map_iff in Hj. destruct Hj as [x [<- Hx]].
        apply in_seq in Hx. rewrite Nat2Z.id.
        replace (x - off)%nat with (Datatypes.S (x - Datatypes.S off)) by lia.
        reflexivity.
      * lia.
      * intros j Hj. specialize (Hrow (Datatypes.S j)). simpl in Hrow.
        rewrite Hrow by lia. f_equal. lia.
Qed.

Lemma map_combine_arange :
  forall (row amps : list Complex.t) (d : Z) (F : Z -> Complex.t),
    (0 <= d)%Z -> JS.alength amps = d -> JS.alength row = d ->
    (forall j, (0 <= j < d)%Z -> nth (Z.to_nat j) row Complex.zero = F j) ->
    map (fun j => Complex.multiply (F j) (nth (Z.to_nat j) amps Complex.zero))
        (JS.arange d)
    = map (fun '(f, a) => Complex.multiply f a) (combine row amps).
Proof.
  intros row amps d F Hd Hamps Hrow Hent.
  unfold JS.arange, JS.alength in *.
  replace (Z.to_nat d) with (List.length row) by lia.
  rewrite <- (map_combine_from row amps F 0).
  - apply map_ext. intros j. rewrite Nat.sub_0_r. reflexivity.
  - lia.
  - intros j Hj. cbn [Nat.add]. rewrite <- (Hent (Z.of_nat j)) by lia.
    rewrite Nat2Z.id. reflexivity.
Qed.

(** C2: for a register of [n] qubits and a square gate matrix of size
    [2 ^ k], [applyGate] raises [GateArityMismatch] when the number of
    targets is not [k]; otherwise it builds an operator of size
    [2 ^ n] whose entry [(i, j)] is zero whenever a qubit outside the targets
    has different bits in [i] and [j], and is the gate's entry at the
    sub-indices of [i] and [j] otherwise (the targets' bits shifted in in
    order, the first target most significant); the new amplitude at [i] is
    the sum over [j] of the operator's entry [(i, j)] times the old
    amplitude at [j]. *)
Theorem applyGate_full_operator :
  forall (s : QuantumState.t) (gate : Matrix.t) (targets : list Z) (k : Z),
    wellFormedState s ->
    (0 <= k <= 31)%Z ->
    Matrix.rows gate = (2 ^ k)%Z ->
    shape (2 ^ k) (2 ^ k) (Matrix.data gate) ->
    Forall (fun q => (0 <= q < QuantumState.numQubits s)%Z) targets ->
    let n := QuantumState.numQubits s in
    let d := QuantumState.dimension s in
    (JS.alength targets <> k ->
     QuantumState.applyGate s gate targets = Err GateArityMismatch) /\
    (JS.alength targets = k ->
     exists (full : Matrix.t) (s' : QuantumState.t),
       QuantumState.createFullGateMatrix s gate targets = Ok full /\
       QuantumState.applyGate s gate targets = Ok s' /\
       Matrix.rows full = d /\ Matrix.cols full = d /\
       (forall i j, (0 <= i < d)%Z -> (0 <= j < d)%Z ->
          exists e,
            Matrix.dget (Matrix.data full) i j = Ok e /\
            (differsOutside n targets i j -> e = Complex.mk 0 0) /\
            (~ differsOutside n targets i j ->
             Matrix.dget (Matrix.data gate)
               (subIndex n targets i) (subIndex n targets j) = Ok e)) /\
       QuantumState.numQubits s' = n /\
       QuantumState.dimension s' = d /\
       JS.alength (QuantumState.amplitudes s') = d /\
       (forall i, (0 <= i < d)%Z ->
          exists row,
            JS.aget (Matrix.data full) i = Ok row /\
            JS.aget (QuantumState.amplitudes s') i
            = Ok (complexSum
                    (map (fun '(f, a) => Complex.multiply f a)
                         (combine row (QuantumState.amplitudes s)))))).
Proof.
  intros s gate targets k Hwf Hk Hrows Hgate Hall n d.
  split.
  - intros Hne. unfold QuantumState.applyGate, QuantumState.createFullGateMatrix.
    rewrite Hrows, (log2_integer_pow2 k ltac:(lia)).
    destruct (Z.eqb_spec (JS.alength targets) k); [contradiction |].
    reflexivity.
  - intros Hlen.
    destruct (createFullGateMatrix_spec s gate targets k Hwf Hk Hrows Hgate
                Hall Hlen) as [full [Hfull [Hfr [Hfc [Hfs Hentries]]]]].
    destruct Hwf as [Hn [Hdim Hamps]]. fold n d in Hn, Hdim, Hamps, Hfr, Hfc, Hfs, Hentries.
    assert (Hd : (0 <= d)%Z).
    { rewrite Hdim. apply Z.lt_le_incl. apply Z.pow_pos_nonneg; lia. }
    destruct (applyGate_loops full (QuantumState.amplitudes s) d
                (fullOperatorEntry n gate targets) Hd Hamps Hentries)
      as [na [Hloop [Hnalen Hna]]].
    exists full. eexists.
    split; [exact Hfull |].
    split.
    { unfold QuantumState.applyGate. rewrite Hfull. cbn [bind].
      fold d. rewrite Hloop. cbn [bind]. reflexivity. }
    split; [exact Hfr |]. split; [exact Hfc |].
    split.
    { intros i j Hi Hj. exists (fullOperatorEntry n gate targets i j).
      split; [apply Hentries; assumption |].
      unfold fullOperatorEntry.
      destruct (existsb _ (JS.arange n)) eqn:E.
      - split; [reflexivity |].
        intros Hnot. exfalso. apply Hnot.
        apply differsOutside_existsb. exact E.
      - split.
        + intros Hdiff. apply differsOutside_existsb in Hdiff. congruence.
        + intros _.
          assert (Hi' : (0 <= i < 2 ^ n)%Z) by (rewrite <- Hdim; exact Hi).
          assert (Hj' : (0 <= j < 2 ^ n)%Z) by (rewrite <- Hdim; exact Hj).
          destruct (targetIndices_spec n i j targets Hn Hi' Hj' Hall
                      ltac:(lia)) as [_ [Hsi Hsj]].
          rewrite Hlen in Hsi, Hsj.
          destruct (dget_in_range _ _ _ _ _ Hgate Hsi Hsj) as [v Hv].
          rewrite Hv. reflexivity. }
    cbn [QuantumState.with_amplitudes QuantumState.numQubits
         QuantumState.dimension QuantumState.amplitudes].
    split; [reflexivity |]. split; [reflexivity |]. split; [exact Hnalen |].
    intros i Hi.
    destruct Hfs as [Hfrows Hfcols].
    destruct (aget_in_range _ (Matrix.data full) i ltac:(lia)) as [row Hrow].
    pose proof (aget_Forall _ _ _ i row Hfcols Hrow) as Hrowlen.
    simpl in Hrowlen.
    exists row. split; [exact Hrow |].
    rewrite (Hna i Hi). f_equal. f_equal.
    assert (Hrowentries : forall j, (0 <= j < d)%Z ->
              nth (Z.to_nat j) row Complex.zero
              = fullOperatorEntry n gate targets i j).
    { intros j Hj. pose proof (Hentries i j Hi Hj) as He.
      unfold Matrix.dget in He. rewrite Hrow in He. cbn [bind] in He.
      rewrite aget_nth in He by lia. inversion He. reflexivity. }
    apply (map_combine_arange row (QuantumState.amplitudes s) d
             (fullOperatorEntry n gate targets i));
      assumption.
Qed.

Lemma applyGate_full_operator_witness :
  exists (full : Matrix.t) (s' : QuantumState.t),
    QuantumState.createFullGateMatrix (QuantumState.new_ 1) pauliXMatrix [0%Z]
    = Ok full /\
    QuantumState.applyGate (QuantumState.new_ 1) pauliXMatrix [0%Z] = Ok s'.
Proof.
  destruct (applyGate_full_operator (QuantumState.new_ 1) pauliXMatrix
              [0%Z] 1) as [_ Hok].
  - unfold wellFormedState. simpl. repeat split; try lia; reflexivity.
  - lia.
  - reflexivity.
  - split; [reflexivity | repeat constructor].
  - constructor; [simpl; lia | constructor].
  - destruct (Hok eq_refl) as [full [s' [Hfull [Happly _]]]].
    exists full, s'. split; assumption.
Defined.

(** * Matrices: products, transposes, traces, determinants and minors *)

Lemma dget_entryOf : forall r c d i j,
  shape r c d -> (0 <= i < r)%Z -> (0 <= j < c)%Z ->
  Matrix.dget d i j = Ok (entryOf d i j).
Proof.
  intros r c d i j [Hr Hc] Hi Hj. unfold Matrix.dget, entryOf, JS.aget.
  destruct (Z.ltb_spec i 0) as [F | _]; [lia | ].
  unfold JS.alength in Hr.
  destruct (nth_error d (Z.to_nat i)) as [row | ] eqn:Hrow.
  - cbn [bind].
    assert (Hlen : JS.alength row = c).
    { rewrite Forall_forall in Hc. apply Hc. eapply nth_error_In; eauto. }
    rewrite (nth_error_nth _ _ _ Hrow).
    destruct (Z.ltb_spec j 0) as [F | _]; [lia | ].
    unfold JS.alength in Hlen.
    destruct (nth_error row (Z.to_nat j)) as [v | ] eqn:Hv.
    + rewrite (nth_error_nth _ _ _ Hv). reflexivity.
    + apply nth_error_None in Hv. lia.
  - apply nth_error_None in Hrow. lia.
Qed.

Lemma shape_ext : forall r c d d',
  shape r c d -> shape r c d' ->
  (forall i j, (0 <= i < r)%Z -> (0 <= j < c)%Z -> entryOf d i j = entryOf d' i j) ->
  d = d'.
Proof.
  intros r c d d' [Hr Hc] [Hr' Hc'] Hext.
  unfold JS.alength in *.
  apply nth_ext with (d := []) (d' := []); [lia | ].
  intros i Hi.
  assert (Hrow : JS.alength (nth i d []) = c).
  { rewrite Forall_forall in Hc. apply Hc. apply nth_In. exact Hi. }
  assert (Hrow' : JS.alength (nth i d' []) = c).
  { rewrite Forall_forall in Hc'. apply Hc'. apply nth_In. lia. }
  unfold JS.alength in *.
  apply nth_ext with (d := Complex.zero) (d' := Complex.zero); [lia | ].
  intros j Hj.
  specialize (Hext (Z.of_nat i) (Z.of_nat j)).
  unfold entryOf in Hext. rewrite !Nat2Z.id in Hext. apply Hext; lia.
Qed.

Lemma grid_loops :
  forall (n m r c : Z) (pos : Z -> Z -> Z * Z) (V : Z -> Z -> Complex.t)
         (body : Z -> Z -> list (list Complex.t)
                 -> result (list (list Complex.t)))
         (d0 : list (list Complex.t)),
    (0 <= n)%Z -> (0 <= m)%Z ->
    shape r c d0 ->
    (forall i j, (0 <= i < n)%Z -> (0 <= j < m)%Z ->
       (0 <= fst (pos i j) < r)%Z /\ (0 <= snd (pos i j) < c)%Z) ->
    (forall i j i' j', (0 <= i < n)%Z -> (0 <= j < m)%Z ->
       (0 <= i' < n)%Z -> (0 <= j' < m)%Z ->
       pos i j = pos i' j' -> i = i' /\ j = j') ->
    (forall i j d, (0 <= i < n)%Z -> (0 <= j < m)%Z ->
       body i j d = Matrix.dset d (fst (pos i j)) (snd (pos i j)) (V i j)) ->
    exists d',
      JS.for_range n (fun i d => JS.for_range m (fun j d => body i j d) d) d0
      = Ok d' /\
      shape r c d' /\
      (forall i j, (0 <= i < n)%Z -> (0 <= j < m)%Z ->
         Matrix.dget d' (fst (pos i j)) (snd (pos i j)) = Ok (V i j)).
Proof.
  intros n m r c pos V body d0 Hn Hm Hd0 Hpos Hinj Hbody.
  destruct (for_range_indexed _
    (fun i d => shape r c d /\
       forall i' j', (0 <= i' < i)%Z -> (0 <= j' < m)%Z ->
         Matrix.dget d (fst (pos i' j')) (snd (pos i' j')) = Ok (V i' j'))
    (fun i d => JS.for_range m (fun j d => body i j d) d) n d0 Hn)
    as (d' & Hrun & Hsh & Hent).
  - split; [exact Hd0 | intros; lia].
  - intros i d Hi [Hsh Hprev].
    destruct (for_range_indexed _
      (fun j d => shape r c d /\
         (forall i' j', (0 <= i' < i)%Z -> (0 <= j' < m)%Z ->
            Matrix.dget d (fst (pos i' j')) (snd (pos i' j')) = Ok (V i' j')) /\
         (forall j', (0 <= j' < j)%Z ->
            Matrix.dget d (fst (pos i j')) (snd (pos i j')) = Ok (V i j')))
      (fun j d => body i j d) m d Hm)
      as (d1 & Hrun1 & Hsh1 & Hprev1 & Hrow1).
    + split; [exact Hsh | split; [exact Hprev | intros; lia]].
    + intros j d1 Hj (Hsh1 & Hprev1 & Hrow1).
      rewrite Hbody by assumption.
      destruct (Hpos i j Hi Hj) as [Hp1 Hp2].
      destruct (dset_spec r c d1 _ _ (V i j) Hsh1 Hp1 Hp2)
        as (d2 & Hset & Hsh2 & Hsame & Hother).
      exists d2. split; [exact Hset | ].
      split; [exact Hsh2 | ]. split.
      * intros i' j' Hi' Hj'.
        destruct (Hpos i' j') as [Hq1 Hq2]; [lia | lia | ].
        rewrite Hother; [apply Hprev1; assumption | lia | lia | ].
        intro Heq.
        assert (Hpp : pos i' j' = pos i j).
        { destruct (pos i' j'), (pos i j). exact Heq. }
        apply Hinj in Hpp; lia.
      * intros j' Hj'.
        destruct (Z.eq_dec j' j) as [-> | Hne]; [exact Hsame | ].
        destruct (Hpos i j') as [Hq1 Hq2]; [lia | lia | ].
        rewrite Hother; [apply Hrow1; lia | lia | lia | ].
        intro Heq.
        assert (Hpp : pos i j' = pos i j).
        { destruct (pos i j'), (pos i j). exact Heq. }
        apply Hinj in Hpp; lia.
    + exists d1. split; [exact Hrun1 | ]. split; [exact Hsh1 | ].
      intros i' j' Hi' Hj'.
      destruct (Z.eq_dec i' i) as [-> | Hne].
      * apply Hrow1. lia.
      * apply Hprev1; lia.
  - exists d'. split; [exact Hrun | ]. split; [exact Hsh | ].
    intros i j Hi Hj. apply Hent; assumption.
Qed.

Lemma complexSum_app : forall l x,
  complexSum (l ++ [x]) = Complex.add (complexSum l) x.
Proof.
  induction l as [ | a l IH]; intros x; cbn [app complexSum].
  - rewrite add_zero_l, add_zero_r. reflexivity.
  - rewrite IH, add_assoc. reflexivity.
Qed.

Lemma sum_loop :
  forall (n : Z) (T : Z -> Complex.t)
         (body : Z -> Complex.t -> result Complex.t),
    (0 <= n)%Z ->
    (forall k s, (0 <= k < n)%Z -> body k s = Ok (Complex.add s (T k))) ->
    JS.for_range n body Complex.zero
    = Ok (complexSum (map T (JS.arange n))).
Proof.
  intros n T body Hn Hbody.
  destruct (for_range_indexed _
    (fun k s => s = complexSum (map T (JS.arange k))) body n Complex.zero Hn)
    as (s & Hrun & Hs).
  - reflexivity.
  - intros k s Hk ->. rewrite Hbody by exact Hk.
    eexists. split; [reflexivity | ].
    rewrite arange_succ by lia. rewrite map_app. cbn [map].
    rewrite complexSum_app. reflexivity.
  - rewrite Hrun, Hs. reflexivity.
Qed.

Lemma new_wellFormed : forall r c,
  (0 <= r)%Z -> (0 <= c)%Z -> shape r c (Matrix.data (Matrix.new_ r c)).
Proof. intros r c Hr Hc. apply afill_shape; assumption. Qed.

Lemma nth_repeat_any : forall (A : Type) (a d : A) (n i : nat),
  nth i (repeat a n) d = a \/ nth i (repeat a n) d = d.
Proof.
  intros A a d n. induction n as [ | n IH]; intros [ | i]; cbn; auto.
Qed.

Lemma entryOf_new : forall r c i j,
  entryOf (Matrix.data (Matrix.new_ r c)) i j = Complex.zero.
Proof.
  intros r c i j. unfold entryOf, Matrix.new_, JS.afill. cbn [Matrix.data].
  destruct (nth_repeat_any _ (repeat Complex.zero (Z.to_nat c)) []
              (Z.to_nat r) (Z.to_nat i)) as [-> | ->].
  - destruct (nth_repeat_any _ Complex.zero Complex.zero
                (Z.to_nat c) (Z.to_nat j)) as [-> | ->]; reflexivity.
  - destruct (Z.to_nat j); reflexivity.
Qed.

Lemma transpose_spec : forall m,
  wellFormedMatrix m ->
  exists t,
    Matrix.transpose m = Ok t /\
    Matrix.rows t = Matrix.cols m /\ Matrix.cols t = Matrix.rows m /\
    wellFormedMatrix t /\
    (forall i j, (0 <= i < Matrix.rows m)%Z -> (0 <= j < Matrix.cols m)%Z ->
       entryOf (Matrix.data t) j i = entryOf (Matrix.data m) i j).
Proof.
  intros m (Hr & Hc & Hsh). unfold Matrix.transpose.
  destruct (grid_loops (Matrix.rows m) (Matrix.cols m)
              (Matrix.cols m) (Matrix.rows m)
              (fun i j => (j, i)) (fun i j => entryOf (Matrix.data m) i j)
              (fun i j d => v <- Matrix.dget (Matrix.data m) i j ;;
                            Matrix.dset d j i v)
              (Matrix.data (Matrix.new_ (Matrix.cols m) (Matrix.rows m)))
              Hr Hc)
    as (d' & Hrun & Hsh' & Hent).
  - apply new_wellFormed; assumption.
  - intros i j Hi Hj. cbn [fst snd]. lia.
  - intros i j i' j' _ _ _ _ Heq. injection Heq as -> ->. split; reflexivity.
  - intros i j d Hi Hj. cbn [fst snd].
    rewrite (dget_entryOf _ _ _ _ _ Hsh Hi Hj). reflexivity.
  - rewrite Hrun. cbn [bind]. eexists. split; [reflexivity | ].
    cbn [Matrix.rows Matrix.cols Matrix.data].
    split; [reflexivity | ]. split; [reflexivity | ].
    split; [split; [exact Hc | split; [exact Hr | exact Hsh']] | ].
    intros i j Hi Hj. specialize (Hent i j Hi Hj). cbn [fst snd] in Hent.
    rewrite (dget_entryOf _ _ _ _ _ Hsh') in Hent by lia.
    injection Hent as Hent. exact Hent.
Qed.

Lemma pointwise_spec :
  forall (m : Matrix.t) (F : Z -> Z -> Complex.t)
         (body : Z -> Z -> list (list Complex.t)
                 -> result (list (list Complex.t))),
    wellFormedMatrix m ->
    (forall i j d, (0 <= i < Matrix.rows m)%Z -> (0 <= j < Matrix.cols m)%Z ->
       body i j d = Matrix.dset d i j (F i j)) ->
    exists d',
      JS.for_range (Matrix.rows m)
        (fun i d => JS.for_range (Matrix.cols m) (fun j d => body i j d) d)
        (Matrix.data (Matrix.new_ (Matrix.rows m) (Matrix.cols m)))
      = Ok d' /\
      shape (Matrix.rows m) (Matrix.cols m) d' /\
      (forall i j, (0 <= i < Matrix.rows m)%Z -> (0 <= j < Matrix.cols m)%Z ->
         entryOf d' i j = F i j).
Proof.
  intros m F body (Hr & Hc & Hsh) Hbody.
  destruct (grid_loops (Matrix.rows m) (Matrix.cols m)
              (Matrix.rows m) (Matrix.cols m)
              (fun i j => (i, j)) F body
              (Matrix.data (Matrix.new_ (Matrix.rows m) (Matrix.cols m)))
              Hr Hc)
    as (d' & Hrun & Hsh' & Hent).
  - apply new_wellFormed; assumption.
  - intros i j Hi Hj. cbn [fst snd]. lia.
  - intros i j i' j' _ _ _ _ Heq. injection Heq as -> ->. split; reflexivity.
  - intros i j d Hi Hj. cbn [fst snd]. apply Hbody; assumption.
  - exists d'. split; [exact Hrun | ]. split; [exact Hsh' | ].
    intros i j Hi Hj. specialize (Hent i j Hi Hj). cbn [fst snd] in Hent.
    rewrite (dget_entryOf _ _ _ _ _ Hsh') in Hent by lia.
    injection Hent as Hent. exact Hent.
Qed.

Lemma conjugate_spec : forall m,
  wellFormedMatrix m ->
  exists t,
    Matrix.conjugate m = Ok t /\
    Matrix.rows t = Matrix.rows m /\ Matrix.cols t = Matrix.cols m /\
    wellFormedMatrix t /\
    (forall i j, (0 <= i < Matrix.rows m)%Z -> (0 <= j < Matrix.cols m)%Z ->
       entryOf (Matrix.data t) i j
       = Complex.conjugate (entryOf (Matrix.data m) i j)).
Proof.
  intros m Hwf. pose proof Hwf as (Hr & Hc & Hsh). unfold Matrix.conjugate.
  destruct (pointwise_spec m
              (fun i j => Complex.conjugate (entryOf (Matrix.data m) i j))
              (fun i j d => v <- Matrix.dget (Matrix.data m) i j ;;
                            Matrix.dset d i j (Complex.conjugate v)) Hwf)
    as (d' & Hrun & Hsh' & Hent).
  - intros i j d Hi Hj.
    rewrite (dget_entryOf _ _ _ _ _ Hsh Hi Hj). reflexivity.
  - rewrite Hrun. cbn [bind]. eexists. split; [reflexivity | ].
    cbn [Matrix.rows Matrix.cols Matrix.data].
    split; [reflexivity | ]. split; [reflexivity | ].
    split; [split; [exact Hr | split; [exact Hc | exact Hsh']] | exact Hent].
Qed.

Lemma dagger_spec : forall m,
  wellFormedMatrix m ->
  exists t,
    Matrix.dagger m = Ok t /\
    Matrix.rows t = Matrix.cols m /\ Matrix.cols t = Matrix.rows m /\
    wellFormedMatrix t /\
    (forall i j, (0 <= i < Matrix.rows m)%Z -> (0 <= j < Matrix.cols m)%Z ->
       entryOf (Matrix.data t) j i
       = Complex.conjugate (entryOf (Matrix.data m) i j)).
Proof.
  intros m Hwf. unfold Matrix.dagger.
  destruct (conjugate_spec m Hwf) as (c & Hc & Hrc & Hcc & Hwfc & Hentc).
  destruct (transpose_spec c Hwfc) as (t & Ht & Hrt & Hct & Hwft & Hentt).
  rewrite Hc. cbn [bind]. exists t. split; [exact Ht | ].
  split; [congruence | ]. split; [congruence | ]. split; [exact Hwft | ].
  intros i j Hi Hj. rewrite Hentt by lia. apply Hentc; assumption.
Qed.

Lemma identity_spec : forall n,
  (0 <= n)%Z ->
  exists m,
    Matrix.identity n = Ok m /\
    Matrix.rows m = n /\ Matrix.cols m = n /\ wellFormedMatrix m /\
    (forall i j, (0 <= i < n)%Z -> (0 <= j < n)%Z ->
       entryOf (Matrix.data m) i j = delta i j).
Proof.
  intros n Hn. unfold Matrix.identity.
  destruct (for_range_indexed _
    (fun k d => shape n n d /\
       forall i j, (0 <= i < n)%Z -> (0 <= j < n)%Z ->
         entryOf d i j
         = if (i =? j)%Z && (i <? k)%Z then Complex.one else Complex.zero)
    (fun i d => Matrix.dset d i i Complex.one) n
    (Matrix.data (Matrix.new_ n n)) Hn)
    as (d' & Hrun & Hsh & Hent).
  - split; [apply new_wellFormed; assumption | ].
    intros i j Hi Hj.
    rewrite andb_comm.
    destruct (Z.ltb_spec i 0) as [F | _]; [lia | ]. cbn [andb].
    apply entryOf_new.
  - intros k d Hk [Hsh Hent].
    destruct (dset_spec n n d k k Complex.one Hsh Hk Hk)
      as (d2 & Hset & Hsh2 & Hsame & Hother).
    exists d2. split; [exact Hset | ]. split; [exact Hsh2 | ].
    intros i j Hi Hj.
    assert (He : Matrix.dget d2 i j = Ok (entryOf d2 i j))
      by (apply (dget_entryOf n n); assumption).
    destruct (Z.eq_dec i k) as [-> | Hik];
      [destruct (Z.eq_dec j k) as [-> | Hjk] | ].
    + rewrite Hsame in He. injection He as <-.
      rewrite Z.eqb_refl. destruct (Z.ltb_spec k (k + 1)); [reflexivity | lia].
    + rewrite Hother in He; [ | lia | lia | intro E; injection E; lia].
      rewrite (dget_entryOf n n) in He by assumption. injection He as <-.
      rewrite Hent by assumption.
      destruct (Z.eqb_spec k j); [lia | reflexivity].
    + rewrite Hother in He; [ | lia | lia | intro E; injection E; lia].
      rewrite (dget_entryOf n n) in He by assumption. injection He as <-.
      rewrite Hent by assumption.
      destruct (Z.eqb_spec i j); [ | reflexivity]. cbn [andb].
      destruct (Z.ltb_spec i k), (Z.ltb_spec i (k + 1)); try reflexivity; lia.
  - rewrite Hrun. cbn [bind]. eexists. split; [reflexivity | ].
    cbn [Matrix.rows Matrix.cols Matrix.data].
    split; [reflexivity | ]. split; [reflexivity | ].
    split; [split; [exact Hn | split; [exact Hn | exact Hsh]] | ].
    intros i j Hi Hj. rewrite Hent by assumption. unfold delta.
    destruct (Z.eqb_spec i j); [ | reflexivity].
    destruct (Z.ltb_spec i n); [reflexivity | lia].
Qed.

Lemma multiply_spec : forall a b,
  wellFormedMatrix a -> wellFormedMatrix b ->
  Matrix.cols a = Matrix.rows b ->
  exists p,
    Matrix.multiply a b = Ok p /\
    Matrix.rows p = Matrix.rows a /\ Matrix.cols p = Matrix.cols b /\
    wellFormedMatrix p /\
    (forall i j, (0 <= i < Matrix.rows a)%Z -> (0 <= j < Matrix.cols b)%Z ->
       entryOf (Matrix.data p) i j
       = dot (Matrix.cols a) (fun k => entryOf (Matrix.data a) i k)
                             (fun k => entryOf (Matrix.data b) k j)).
Proof.
  intros a b (Hra & Hca & Hsa) (Hrb & Hcb & Hsb) Hdim.
  unfold Matrix.multiply.
  destruct (Z.eqb_spec (Matrix.cols a) (Matrix.rows b)) as [_ | F];
    [ | contradiction].
  cbn [negb].
  destruct (grid_loops (Matrix.rows a) (Matrix.cols b)
              (Matrix.rows a) (Matrix.cols b)
              (fun i j => (i, j))
              (fun i j => dot (Matrix.cols a)
                            (fun k => entryOf (Matrix.data a) i k)
                            (fun k => entryOf (Matrix.data b) k j))
              (fun i j d =>
                 sum <- JS.for_range (Matrix.cols a) (fun k sum =>
                          x <- Matrix.dget (Matrix.data a) i k ;;
                          y <- Matrix.dget (Matrix.data b) k j ;;
                          Ok (Complex.add sum (Complex.multiply x y)))
                        Complex.zero ;;
                 Matrix.dset d i j sum)
              (Matrix.data (Matrix.new_ (Matrix.rows a) (Matrix.cols b)))
              Hra Hcb)
    as (d' & Hrun & Hsh' & Hent).
  - apply new_wellFormed; assumption.
  - intros i j Hi Hj. cbn [fst snd]. lia.
  - intros i j i' j' _ _ _ _ Heq. injection Heq as -> ->. split; reflexivity.
  - intros i j d Hi Hj. cbn [fst snd].
    rewrite (sum_loop (Matrix.cols a)
               (fun k => Complex.multiply (entryOf (Matrix.data a) i k)
                                          (entryOf (Matrix.data b) k j))).
    + reflexivity.
    + exact Hca.
    + intros k s Hk.
      rewrite (dget_entryOf _ _ _ _ _ Hsa Hi Hk). cbn [bind].
      rewrite (dget_entryOf _ _ _ k j Hsb) by lia. reflexivity.
  - rewrite Hrun. cbn [bind]. eexists. split; [reflexivity | ].
    cbn [Matrix.rows Matrix.cols Matrix.data].
    split; [reflexivity | ]. split; [reflexivity | ].
    split; [split; [exact Hra | split; [exact Hcb | exact Hsh']] | ].
    intros i j Hi Hj. specialize (Hent i j Hi Hj). cbn [fst snd] in Hent.
    rewrite (dget_entryOf _ _ _ _ _ Hsh') in Hent by lia.
    injection Hent as Hent. exact Hent.
Qed.

Lemma multiply_one_l : forall x, Complex.multiply Complex.one x = x.
Proof.
  intros [re im]. unfold Complex.multiply, Complex.one.
  cbn [Complex.real Complex.imag]. f_equal; ring.
Qed.

Lemma multiply_one_r : forall x, Complex.multiply x Complex.one = x.
Proof.
  intros [re im]. unfold Complex.multiply, Complex.one.
  cbn [Complex.real Complex.imag]. f_equal; ring.
Qed.

Lemma multiply_zero_l : forall x, Complex.multiply Complex.zero x = Complex.zero.
Proof.
  intros [re im]. unfold Complex.multiply, Complex.zero.
  cbn [Complex.real Complex.imag]. f_equal; ring.
Qed.

Lemma multiply_zero_r : forall x, Complex.multiply x Complex.zero = Complex.zero.
Proof.
  intros [re im]. unfold Complex.multiply, Complex.zero.
  cbn [Complex.real Complex.imag]. f_equal; ring.
Qed.

Lemma sum_delta_aux : forall (T : Z -> Complex.t) (i : Z) (l : list Z),
  NoDup l ->
  (forall k, In k l -> k <> i -> T k = Complex.zero) ->
  complexSum (map T l) = if existsb (Z.eqb i) l then T i else Complex.zero.
Proof.
  intros T i l Hnd. induction Hnd as [ | k l Hnotin Hnd IH]; intros Hz.
  - reflexivity.
  - cbn [map complexSum existsb].
    rewrite IH by (intros k' Hin Hne; apply Hz; [right; exact Hin | exact Hne]).
    destruct (Z.eqb_spec i k) as [-> | Hne]; cbn [orb].
    + destruct (existsb (Z.eqb k) l) eqn:Hex.
      * exfalso. apply Hnotin. apply existsb_exists in Hex.
        destruct Hex as (x & Hin & Hx). apply Z.eqb_eq in Hx. subst x.
        exact Hin.
      * apply add_zero_r.
    + rewrite (Hz k); [apply add_zero_l | left; reflexivity | congruence].
Qed.

Lemma sum_delta : forall (T : Z -> Complex.t) (n i : Z),
  (0 <= i < n)%Z ->
  (forall k, (0 <= k < n)%Z -> k <> i -> T k = Complex.zero) ->
  complexSum (map T (JS.arange n)) = T i.
Proof.
  intros T n i Hi Hz.
  rewrite (sum_delta_aux T i).
  - destruct (existsb (Z.eqb i) (JS.arange n)) eqn:Hex; [reflexivity | ].
    exfalso.
    assert (Hin : In i (JS.arange n)) by (apply arange_In; exact Hi).
    assert (Ht : existsb (Z.eqb i) (JS.arange n) = true).
    { apply existsb_exists. exists i. split; [exact Hin | apply Z.eqb_refl]. }
    congruence.
  - apply arange_NoDup.
  - intros k Hin Hne. apply Hz; [apply arange_In; exact Hin | exact Hne].
Qed.

Lemma matrix_ext : forall a b,
  wellFormedMatrix a -> wellFormedMatrix b ->
  Matrix.rows a = Matrix.rows b -> Matrix.cols a = Matrix.cols b ->
  (forall i j, (0 <= i < Matrix.rows a)%Z -> (0 <= j < Matrix.cols a)%Z ->
     entryOf (Matrix.data a) i j = entryOf (Matrix.data b) i j) ->
  a = b.
Proof.
  intros [ra ca da] [rb cb db] (_ & _ & Ha) (_ & _ & Hb).
  cbn [Matrix.rows Matrix.cols Matrix.data] in *.
  intros <- <- Hext. f_equal. apply (shape_ext ra ca); assumption.
Qed.

Lemma add_spec : forall a b,
  wellFormedMatrix a -> wellFormedMatrix b ->
  Matrix.rows a = Matrix.rows b -> Matrix.cols a = Matrix.cols b ->
  exists p,
    Matrix.add a b = Ok p /\
    Matrix.rows p = Matrix.rows a /\ Matrix.cols p = Matrix.cols a /\
    wellFormedMatrix p /\
    (forall i j, (0 <= i < Matrix.rows a)%Z -> (0 <= j < Matrix.cols a)%Z ->
       entryOf (Matrix.data p) i j
       = Complex.add (entryOf (Matrix.data a) i j)
                     (entryOf (Matrix.data b) i j)).
Proof.
  intros a b Hwa Hwb Hrows Hcols.
  pose proof Hwa as (Hra & Hca & Hsa). pose proof Hwb as (Hrb & Hcb & Hsb).
  unfold Matrix.add.
  rewrite <- Hrows, <- Hcols, !Z.eqb_refl. cbn [negb orb].
  destruct (pointwise_spec a
              (fun i j => Complex.add (entryOf (Matrix.data a) i j)
                                      (entryOf (Matrix.data b) i j))
              (fun i j d => x <- Matrix.dget (Matrix.data a) i j ;;
                            y <- Matrix.dget (Matrix.data b) i j ;;
                            Matrix.dset d i j (Complex.add x y)) Hwa)
    as (d' & Hrun & Hsh' & Hent).
  - intros i j d Hi Hj.
    rewrite (dget_entryOf _ _ _ _ _ Hsa Hi Hj). cbn [bind].
    rewrite (dget_entryOf _ _ _ i j Hsb) by lia. reflexivity.
  - rewrite Hrun. cbn [bind]. eexists. split; [reflexivity | ].
    cbn [Matrix.rows Matrix.cols Matrix.data].
    split; [reflexivity | ]. split; [reflexivity | ].
    split; [split; [exact Hra | split; [exact Hca | exact Hsh']] | exact Hent].
Qed.

Lemma trace_spec : forall m,
  wellFormedMatrix m ->
  Matrix.trace m
  = Ok (complexSum (map (fun i => entryOf (Matrix.data m) i i)
                        (JS.arange (Z.min (Matrix.rows m) (Matrix.cols m))))).
Proof.
  intros m (Hr & Hc & Hsh). unfold Matrix.trace.
  apply sum_loop; [lia | ].
  intros k s Hk. rewrite (dget_entryOf _ _ _ _ _ Hsh) by lia. reflexivity.
Qed.

Lemma map_ext_arange : forall (A : Type) (f g : Z -> A) (n : Z),
  (forall i, (0 <= i < n)%Z -> f i = g i) ->
  map f (JS.arange n) = map g (JS.arange n).
Proof.
  intros A f g n H. apply map_ext_in. intros i Hi. apply H.
  apply arange_In. exact Hi.
Qed.

Ltac wf_matrix :=
  unfold wellFormedMatrix, shape, JS.alength; simpl;
  repeat split; try lia; try reflexivity; repeat constructor.

(** X5. [multiply] raises the dimension error exactly when the column
    count of the left matrix differs from the row count of the right one;
    otherwise the product has the rows of the left and the columns of the
    right matrix, and entry (i, j) is the sum over k of the products of
    entry (i, k) and entry (k, j). *)
Theorem multiply_entries : forall a b : Matrix.t,
  wellFormedMatrix a -> wellFormedMatrix b ->
  (Matrix.cols a <> Matrix.rows b ->
   Matrix.multiply a b = Err DimensionMismatch) /\
  (Matrix.cols a = Matrix.rows b ->
   exists p,
     Matrix.multiply a b = Ok p /\
     Matrix.rows p = Matrix.rows a /\ Matrix.cols p = Matrix.cols b /\
     wellFormedMatrix p /\
     (forall i j, (0 <= i < Matrix.rows a)%Z -> (0 <= j < Matrix.cols b)%Z ->
        entryOf (Matrix.data p) i j
        = dot (Matrix.cols a) (fun k => entryOf (Matrix.data a) i k)
                              (fun k => entryOf (Matrix.data b) k j))).
Proof.
  intros a b Ha Hb. split.
  - intros Hne. unfold Matrix.multiply.
    destruct (Z.eqb_spec (Matrix.cols a) (Matrix.rows b)); [contradiction | ].
    reflexivity.
  - intros Heq. apply multiply_spec; assumption.
Qed.

Lemma multiply_entries_witness :
  exists p, Matrix.multiply pauliXMatrix pauliXMatrix = Ok p /\
            Matrix.rows p = 2%Z.
Proof.
  assert (Hwf : wellFormedMatrix pauliXMatrix) by wf_matrix.
  destruct (multiply_entries pauliXMatrix pauliXMatrix Hwf Hwf) as [_ H].
  destruct (H eq_refl) as (p & Hp & Hr & _).
  exists p. split; [exact Hp | exact Hr].
Defined.

Lemma multiply_identity_l : forall (m il : Matrix.t),
  wellFormedMatrix m ->
  Matrix.identity (Matrix.rows m) = Ok il ->
  Matrix.multiply il m = Ok m.
Proof.
  intros m il Hwf Hil. pose proof Hwf as (Hr & Hc & Hsh).
  destruct (identity_spec (Matrix.rows m) Hr)
    as (il' & Hil' & Hril & Hcil & Hwil & Heil).
  rewrite Hil in Hil'. injection Hil' as <-.
  destruct (multiply_spec il m Hwil Hwf) as (p & Hp & Hrp & Hcp & Hwp & Hep);
    [congruence | ].
  rewrite Hp. f_equal.
  apply matrix_ext; try assumption; try congruence.
  intros i j Hi Hj. rewrite Hep by (try rewrite <- Hrp; try rewrite <- Hcp; lia).
  unfold dot. rewrite Hcil.
  rewrite (sum_delta _ (Matrix.rows m) i).
  - rewrite Heil by lia. unfold delta. rewrite Z.eqb_refl.
    apply multiply_one_l.
  - lia.
  - intros k Hk Hne. rewrite Heil by lia. unfold delta.
    destruct (Z.eqb_spec i k); [congruence | apply multiply_zero_l].
Qed.

Lemma multiply_identity_r : forall (m ir : Matrix.t),
  wellFormedMatrix m ->
  Matrix.identity (Matrix.cols m) = Ok ir ->
  Matrix.multiply m ir = Ok m.
Proof.
  intros m ir Hwf Hir. pose proof Hwf as (Hr & Hc & Hsh).
  destruct (identity_spec (Matrix.cols m) Hc)
    as (ir' & Hir' & Hrir & Hcir & Hwir & Heir).
  rewrite Hir in Hir'. injection Hir' as <-.
  destruct (multiply_spec m ir Hwf Hwir) as (p & Hp & Hrp & Hcp & Hwp & Hep);
    [congruence | ].
  rewrite Hp. f_equal.
  apply matrix_ext; try assumption; try congruence.
  intros i j Hi Hj. rewrite Hep by (try rewrite <- Hrp; try rewrite <- Hcp; lia).
  unfold dot.
  rewrite (sum_delta _ (Matrix.cols m) j).
  - rewrite Heir by lia. unfold delta. rewrite Z.eqb_refl.
    apply multiply_one_r.
  - lia.
  - intros k Hk Hne. rewrite Heir by lia. unfold delta.
    destruct (Z.eqb_spec k j); [congruence | apply multiply_zero_r].
Qed.

(** X6. The identity matrix is neutral for [multiply] on both sides. *)
Theorem multiply_identity_neutral : forall m : Matrix.t,
  wellFormedMatrix m ->
  exists il ir,
    Matrix.identity (Matrix.rows m) = Ok il /\
    Matrix.identity (Matrix.cols m) = Ok ir /\
    Matrix.multiply il m = Ok m /\
    Matrix.multiply m ir = Ok m.
Proof.
  intros m Hwf. pose proof Hwf as (Hr & Hc & _).
  destruct (identity_spec (Matrix.rows m) Hr) as (il & Hil & _).
  destruct (identity_spec (Matrix.cols m) Hc) as (ir & Hir & _).
  exists il, ir. split; [exact Hil | ]. split; [exact Hir | ]. split.
  - apply multiply_identity_l; assumption.
  - apply multiply_identity_r; assumption.
Qed.

Lemma multiply_identity_neutral_witness :
  exists il ir,
    Matrix.identity 2 = Ok il /\ Matrix.identity 2 = Ok ir /\
    Matrix.multiply il pauliXMatrix = Ok pauliXMatrix /\
    Matrix.multiply pauliXMatrix ir = Ok pauliXMatrix.
Proof.
  apply (multiply_identity_neutral pauliXMatrix). wf_matrix.
Defined.

Lemma conjugate_involutive : forall x,
  Complex.conjugate (Complex.conjugate x) = x.
Proof.
  intros [re im]. unfold Complex.conjugate. cbn [Complex.real Complex.imag].
  f_equal. ring.
Qed.

(** X7. Transposing twice, and taking the conjugate transpose twice, give
    the matrix back. *)
Theorem transpose_dagger_involutive : forall m : Matrix.t,
  wellFormedMatrix m ->
  (exists t, Matrix.transpose m = Ok t /\ Matrix.transpose t = Ok m) /\
  (exists t, Matrix.dagger m = Ok t /\ Matrix.dagger t = Ok m).
Proof.
  intros m Hwf. split.
  - destruct (transpose_spec m Hwf) as (t & Ht & Hrt & Hct & Hwt & Het).
    destruct (transpose_spec t Hwt) as (u & Hu & Hru & Hcu & Hwu & Heu).
    exists t. split; [exact Ht | ]. rewrite Hu. f_equal.
    apply matrix_ext; try assumption; try congruence.
    intros i j Hi Hj. rewrite Heu by lia. apply Het; lia.
  - destruct (dagger_spec m Hwf) as (t & Ht & Hrt & Hct & Hwt & Het).
    destruct (dagger_spec t Hwt) as (u & Hu & Hru & Hcu & Hwu & Heu).
    exists t. split; [exact Ht | ]. rewrite Hu. f_equal.
    apply matrix_ext; try assumption; try congruence.
    intros i j Hi Hj. rewrite Heu by lia. rewrite Het by lia.
    apply conjugate_involutive.
Qed.

Lemma transpose_dagger_involutive_witness :
  (exists t, Matrix.transpose pauliXMatrix = Ok t /\
             Matrix.transpose t = Ok pauliXMatrix) /\
  (exists t, Matrix.dagger pauliXMatrix = Ok t /\
             Matrix.dagger t = Ok pauliXMatrix).
Proof.
  apply (transpose_dagger_involutive pauliXMatrix). wf_matrix.
Defined.

Lemma add_comm : forall a b, Complex.add a b = Complex.add b a.
Proof.
  intros [ar ai] [br bi]. unfold Complex.add. cbn [Complex.real Complex.imag].
  f_equal; ring.
Qed.

(** X8. [add] raises the dimension error exactly when the row or the column
    counts differ, and is commutative. *)
Theorem add_commutative : forall a b : Matrix.t,
  wellFormedMatrix a -> wellFormedMatrix b ->
  Matrix.add a b = Matrix.add b a /\
  (Matrix.add a b = Err DimensionMismatch <->
   Matrix.rows a <> Matrix.rows b \/ Matrix.cols a <> Matrix.cols b).
Proof.
  intros a b Ha Hb.
  destruct (Z.eq_dec (Matrix.rows a) (Matrix.rows b)) as [Hr | Hr];
    [destruct (Z.eq_dec (Matrix.cols a) (Matrix.cols b)) as [Hc | Hc] | ].
  - destruct (add_spec a b Ha Hb Hr Hc) as (p & Hp & Hrp & Hcp & Hwp & Hep).
    destruct (add_spec b a Hb Ha (eq_sym Hr) (eq_sym Hc))
      as (q & Hq & Hrq & Hcq & Hwq & Heq).
    split.
    + rewrite Hp, Hq. f_equal.
      apply matrix_ext; try assumption; try congruence.
      intros i j Hi Hj. rewrite Hep by lia. rewrite Heq by lia.
      apply add_comm.
    + rewrite Hp. split; [discriminate | intros [F | F]; contradiction].
  - assert (Hab : Matrix.add a b = Err DimensionMismatch).
    { unfold Matrix.add.
      destruct (Z.eqb_spec (Matrix.cols a) (Matrix.cols b)); [contradiction | ].
      rewrite orb_true_r. reflexivity. }
    assert (Hba : Matrix.add b a = Err DimensionMismatch).
    { unfold Matrix.add.
      destruct (Z.eqb_spec (Matrix.cols b) (Matrix.cols a)); [congruence | ].
      rewrite orb_true_r. reflexivity. }
    split; [congruence | ]. split; [intros _; right; exact Hc | intros _; exact Hab].
  - assert (Hab : Matrix.add a b = Err DimensionMismatch).
    { unfold Matrix.add.
      destruct (Z.eqb_spec (Matrix.rows a) (Matrix.rows b)); [contradiction | ].
      reflexivity. }
    assert (Hba : Matrix.add b a = Err DimensionMismatch).
    { unfold Matrix.add.
      destruct (Z.eqb_spec (Matrix.rows b) (Matrix.rows a)); [congruence | ].
      reflexivity. }
    split; [congruence | ]. split; [intros _; left; exact Hr | intros _; exact Hab].
Qed.

Lemma add_commutative_witness :
  Matrix.add pauliXMatrix (Matrix.new_ 2 2)
  = Matrix.add (Matrix.new_ 2 2) pauliXMatrix.
Proof.
  apply (add_commutative pauliXMatrix (Matrix.new_ 2 2)); wf_matrix.
Defined.

(** X9. [multiplyScalar] on a matrix whose grid has the recorded shape
    returns a matrix of the same shape whose entry [(i, j)] is the entry of
    the matrix multiplied, by [Complex.multiply], with the scalar. *)
Theorem multiplyScalar_entries : forall (m : Matrix.t) (s : Complex.t),
  wellFormedMatrix m ->
  exists p,
    Matrix.multiplyScalar m s = Ok p /\
    Matrix.rows p = Matrix.rows m /\ Matrix.cols p = Matrix.cols m /\
    wellFormedMatrix p /\
    (forall i j, (0 <= i < Matrix.rows m)%Z -> (0 <= j < Matrix.cols m)%Z ->
       entryOf (Matrix.data p) i j
       = Complex.multiply (entryOf (Matrix.data m) i j) s).
Proof.
  intros m s Hwf. pose proof Hwf as (Hr & Hc & Hsh).
  unfold Matrix.multiplyScalar.
  destruct (pointwise_spec m
              (fun i j => Complex.multiply (entryOf (Matrix.data m) i j) s)
              (fun i j d => v <- Matrix.dget (Matrix.data m) i j ;;
                            Matrix.dset d i j (Complex.multiply v s)) Hwf)
    as (d' & Hrun & Hsh' & Hent).
  - intros i j d Hi Hj.
    rewrite (dget_entryOf _ _ _ _ _ Hsh Hi Hj). reflexivity.
  - rewrite Hrun. cbn [bind]. eexists. split; [reflexivity | ].
    cbn [Matrix.rows Matrix.cols Matrix.data].
    split; [reflexivity | ]. split; [reflexivity | ].
    split; [split; [exact Hr | split; [exact Hc | exact Hsh']] | exact Hent].
Qed.

Lemma multiplyScalar_entries_witness :
  exists p,
    Matrix.multiplyScalar pauliXMatrix (Complex.mk 0 1) = Ok p /\
    entryOf (Matrix.data p) 0 1
    = Complex.multiply (Complex.mk 1 0) (Complex.mk 0 1).
Proof.
  destruct (multiplyScalar_entries pauliXMatrix (Complex.mk 0 1))
    as (p & Hp & _ & _ & _ & Hep); [wf_matrix |].
  exists p. split; [exact Hp |].
  apply (Hep 0%Z 1%Z); cbn [Matrix.rows Matrix.cols pauliXMatrix]; lia.
Defined.

Lemma complexSum_ones : forall (n : nat),
  complexSum (map (fun _ : Z => Complex.one) (map Z.of_nat (seq 0 n)))
  = Complex.mk (INR n) 0.
Proof.
  intros n. generalize 0%nat.
  induction n as [ | n IH]; intros off.
  - reflexivity.
  - cbn [seq map complexSum]. rewrite IH. rewrite S_INR.
    unfold Complex.add, Complex.one. cbn [Complex.real Complex.imag].
    f_equal; ring.
Qed.

(** X10. The trace of the identity of size n is n, and the trace of a
    matrix is the trace of its transpose. *)
Theorem trace_identity_and_transpose :
  (forall n : Z, (0 <= n)%Z ->
     exists m, Matrix.identity n = Ok m /\
               Matrix.trace m = Ok (Complex.mk (IZR n) 0)) /\
  (forall m : Matrix.t, wellFormedMatrix m ->
     exists t, Matrix.transpose m = Ok t /\ Matrix.trace t = Matrix.trace m).
Proof.
  split.
  - intros n Hn.
    destruct (identity_spec n Hn) as (m & Hm & Hrm & Hcm & Hwm & Hem).
    exists m. split; [exact Hm | ].
    rewrite (trace_spec m Hwm). rewrite Hrm, Hcm, Z.min_id.
    rewrite (map_ext_arange _ _ (fun _ => Complex.one)).
    + unfold JS.arange. rewrite complexSum_ones.
      rewrite INR_IZR_INZ, Z2Nat.id by lia. reflexivity.
    + intros i Hi. rewrite Hem by lia. unfold delta.
      rewrite Z.eqb_refl. reflexivity.
  - intros m Hwf.
    destruct (transpose_spec m Hwf) as (t & Ht & Hrt & Hct & Hwt & Het).
    exists t. split; [exact Ht | ].
    rewrite (trace_spec m Hwf), (trace_spec t Hwt).
    rewrite Hrt, Hct, Z.min_comm. f_equal. f_equal.
    apply map_ext_arange. intros i Hi. apply Het; lia.
Qed.

Lemma trace_identity_and_transpose_witness :
  exists m, Matrix.identity 2 = Ok m /\
            Matrix.trace m = Ok (Complex.mk (IZR 2) 0).
Proof.
  apply (proj1 trace_identity_and_transpose 2%Z). lia.
Defined.

Lemma for_from_error :
  forall (S : Type) (E : error) (body : Z -> S -> result S),
    (forall i s e, body i s = Err e -> e = E) ->
    forall (k : nat) (lo : Z) (s : S) (e : error),
      JS.for_from k lo body s = Err e -> e = E.
Proof.
  intros S E body Hbody k. induction k as [ | k IH]; intros lo s e H.
  - discriminate.
  - cbn [JS.for_from] in H.
    destruct (body lo s) as [s' | e'] eqn:Hb; cbn [bind] in H.
    + eapply IH; eauto.
    + injection H as <-. eapply Hbody; eauto.
Qed.

Lemma aget_error : forall (A : Type) (l : list A) (i : Z) (e : error),
  JS.aget l i = Err e -> e = TypeErrorUndefined.
Proof.
  intros A l i e. unfold JS.aget.
  destruct (i <? 0)%Z; [congruence | ].
  destruct (nth_error l (Z.to_nat i)); congruence.
Qed.

Lemma dget_error : forall d i j e,
  Matrix.dget d i j = Err e -> e = TypeErrorUndefined.
Proof.
  intros d i j e. unfold Matrix.dget.
  destruct (JS.aget d i) as [row | e'] eqn:Hr; cbn [bind].
  - apply aget_error.
  - intros H. injection H as <-. eapply aget_error; eauto.
Qed.

Lemma minor_error : forall m row col e,
  Matrix.minor m row col = Err e -> e = TypeErrorUndefined.
Proof.
  intros m row col e. unfold Matrix.minor.
  match goal with
  | |- bind ?loop _ = _ -> _ => destruct loop as [minorData | e'] eqn:Hloop
  end; cbn [bind].
  - unfold Matrix.fromArray.
    destruct (JS.aget (map (map VComplex) minorData) 0) as [r0 | e'] eqn:H0;
      cbn [bind]; [discriminate | ].
    intros H. injection H as <-. eapply aget_error; eauto.
  - intros H. injection H as <-.
    unfold JS.for_range in Hloop.
    eapply for_from_error; [ | exact Hloop].
    intros i s e0. cbv beta.
    destruct (i =? row)%Z; [discriminate | ].
    match goal with
    | |- bind ?loop _ = _ -> _ => destruct loop as [minorRow | e1] eqn:Hin
    end; cbn [bind]; [discriminate | ].
    intros H. injection H as <-.
    unfold JS.for_range in Hin.
    eapply for_from_error; [ | exact Hin].
    intros j s0 e2. cbv beta.
    destruct (j =? col)%Z; [discriminate | ].
    destruct (JS.aget (Matrix.data m) i) as [r | e3] eqn:Hr; cbn [bind];
      [discriminate | ].
    intros H. injection H as <-. eapply aget_error; eauto.
Qed.

(** X11. [determinant] raises the square-matrix error when the row and
    column counts differ; for a square matrix of three rows or more it
    raises a [TypeError] whatever the entries are, the Laplace loop calling
    a method the class [Complex] does not have; with no rows it is zero. *)
Theorem determinant_edge_cases : forall m : Matrix.t,
  (Matrix.rows m <> Matrix.cols m -> Matrix.determinant m = Err NotSquare) /\
  (Matrix.rows m = Matrix.cols m -> (3 <= Matrix.rows m)%Z ->
   Matrix.determinant m = Err TypeErrorUndefined) /\
  (Matrix.rows m = Matrix.cols m -> (Matrix.rows m <= 0)%Z ->
   Matrix.determinant m = Ok (Complex.mk 0 0)).
Proof.
  intros m. unfold Matrix.determinant. split; [ | split].
  - intros Hne.
    destruct (Z.eqb_spec (Matrix.rows m) (Matrix.cols m)); [contradiction | ].
    reflexivity.
  - intros Heq H3. rewrite <- Heq, Z.eqb_refl. cbn [negb].
    destruct (Z.eqb_spec (Matrix.rows m) 1); [lia | ].
    destruct (Z.eqb_spec (Matrix.rows m) 2); [lia | ].
    unfold JS.for_range.
    destruct (Z.to_nat (Matrix.rows m)) as [ | k] eqn:Hk; [lia | ].
    cbn [JS.for_from].
    destruct (Matrix.minor m 0 0) as [mn | e] eqn:Hmn; cbn [bind].
    + destruct (Matrix.dget (Matrix.data m) 0 0) as [v | e] eqn:Hv;
        cbn [bind]; [reflexivity | ].
      f_equal. eapply dget_error; eauto.
    + f_equal. eapply minor_error; eauto.
  - intros Heq H0. rewrite <- Heq, Z.eqb_refl. cbn [negb].
    destruct (Z.eqb_spec (Matrix.rows m) 1); [lia | ].
    destruct (Z.eqb_spec (Matrix.rows m) 2); [lia | ].
    unfold JS.for_range.
    destruct (Z.to_nat (Matrix.rows m)) as [ | k] eqn:Hk; [reflexivity | lia].
Qed.

Lemma determinant_edge_cases_witness :
  exists m, QuantumGates.CNOT = Ok m /\
            Matrix.determinant m = Err TypeErrorUndefined.
Proof.
  eexists. split; [reflexivity | ].
  apply determinant_edge_cases; [reflexivity | ].
  cbn [Matrix.rows]. unfold JS.alength. cbn [List.length]. lia.
Defined.



Lemma conjugate_multiply : forall x y,
  Complex.conjugate (Complex.multiply x y)
  = Complex.multiply (Complex.conjugate y) (Complex.conjugate x).
Proof.
  intros [xr xi] [yr yi]. unfold Complex.conjugate, Complex.multiply.
  cbn [Complex.real Complex.imag]. f_equal; ring.
Qed.

Lemma conjugate_add : forall x y,
  Complex.conjugate (Complex.add x y)
  = Complex.add (Complex.conjugate x) (Complex.conjugate y).
Proof.
  intros [xr xi] [yr yi]. unfold Complex.conjugate, Complex.add.
  cbn [Complex.real Complex.imag]. f_equal; ring.
Qed.

Lemma conjugate_complexSum : forall l,
  Complex.conjugate (complexSum l) = complexSum (map Complex.conjugate l).
Proof.
  induction l as [ | x l IH]; cbn [complexSum map].
  - unfold Complex.conjugate, Complex.zero. cbn [Complex.real Complex.imag].
    f_equal. ring.
  - rewrite conjugate_add, IH. reflexivity.
Qed.

(** X13. The conjugate transpose of a product is the product of the
    conjugate transposes in the opposite order. *)
Theorem dagger_of_product : forall a b : Matrix.t,
  wellFormedMatrix a -> wellFormedMatrix b ->
  Matrix.cols a = Matrix.rows b ->
  exists p pd ad bd,
    Matrix.multiply a b = Ok p /\ Matrix.dagger p = Ok pd /\
    Matrix.dagger a = Ok ad /\ Matrix.dagger b = Ok bd /\
    Matrix.multiply bd ad = Ok pd.
Proof.
  intros a b Ha Hb Hdim.
  pose proof Ha as (Hra & Hca & _). pose proof Hb as (Hrb & Hcb & _).
  destruct (multiply_spec a b Ha Hb Hdim) as (p & Hp & Hrp & Hcp & Hwp & Hep).
  destruct (dagger_spec p Hwp) as (pd & Hpd & Hrpd & Hcpd & Hwpd & Hepd).
  destruct (dagger_spec a Ha) as (ad & Had & Hrad & Hcad & Hwad & Head).
  destruct (dagger_spec b Hb) as (bd & Hbd & Hrbd & Hcbd & Hwbd & Hebd).
  destruct (multiply_spec bd ad Hwbd Hwad) as (q & Hq & Hrq & Hcq & Hwq & Heq);
    [congruence | ].
  exists p, pd, ad, bd. repeat (split; [assumption | ]).
  rewrite Hq. f_equal.
  apply matrix_ext; try assumption; try congruence.
  intros j i Hj Hi.
  rewrite Heq by (try rewrite <- Hrq; try rewrite <- Hcq; lia).
  rewrite Hepd by (rewrite Hrp || rewrite Hcp; lia).
  rewrite Hep by lia.
  unfold dot. rewrite conjugate_complexSum, map_map.
  rewrite Hcbd, Hdim. f_equal.
  apply map_ext_arange. intros k Hk.
  rewrite conjugate_multiply.
  rewrite Hebd by lia. rewrite Head by lia. reflexivity.
Qed.

Lemma dagger_of_product_witness :
  exists p pd ad bd,
    Matrix.multiply pauliXMatrix pauliXMatrix = Ok p /\
    Matrix.dagger p = Ok pd /\
    Matrix.dagger pauliXMatrix = Ok ad /\
    Matrix.dagger pauliXMatrix = Ok bd /\
    Matrix.multiply bd ad = Ok pd.
Proof.
  apply (dagger_of_product pauliXMatrix pauliXMatrix);
    try reflexivity; wf_matrix.
Defined.

Lemma filter_loop :
  forall (A : Type) (n skip : Z) (G : Z -> A)
         (body : Z -> list A -> result (list A)),
    (0 <= n)%Z ->
    (forall i acc, (0 <= i < n)%Z ->
       body i acc = if (i =? skip)%Z then Ok acc else Ok (acc ++ [G i])) ->
    JS.for_range n body []
    = Ok (map G (filter (fun i => negb (i =? skip)%Z) (JS.arange n))).
Proof.
  intros A n skip G body Hn Hbody.
  destruct (for_range_indexed _
    (fun k acc =>
       acc = map G (filter (fun i => negb (i =? skip)%Z) (JS.arange k)))
    body n [] Hn) as (acc & Hrun & Hacc).
  - reflexivity.
  - intros k acc Hk ->. rewrite Hbody by exact Hk.
    rewrite arange_succ by lia. rewrite filter_app. cbn [filter].
    destruct (k =? skip)%Z; cbn [negb].
    + eexists. split; [reflexivity | ]. rewrite app_nil_r. reflexivity.
    + eexists. split; [reflexivity | ]. rewrite map_app. reflexivity.
  - rewrite Hrun, Hacc. reflexivity.
Qed.

Lemma filter_arange_skip : forall (m : nat) (skip : Z),
  (0 <= skip)%Z ->
  filter (fun i => negb (i =? skip)%Z) (JS.arange (Z.of_nat m))
  = if (Z.of_nat m <=? skip)%Z then JS.arange (Z.of_nat m)
    else map (skipOver skip) (JS.arange (Z.of_nat m - 1)).
Proof.
  intros m skip Hs. induction m as [ | m IH].
  - destruct (Z.of_nat 0 <=? skip)%Z; reflexivity.
  - rewrite Nat2Z.inj_succ. unfold Z.succ.
    rewrite arange_succ by lia. rewrite filter_app, IH. cbn [filter].
    destruct (Z.leb_spec (Z.of_nat m) skip) as [Hle | Hgt].
    + destruct (Z.eqb_spec (Z.of_nat m) skip) as [Heq | Hne]; cbn [negb].
      * destruct (Z.leb_spec (Z.of_nat m + 1) skip); [lia | ].
        rewrite app_nil_r.
        replace (Z.of_nat m + 1 - 1)%Z with (Z.of_nat m) by lia.
        rewrite <- (map_id (JS.arange (Z.of_nat m))) at 1.
        apply map_ext_in. intros k Hk. apply arange_In in Hk.
        unfold skipOver. destruct (Z.ltb_spec k skip); [reflexivity | lia].
      * destruct (Z.leb_spec (Z.of_nat m + 1) skip); [reflexivity | lia].
    + destruct (Z.eqb_spec (Z.of_nat m) skip) as [Heq | Hne]; [lia | ].
      cbn [negb].
      destruct (Z.leb_spec (Z.of_nat m + 1) skip); [lia | ].
      replace (Z.of_nat m + 1 - 1)%Z with (Z.of_nat m - 1 + 1)%Z by lia.
      rewrite (arange_succ (Z.of_nat m - 1)) by lia.
      rewrite map_app. cbn [map]. f_equal. f_equal.
      unfold skipOver. destruct (Z.ltb_spec (Z.of_nat m - 1) skip); lia.
Qed.

Lemma filter_arange_inside : forall n skip,
  (0 <= skip < n)%Z ->
  filter (fun i => negb (i =? skip)%Z) (JS.arange n)
  = map (skipOver skip) (JS.arange (n - 1)).
Proof.
  intros n skip Hs.
  rewrite <- (Z2Nat.id n) at 1 by lia.
  rewrite filter_arange_skip by lia. rewrite Z2Nat.id by lia.
  destruct (Z.leb_spec n skip); [lia | reflexivity].
Qed.

Lemma nth_map_arange : forall (A : Type) (f : Z -> A) (n k : Z) (d : A),
  (0 <= k < n)%Z -> nth (Z.to_nat k) (map f (JS.arange n)) d = f k.
Proof.
  intros A f n k d Hk. unfold JS.arange. rewrite map_map.
  rewrite (nth_indep _ d (f (Z.of_nat 0))) by (rewrite length_map, length_seq; lia).
  rewrite (map_nth (fun x => f (Z.of_nat x)) (seq 0 (Z.to_nat n)) 0%nat).
  rewrite seq_nth by lia. f_equal. lia.
Qed.

Lemma aget_map_arange : forall (A : Type) (f : Z -> A) (n k : Z),
  (0 <= k < n)%Z -> JS.aget (map f (JS.arange n)) k = Ok (f k).
Proof.
  intros A f n k Hk. unfold JS.aget.
  destruct (Z.ltb_spec k 0); [lia | ].
  unfold JS.arange. rewrite map_map, nth_error_map.
  rewrite (nth_error_nth' _ 0%nat) by (rewrite length_seq; lia).
  rewrite seq_nth by lia. cbn [option_map]. do 2 f_equal. lia.
Qed.

Lemma length_map_arange : forall (A : Type) (f : Z -> A) (n : Z),
  (0 <= n)%Z -> JS.alength (map f (JS.arange n)) = n.
Proof.
  intros A f n Hn. unfold JS.alength, JS.arange.
  rewrite !length_map, length_seq. lia.
Qed.

Lemma skipOver_range : forall skip k n,
  (0 <= skip < n)%Z -> (0 <= k < n - 1)%Z -> (0 <= skipOver skip k < n)%Z.
Proof.
  intros skip k n Hs Hk. unfold skipOver.
  destruct (Z.ltb_spec k skip); lia.
Qed.

(** X14. [minor] leaves out one row and one column: for a matrix of two
    rows or more the result has one row and one column less, and its
    entries are those of the matrix with the given row and column stepped
    over; for a matrix of a single row it raises a [TypeError], no row
    being left to take the column count from. *)
Theorem minor_removes_row_and_column :
  forall (m : Matrix.t) (row col : Z),
    wellFormedMatrix m ->
    (0 <= row < Matrix.rows m)%Z -> (0 <= col < Matrix.cols m)%Z ->
    (Matrix.rows m = 1%Z -> Matrix.minor m row col = Err TypeErrorUndefined) /\
    ((2 <= Matrix.rows m)%Z ->
     exists mn : Matrix.t,
       Matrix.minor m row col = Ok mn /\
       Matrix.rows mn = (Matrix.rows m - 1)%Z /\
       Matrix.cols mn = (Matrix.cols m - 1)%Z /\
       wellFormedMatrix mn /\
       (forall i j, (0 <= i < Matrix.rows m - 1)%Z ->
                    (0 <= j < Matrix.cols m - 1)%Z ->
          entryOf (Matrix.data mn) i j
          = entryOf (Matrix.data m) (skipOver row i) (skipOver col j))).
Proof.
  intros m row col (Hr & Hc & Hsh) Hrow Hcol.
  set (rowOf := fun i =>
         map (fun j => entryOf (Matrix.data m) i j)
             (map (skipOver col) (JS.arange (Matrix.cols m - 1)))).
  assert (Hloop :
    JS.for_range (Matrix.rows m) (fun i minorData =>
      if (i =? row)%Z then Ok minorData
      else
        minorRow <- JS.for_range (Matrix.cols m) (fun j minorRow =>
          if (j =? col)%Z then Ok minorRow
          else
            r <- JS.aget (Matrix.data m) i ;;
            Ok (minorRow ++ [match (if (j <? 0)%Z then None
                                    else nth_error r (Z.to_nat j)) with
                             | Some c => c
                             | None => Complex.mk 0 0
                             end])) [] ;;
        Ok (minorData ++ [minorRow])) []
    = Ok (map rowOf (map (skipOver row) (JS.arange (Matrix.rows m - 1))))).
  { rewrite <- filter_arange_inside by exact Hrow.
    apply filter_loop; [exact Hr | ].
    intros i acc Hi. destruct (i =? row)%Z; [reflexivity | ].
    rewrite (filter_loop _ (Matrix.cols m) col
               (fun j => entryOf (Matrix.data m) i j)).
    - cbn [bind]. unfold rowOf.
      rewrite <- filter_arange_inside by exact Hcol. reflexivity.
    - exact Hc.
    - intros j mr Hj. destruct (j =? col)%Z; [reflexivity | ].
      pose proof (dget_entryOf _ _ _ i j Hsh Hi Hj) as Hget.
      unfold Matrix.dget in Hget.
      destruct (JS.aget (Matrix.data m) i) as [r | e]; cbn [bind] in *;
        [ | discriminate].
      unfold JS.aget in Hget.
      destruct (j <? 0)%Z; [discriminate | ].
      destruct (nth_error r (Z.to_nat j)); [ | discriminate].
      injection Hget as ->. reflexivity. }
  unfold Matrix.minor. cbv zeta. rewrite Hloop. cbn [bind].
  unfold Matrix.fromArray.
  rewrite !map_map.
  split.
  - intros H1. rewrite H1. reflexivity.
  - intros H2.
    assert (H0 : (0 <= 0 < Matrix.rows m - 1)%Z) by lia.
    rewrite aget_map_arange by exact H0.
    cbn [bind]. eexists. split; [reflexivity | ].
    cbn [Matrix.rows Matrix.cols Matrix.data].
    split; [apply length_map_arange; lia | ].
    split; [unfold rowOf; rewrite !map_map; apply length_map_arange; lia | ].
    assert (Hdata :
      map (fun x =>
             map (fun val => match val with
                             | VComplex c0 => c0
                             | VNumber x0 => Complex.mk x0 0
                             | VOther => Complex.mk 0 0
                             end)
                 (map VComplex (rowOf (skipOver row x))))
          (JS.arange (Matrix.rows m - 1))
      = map (fun x => rowOf (skipOver row x)) (JS.arange (Matrix.rows m - 1))).
    { apply map_ext. intros x. rewrite map_map. apply map_id. }
    rewrite Hdata.
    assert (Hrows : JS.alength
                      (map (fun x => map VComplex (rowOf (skipOver row x)))
                           (JS.arange (Matrix.rows m - 1)))
                    = (Matrix.rows m - 1)%Z)
      by (apply length_map_arange; lia).
    assert (Hcols : forall x,
              JS.alength (rowOf x) = (Matrix.cols m - 1)%Z).
    { intros x. unfold rowOf. rewrite map_map. apply length_map_arange. lia. }
    assert (Hcols0 : JS.alength (map VComplex (rowOf (skipOver row 0)))
                     = (Matrix.cols m - 1)%Z).
    { unfold JS.alength. rewrite length_map. apply Hcols. }
    split.
    + unfold wellFormedMatrix. cbn [Matrix.rows Matrix.cols Matrix.data].
      rewrite Hrows, Hcols0.
      split; [lia | ]. split; [lia | ]. split.
      * apply length_map_arange. lia.
      * apply Forall_forall. intros r Hin. apply in_map_iff in Hin.
        destruct Hin as (x & <- & _). apply Hcols.
    + intros i j Hi Hj. unfold entryOf at 1.
      rewrite (nth_map_arange _ (fun x => rowOf (skipOver row x))) by exact Hi.
      unfold rowOf. rewrite map_map.
      rewrite (nth_map_arange _
                 (fun x => entryOf (Matrix.data m) (skipOver row i)
                             (skipOver col x))) by exact Hj.
      reflexivity.
Qed.

Lemma minor_removes_row_and_column_witness :
  exists mn : Matrix.t,
    Matrix.minor pauliXMatrix 0 0 = Ok mn /\
    Matrix.rows mn = (Matrix.rows pauliXMatrix - 1)%Z.
Proof.
  destruct (minor_removes_row_and_column pauliXMatrix 0 0) as [_ H].
  - wf_matrix.
  - cbn. lia.
  - cbn. lia.
  - destruct H as (mn & H1 & H2 & _); [cbn; lia | ].
    exists mn. split; [exact H1 | exact H2].
Defined.


(** * The gates of the catalog *)

Lemma magnitude_subtract_self : forall x,
  Complex.magnitude (Complex.subtract x x) = 0%R.
Proof.
  intros [re im]. unfold Complex.magnitude, Complex.subtract.
  cbn [Complex.real Complex.imag].
  replace ((re - re) * (re - re) + (im - im) * (im - im))%R with 0%R by ring.
  apply sqrt_0.
Qed.

Lemma isUnitary_intro : forall (m : Matrix.t) (tol : R),
  wellFormedMatrix m -> Matrix.rows m = Matrix.cols m -> (0 <= tol)%R ->
  (forall i j, (0 <= i < Matrix.rows m)%Z -> (0 <= j < Matrix.rows m)%Z ->
     dot (Matrix.cols m)
         (fun k => entryOf (Matrix.data m) i k)
         (fun k => Complex.conjugate (entryOf (Matrix.data m) j k))
     = delta i j) ->
  Matrix.isUnitary m tol = Ok true.
Proof.
  intros m tol Hwf Hsq Htol Hdot. pose proof Hwf as (Hr & Hc & Hsh).
  unfold Matrix.isUnitary.
  destruct (dagger_spec m Hwf) as (d & Hd & Hrd & Hcd & Hwd & Hed).
  rewrite Hd. cbn [bind].
  destruct (multiply_spec m d Hwf Hwd) as (p & Hp & Hrp & Hcp & Hwp & Hep);
    [congruence | ].
  rewrite Hp. cbn [bind].
  destruct (identity_spec (Matrix.rows m) Hr)
    as (id & Hid & Hrid & Hcid & Hwid & Heid).
  rewrite Hid. cbn [bind].
  destruct Hwp as (_ & _ & Hshp). destruct Hwid as (_ & _ & Hshid).
  rewrite Hrp, Hcp, Hcd in Hshp. rewrite Hrid, Hcid in Hshid.
  match goal with
  | |- context [JS.for_range (Matrix.rows m) ?body true] =>
      destruct (for_range_indexed _ (fun _ ok => ok = true) body
                  (Matrix.rows m) true Hr) as (r & Hrun & ->)
  end.
  - reflexivity.
  - intros i ok Hi ->. cbn [negb].
    apply (for_range_indexed _ (fun _ ok => ok = true)); [exact Hc | reflexivity | ].
    intros j ok Hj ->. cbn [negb].
    assert (Hx : entryOf (Matrix.data p) i j = entryOf (Matrix.data id) i j).
    { rewrite Hep by (rewrite ?Hcd; lia).
      rewrite Heid by lia.
      rewrite <- (Hdot i j) by lia.
      unfold dot. f_equal.
      apply map_ext_arange. intros k Hk. rewrite Hed by lia. reflexivity. }
    rewrite (dget_entryOf _ _ _ _ _ Hshp) by lia. cbn [bind].
    rewrite (dget_entryOf _ _ _ _ _ Hshid) by lia. cbn [bind]. cbv zeta.
    rewrite Hx, magnitude_subtract_self.
    destruct (Rlt_dec tol 0) as [F | _]; [lra | ].
    eexists. split; reflexivity.
  - rewrite Hrun. reflexivity.
Qed.

Lemma inv_sqrt2_sq : (1 / sqrt 2 * (1 / sqrt 2) = 1 / 2)%R.
Proof.
  assert (H : (0 < sqrt 2)%R) by (apply sqrt_lt_R0; lra).
  assert (H2 : (sqrt 2 * sqrt 2 = 2)%R) by (apply sqrt_sqrt; lra).
  apply Rmult_eq_reg_l with (sqrt 2 * sqrt 2)%R; [ | nra].
  field_simplify; [ | lra]. lra.
Qed.

Ltac enum2 i :=
  let H := fresh in
  assert (H : (i = 0 \/ i = 1)%Z) by lia;
  destruct H as [-> | ->].

Ltac enum4 i :=
  let H := fresh in
  assert (H : (i = 0 \/ i = 1 \/ i = 2 \/ i = 3)%Z) by lia;
  destruct H as [-> | [-> | [-> | ->]]].

Ltac enum8 i :=
  let H := fresh in
  assert (H : (i = 0 \/ i = 1 \/ i = 2 \/ i = 3 \/
               i = 4 \/ i = 5 \/ i = 6 \/ i = 7)%Z) by lia;
  destruct H as [-> | [-> | [-> | [-> | [-> | [-> | [-> | ->]]]]]]].

Ltac entry_eval :=
  cbv -[Rlt_dec sqrt Rmult Rplus Rminus Ropp IZR Rdiv Rinv cos sin PI Rpower].

Ltac trig_facts :=
  repeat match goal with
         | |- context [cos ?a] =>
             let H := fresh "Htrig" in
             let c := fresh "c" in
             let s := fresh "s" in
             pose proof (sin2_cos2 a) as H; unfold Rsqr in H;
             set (c := cos a) in *; set (s := sin a) in *;
             clearbody c s
         end.

Ltac entry_solve :=
  entry_eval; f_equal;
  first [ lra
        | pose proof inv_sqrt2_sq;
          set (x := (1 / sqrt 2)%R) in *; clearbody x; nra
        | trig_facts; nra ].

Ltac unitary_by n enum :=
  apply isUnitary_intro;
  [ wf_matrix | reflexivity | lra
  | let i := fresh "i" in let j := fresh "j" in
    let Hi := fresh "Hi" in let Hj := fresh "Hj" in
    intros i j Hi Hj;
    change (Matrix.rows _) with n in Hi, Hj;
    enum i; enum j; entry_solve ].

Lemma Hadamard_unitary : forall m,
  QuantumGates.Hadamard = Ok m -> Matrix.isUnitary m 1e-10 = Ok true.
Proof.
  intros m H. injection H as <-. unitary_by 2%Z enum2.
Qed.

Lemma fixed_one_qubit_gates_unitary : forall g m,
  In g [QuantumGates.PauliX; QuantumGates.PauliY; QuantumGates.PauliZ;
        QuantumGates.Phase; QuantumGates.T] ->
  g = Ok m -> Matrix.isUnitary m 1e-10 = Ok true.
Proof.
  intros g m Hin H.
  cbn [In] in Hin.
  destruct Hin as [<- | [<- | [<- | [<- | [<- | []]]]]];
    injection H as <-; unitary_by 2%Z enum2.
Qed.

Lemma rotation_gates_unitary : forall theta m,
  QuantumGates.RotationX theta = Ok m \/
  QuantumGates.RotationY theta = Ok m \/
  QuantumGates.RotationZ theta = Ok m ->
  Matrix.isUnitary m 1e-10 = Ok true.
Proof.
  intros theta m [H | [H | H]]; injection H as <-; unitary_by 2%Z enum2.
Qed.

Lemma two_qubit_gates_unitary : forall g m,
  In g [QuantumGates.CNOT; QuantumGates.CZ; QuantumGates.SWAP] ->
  g = Ok m -> Matrix.isUnitary m 1e-10 = Ok true.
Proof.
  intros g m Hin H.
  cbn [In] in Hin.
  destruct Hin as [<- | [<- | [<- | []]]];
    injection H as <-; unitary_by 4%Z enum4.
Qed.

Lemma CRZ_unitary : forall angle m,
  QuantumGates.CRZ angle = Ok m -> Matrix.isUnitary m 1e-10 = Ok true.
Proof.
  intros angle m H. injection H as <-. unitary_by 4%Z enum4.
Qed.

Lemma three_qubit_gates_unitary : forall g m,
  In g [QuantumGates.Toffoli; QuantumGates.Fredkin] ->
  g = Ok m -> Matrix.isUnitary m 1e-10 = Ok true.
Proof.
  intros g m Hin H.
  cbn [In] in Hin.
  destruct Hin as [<- | [<- | []]];
    (cbv -[Rlt_dec sqrt Rmult Rplus Rminus Ropp IZR Rdiv Rinv cos sin PI Rpower]
       in H);
    injection H as <-; unitary_by 8%Z enum8.
Qed.

Lemma Rk_CPS_unitary : forall x m,
  QuantumGates.Rk x = Ok m \/ QuantumGates.ControlledPhaseShift x = Ok m ->
  Matrix.isUnitary m 1e-10 = Ok true.
Proof.
  intros x m [H | H].
  - injection H as <-. unitary_by 2%Z enum2.
  - cbv -[Rlt_dec sqrt Rmult Rplus Rminus Ropp IZR Rdiv Rinv cos sin PI Rpower]
      in H.
    injection H as <-. unitary_by 8%Z enum8.
Qed.

Ltac gate_branch H tac :=
  idtac;
  match type of H with
  | (if ?c then _ else _) = _ =>
      destruct c eqn:?; cbv iota in H; [tac | ]
  end.

Ltac with_param H tac :=
  idtac;
  match type of H with
  | (if ?c then _ else _) = _ =>
      destruct c eqn:?; cbv iota in H; [discriminate H | tac]
  end.

Lemma getGate_unitary :
  forall (name : string) (params : list R) (m : Matrix.t),
    QuantumGates.getGate name params = Ok m ->
    QuantumGates.toUpperCase name <> "U"%string ->
    Matrix.isUnitary m 1e-10 = Ok true.
Proof.
  intros name params m H Hne. unfold QuantumGates.getGate in H.
  gate_branch H ltac:(exact (Hadamard_unitary m H)).
  do 5 gate_branch H
    ltac:(eapply fixed_one_qubit_gates_unitary; [ | exact H]; cbn [In]; tauto).
  do 3 gate_branch H
    ltac:(with_param H
            ltac:(eapply rotation_gates_unitary; eauto)).
  do 2 gate_branch H
    ltac:(eapply two_qubit_gates_unitary; [ | exact H]; cbn [In]; tauto).
  gate_branch H ltac:(with_param H ltac:(eapply CRZ_unitary; eauto)).
  gate_branch H
    ltac:(eapply two_qubit_gates_unitary; [ | exact H]; cbn [In]; tauto).
  do 2 gate_branch H
    ltac:(eapply three_qubit_gates_unitary; [ | exact H]; cbn [In]; tauto).
  gate_branch H idtac.
  - exfalso. apply Hne.
    match goal with
    | Hu : QuantumGates.oneOf _ _ = true |- _ =>
        unfold QuantumGates.oneOf in Hu; cbn [existsb] in Hu;
        rewrite orb_false_r in Hu; apply String.eqb_eq in Hu; exact Hu
    end.
  - gate_branch H ltac:(with_param H ltac:(eapply Rk_CPS_unitary; eauto)).
    discriminate H.
Qed.

(** X15. Every matrix [getGate] returns under a name other than U passes
    [isUnitary] at the default tolerance, whatever the parameters are, and
    so does the matrix of [ControlledPhaseShift] for every angle. *)
Theorem gates_unitary_except_U :
  (forall (name : string) (params : list R) (m : Matrix.t),
     QuantumGates.getGate name params = Ok m ->
     QuantumGates.toUpperCase name <> "U"%string ->
     Matrix.isUnitary m 1e-10 = Ok true) /\
  (forall (phi : R) (m : Matrix.t),
     QuantumGates.ControlledPhaseShift phi = Ok m ->
     Matrix.isUnitary m 1e-10 = Ok true).
Proof.
  split.
  - exact getGate_unitary.
  - intros phi m H. apply (Rk_CPS_unitary phi m). right. exact H.
Qed.

Lemma gates_unitary_except_U_witness :
  exists m, QuantumGates.getGate "toffoli" [] = Ok m /\
            Matrix.isUnitary m 1e-10 = Ok true.
Proof.
  eexists. split; [reflexivity | ].
  apply (proj1 gates_unitary_except_U "toffoli"%string []); [reflexivity | ].
  cbn. discriminate.
Defined.

Ltac table_case :=
  eexists; split; [reflexivity | ];
  cbn [QuantumGates.params QuantumGates.qubits];
  intros params; split;
  [ intros Hlt;
    first
      [ exfalso; unfold JS.alength in Hlt; lia
      | destruct params as [ | x rest];
        [ reflexivity
        | exfalso; unfold JS.alength in Hlt; cbn [List.length] in Hlt; lia ] ]
  | intros Hge;
    try (destruct params as [ | x rest];
         [ exfalso; unfold JS.alength in Hge; cbn [List.length] in Hge; lia
         | ]);
    eexists; split; [reflexivity | ];
    split; [reflexivity | ]; split; [reflexivity | wf_matrix ] ].

(** X17. The metadata table agrees with the catalog: for each of the
    fourteen listed names, [getGate] asks for a parameter exactly when the
    table records one, and the matrix it builds is square with two to the
    power of the recorded qubit count as its size. *)
Theorem catalog_table_agrees_with_getGate : forall name : string,
  In name QuantumGates.getAllGates ->
  exists info : QuantumGates.GateInfo,
    QuantumGates.getGateInfo name = Some info /\
    forall params : list R,
      ((JS.alength params < QuantumGates.params info)%Z ->
       QuantumGates.getGate name params = Err MissingParameter) /\
      ((QuantumGates.params info <= JS.alength params)%Z ->
       exists m : Matrix.t,
         QuantumGates.getGate name params = Ok m /\
         Matrix.rows m = (2 ^ QuantumGates.qubits info)%Z /\
         Matrix.cols m = (2 ^ QuantumGates.qubits info)%Z /\
         wellFormedMatrix m).
Proof.
  intros name Hin. unfold QuantumGates.getAllGates in Hin. cbn [In] in Hin.
  repeat (destruct Hin as [<- | Hin]; [table_case | ]).
  contradiction.
Qed.

Lemma catalog_table_agrees_with_getGate_witness :
  exists info : QuantumGates.GateInfo,
    QuantumGates.getGateInfo "RX" = Some info /\
    QuantumGates.getGate "RX" [] = Err MissingParameter.
Proof.
  destruct (catalog_table_agrees_with_getGate "RX") as (info & Hinfo & H).
  - unfold QuantumGates.getAllGates. cbn [In]. tauto.
  - exists info. split; [exact Hinfo | ].
    apply (H []).
    injection Hinfo as <-. cbn. lia.
Defined.

(** X18. [compose] multiplies from the left in the order of the list,
    starting from the first gate; on an empty list it raises a
    [TypeError]. *)
Theorem compose_order :
  QuantumGates.compose [] = Err TypeErrorUndefined /\
  (forall (g : Matrix.t) (gs : list Matrix.t),
     wellFormedMatrix g -> Matrix.rows g = Matrix.cols g ->
     QuantumGates.compose (g :: gs)
     = fold_left (fun result gate => r <- result ;; Matrix.multiply gate r)
                 gs (Ok g)).
Proof.
  split; [reflexivity | ].
  intros g gs Hwf Hsq. unfold QuantumGates.compose.
  cbn [JS.aget Z.ltb Z.compare Z.to_nat nth_error bind].
  pose proof Hwf as (Hr & _).
  destruct (identity_spec (Matrix.rows g) Hr) as (il & Hil & _).
  rewrite Hil. cbn [bind fold_left].
  rewrite Hsq in Hil.
  rewrite (multiply_identity_r g il Hwf Hil). reflexivity.
Qed.

Lemma compose_order_witness :
  QuantumGates.compose [pauliXMatrix; pauliXMatrix]
  = Matrix.multiply pauliXMatrix pauliXMatrix.
Proof.
  refine (eq_trans
            (proj2 compose_order pauliXMatrix [pauliXMatrix] _ _) _).
  - wf_matrix.
  - reflexivity.
  - reflexivity.
Defined.


(** * Registers: basis states, measurement, density matrix and fidelity *)

Lemma basisState_length : forall d t,
  (0 <= d)%Z -> JS.alength (basisState d t) = d.
Proof.
  intros d t Hd. unfold JS.alength, basisState, JS.arange.
  rewrite !length_map, length_seq. lia.
Qed.

(** X19. [fromBasisState] builds the basis state of the given index: a
    well-formed register of norm one with amplitude one at that index and
    zero elsewhere; index zero gives the register the constructor builds. *)
Theorem fromBasisState_is_basis_state : forall n k : Z,
  (0 <= n <= 31)%Z -> (0 <= k < 2 ^ n)%Z ->
  QuantumState.amplitudes (QuantumState.fromBasisState n k)
  = basisState (2 ^ n) k /\
  wellFormedState (QuantumState.fromBasisState n k) /\
  squaredNorm (QuantumState.amplitudes (QuantumState.fromBasisState n k)) = 1%R /\
  QuantumState.fromBasisState n 0 = QuantumState.new_ n.
Proof.
  intros n k Hn Hk.
  assert (Hamps : QuantumState.amplitudes (QuantumState.fromBasisState n k)
                  = basisState (2 ^ n) k).
  { unfold QuantumState.fromBasisState, QuantumState.new_,
      QuantumState.with_amplitudes.
    cbn [QuantumState.amplitudes QuantumState.dimension].
    apply aset_afill_basis. exact Hk. }
  split; [exact Hamps | ]. split; [ | split].
  - unfold wellFormedState. rewrite Hamps.
    unfold QuantumState.fromBasisState, QuantumState.new_,
      QuantumState.with_amplitudes.
    cbn [QuantumState.numQubits QuantumState.dimension].
    split; [exact Hn | ]. split; [reflexivity | ].
    apply basisState_length. lia.
  - rewrite Hamps. apply squaredNorm_basisState. exact Hk.
  - reflexivity.
Qed.

Lemma fromBasisState_is_basis_state_witness :
  QuantumState.amplitudes (QuantumState.fromBasisState 2 3)
  = basisState (2 ^ 2) 3.
Proof.
  apply (fromBasisState_is_basis_state 2 3); lia.
Defined.

Ltac wf_state :=
  unfold wellFormedCircuit, wellFormedState, QuantumCircuit.new_,
    QuantumState.new_;
  cbn [QuantumCircuit.state QuantumCircuit.numQubits QuantumState.numQubits
       QuantumState.dimension QuantumState.amplitudes];
  repeat split; try lia; reflexivity.

Lemma scanCumulative_some : forall ps r i0 c i,
  QuantumState.scanCumulative ps r i0 c = Some i ->
  exists (k : nat) (p : R),
    i = (i0 + Z.of_nat k)%Z /\ nth_error ps k = Some p /\
    (~ (r < c)%R -> (0 < p)%R).
Proof.
  induction ps as [ | p ps IH]; intros r i0 c i H;
    cbn [QuantumState.scanCumulative] in H; [discriminate | ].
  destruct (Rlt_dec r (c + p)) as [Hlt | Hge].
  - injection H as <-. exists 0%nat, p.
    split; [lia | ]. split; [reflexivity | ]. intros Hc. lra.
  - destruct (IH _ _ _ _ H) as (k & p' & Hi & Hnth & Hpos).
    exists (S k), p'. split; [lia | ]. split; [exact Hnth | ].
    intros _. apply Hpos. exact Hge.
Qed.

Lemma scanCumulative_none : forall ps r i0 c,
  ~ (r < c)%R ->
  QuantumState.scanCumulative ps r i0 c = None ->
  ~ (r < c + fold_right Rplus 0 ps)%R.
Proof.
  induction ps as [ | p ps IH]; intros r i0 c Hc H;
    cbn [QuantumState.scanCumulative fold_right] in *.
  - lra.
  - destruct (Rlt_dec r (c + p)) as [Hlt | Hge]; [discriminate | ].
    specialize (IH _ _ _ Hge H). lra.
Qed.

Lemma magnitude_sq : forall a,
  (Complex.magnitude a * Complex.magnitude a
   = Complex.real a * Complex.real a + Complex.imag a * Complex.imag a)%R.
Proof.
  intros a. unfold Complex.magnitude. apply sqrt_sqrt. nra.
Qed.

Lemma probabilities_sum : forall amps,
  fold_right Rplus 0%R
    (map (fun amp => (Complex.magnitude amp * Complex.magnitude amp)%R) amps)
  = squaredNorm amps.
Proof.
  induction amps as [ | a amps IH]; cbn [map fold_right squaredNorm].
  - reflexivity.
  - rewrite IH, magnitude_sq. reflexivity.
Qed.

Lemma wellFormed_dimension_pos : forall s,
  wellFormedState s -> (0 < QuantumState.dimension s)%Z.
Proof.
  intros s (Hn & Hd & _). rewrite Hd. apply Z.pow_pos_nonneg; lia.
Qed.

Lemma probabilityAt_amplitude : forall amps i,
  (0 <= i < JS.alength amps)%Z ->
  exists a,
    JS.aget amps i = Ok a /\
    QuantumState.probabilityAt
      (map (fun amp => (Complex.magnitude amp * Complex.magnitude amp)%R) amps) i
    = Some (Complex.magnitude a * Complex.magnitude a)%R.
Proof.
  intros amps i Hi. unfold JS.aget, QuantumState.probabilityAt.
  destruct (Z.ltb_spec i 0) as [F | _]; [lia | ].
  rewrite nth_error_map.
  destruct (nth_error amps (Z.to_nat i)) as [a | ] eqn:Ha.
  - exists a. split; reflexivity.
  - apply nth_error_None in Ha. unfold JS.alength in Hi. lia.
Qed.

(** X21. [measure] returns a basis index inside the register together with
    the probability of that index, and leaves the register in the basis
    state of that index; when the sample lies below the total probability,
    the index returned has positive probability. *)
Theorem measure_collapses_to_outcome :
  forall (s : QuantumState.t) (random : R),
    wellFormedState s ->
    exists (i : Z) (a : Complex.t),
      QuantumState.basisIndex (fst (QuantumState.measure s random)) = i /\
      (0 <= i < QuantumState.dimension s)%Z /\
      JS.aget (QuantumState.amplitudes s) i = Ok a /\
      QuantumState.probability (fst (QuantumState.measure s random))
      = Some (Complex.magnitude a * Complex.magnitude a)%R /\
      QuantumState.amplitudes (snd (QuantumState.measure s random))
      = basisState (QuantumState.dimension s) i /\
      wellFormedState (snd (QuantumState.measure s random)) /\
      squaredNorm (QuantumState.amplitudes (snd (QuantumState.measure s random)))
      = 1%R /\
      ((0 <= random < squaredNorm (QuantumState.amplitudes s))%R ->
       (0 < Complex.magnitude a * Complex.magnitude a)%R).
Proof.
  intros s random Hwf.
  pose proof (wellFormed_dimension_pos s Hwf) as Hdpos.
  pose proof Hwf as (Hn & Hd & Hlen).
  assert (Hfinish : forall i,
            (0 <= i < QuantumState.dimension s)%Z ->
            QuantumState.amplitudes
              (QuantumState.with_amplitudes s
                 (JS.aset (JS.afill (QuantumState.dimension s) Complex.zero) i
                          (Complex.mk 1 0)))
            = basisState (QuantumState.dimension s) i /\
            wellFormedState
              (QuantumState.with_amplitudes s
                 (JS.aset (JS.afill (QuantumState.dimension s) Complex.zero) i
                          (Complex.mk 1 0))) /\
            squaredNorm
              (QuantumState.amplitudes
                 (QuantumState.with_amplitudes s
                    (JS.aset (JS.afill (QuantumState.dimension s) Complex.zero)
                             i (Complex.mk 1 0)))) = 1%R).
  { intros i Hi. cbn [QuantumState.amplitudes QuantumState.with_amplitudes].
    rewrite aset_afill_basis by exact Hi.
    split; [reflexivity | ]. split.
    - unfold wellFormedState.
      cbn [QuantumState.numQubits QuantumState.dimension
           QuantumState.amplitudes].
      split; [exact Hn | ]. split; [exact Hd | ].
      apply basisState_length.
      cbn [QuantumState.dimension QuantumState.with_amplitudes]. lia.
    - apply squaredNorm_basisState. exact Hi. }
  unfold QuantumState.measure, QuantumState.getProbabilities.
  destruct (QuantumState.scanCumulative
              (map (fun amp => (Complex.magnitude amp * Complex.magnitude amp)%R)
                   (QuantumState.amplitudes s)) random 0 0)
    as [i | ] eqn:Hscan; cbn [fst snd QuantumState.basisIndex
                              QuantumState.probability].
  - destruct (scanCumulative_some _ _ _ _ _ Hscan) as (k & p & Hi & Hnth & Hpos).
    assert (Hrange : (0 <= i < QuantumState.dimension s)%Z).
    { assert (Hk : (k < List.length
                          (map (fun amp => (Complex.magnitude amp
                                            * Complex.magnitude amp)%R)
                               (QuantumState.amplitudes s)))%nat)
        by (apply nth_error_Some; congruence).
      rewrite length_map in Hk. unfold JS.alength in Hlen. lia. }
    destruct (probabilityAt_amplitude (QuantumState.amplitudes s) i)
      as (a & Ha & Hp); [lia | ].
    exists i, a. split; [reflexivity | ]. split; [exact Hrange | ].
    split; [exact Ha | ]. split; [exact Hp | ].
    destruct (Hfinish i Hrange) as (H1 & H2 & H3).
    split; [exact H1 | ]. split; [exact H2 | ]. split; [exact H3 | ].
    intros [Hr0 _].
    unfold QuantumState.probabilityAt in Hp.
    destruct (Z.ltb_spec i 0) as [F | _]; [lia | ].
    replace (Z.to_nat i) with k in Hp by lia.
    rewrite Hnth in Hp. injection Hp as <-. apply Hpos. lra.
  - set (lastIndex := (JS.alength
                         (map (fun amp => (Complex.magnitude amp
                                           * Complex.magnitude amp)%R)
                              (QuantumState.amplitudes s)) - 1)%Z).
    assert (Hlast : lastIndex = (QuantumState.dimension s - 1)%Z).
    { unfold lastIndex, JS.alength. rewrite length_map.
      unfold JS.alength in Hlen. lia. }
    assert (Hrange : (0 <= lastIndex < QuantumState.dimension s)%Z) by lia.
    destruct (probabilityAt_amplitude (QuantumState.amplitudes s) lastIndex)
      as (a & Ha & Hp); [lia | ].
    exists lastIndex, a. split; [reflexivity | ]. split; [exact Hrange | ].
    split; [exact Ha | ]. split; [exact Hp | ].
    destruct (Hfinish lastIndex Hrange) as (H1 & H2 & H3).
    split; [exact H1 | ]. split; [exact H2 | ]. split; [exact H3 | ].
    intros [Hr0 Hr1]. exfalso.
    assert (Hc : ~ (random < 0)%R) by lra.
    apply (scanCumulative_none _ _ _ _ Hc Hscan).
    rewrite probabilities_sum. lra.
Qed.

Lemma measure_collapses_to_outcome_witness :
  exists (i : Z) (a : Complex.t),
    QuantumState.basisIndex
      (fst (QuantumState.measure (QuantumState.new_ 1) (1 / 2))) = i /\
    (0 <= i < QuantumState.dimension (QuantumState.new_ 1))%Z /\
    JS.aget (QuantumState.amplitudes (QuantumState.new_ 1)) i = Ok a.
Proof.
  destruct (measure_collapses_to_outcome (QuantumState.new_ 1) (1 / 2))
    as (i & a & H1 & H2 & H3 & _).
  - wf_state.
  - exists i, a. split; [exact H1 | ]. split; [exact H2 | exact H3].
Defined.

Lemma string_length_append : forall s1 s2 : string,
  String.length (s1 ++ s2) = (String.length s1 + String.length s2)%nat.
Proof.
  induction s1 as [ | c s1 IH]; intros s2; cbn [append String.length].
  - reflexivity.
  - rewrite IH. reflexivity.
Qed.

Lemma posToBinary_length : forall p,
  String.length (JS.posToBinary p) = Pos.size_nat p.
Proof.
  induction p as [p IH | p IH | ]; cbn [JS.posToBinary Pos.size_nat].
  - rewrite string_length_append, IH. cbn [String.length]. lia.
  - rewrite string_length_append, IH. cbn [String.length]. lia.
  - reflexivity.
Qed.

Lemma pos_below_size : forall p,
  (Z.pos p < 2 ^ Z.of_nat (Pos.size_nat p))%Z.
Proof.
  induction p as [p IH | p IH | ]; cbn [Pos.size_nat].
  - rewrite Nat2Z.inj_succ, Z.pow_succ_r by lia. lia.
  - rewrite Nat2Z.inj_succ, Z.pow_succ_r by lia. lia.
  - cbn. lia.
Qed.

Lemma size_below_pow2 : forall p (n : nat),
  (Z.pos p < 2 ^ Z.of_nat n)%Z -> (Pos.size_nat p <= n)%nat.
Proof.
  induction p as [p IH | p IH | ]; intros n H; cbn [Pos.size_nat].
  - destruct n as [ | n]; [cbn in H; lia | ].
    rewrite Nat2Z.inj_succ, Z.pow_succ_r in H by lia.
    specialize (IH n). lia.
  - destruct n as [ | n]; [cbn in H; lia | ].
    rewrite Nat2Z.inj_succ, Z.pow_succ_r in H by lia.
    specialize (IH n). lia.
  - destruct n as [ | n]; [cbn in H; lia | lia].
Qed.

Lemma posToBinary_get : forall p (k : nat),
  (k < Pos.size_nat p)%nat ->
  String.get k (JS.posToBinary p)
  = Some (if Z.testbit (Z.pos p) (Z.of_nat (Pos.size_nat p - 1 - k))
          then "1"%char else "0"%char).
Proof.
  induction p as [p IH | p IH | ]; intros k Hk;
    cbn [JS.posToBinary Pos.size_nat] in *.
  - destruct (Nat.eq_dec k (Pos.size_nat p)) as [-> | Hne].
    + pose proof (append_correct2 (JS.posToBinary p) "1" 0) as Happ.
      cbn [Nat.add] in Happ. rewrite posToBinary_length in Happ.
      rewrite <- Happ. cbn [String.get].
      replace (S (Pos.size_nat p) - 1 - Pos.size_nat p)%nat with 0%nat by lia.
      rewrite Pos2Z.inj_xI, Z.testbit_odd_0. reflexivity.
    + rewrite <- append_correct1 by (rewrite posToBinary_length; lia).
      rewrite IH by lia.
      replace (S (Pos.size_nat p) - 1 - k)%nat
        with (S (Pos.size_nat p - 1 - k))%nat by lia.
      rewrite Nat2Z.inj_succ, Pos2Z.inj_xI, Z.testbit_odd_succ by lia.
      reflexivity.
  - destruct (Nat.eq_dec k (Pos.size_nat p)) as [-> | Hne].
    + pose proof (append_correct2 (JS.posToBinary p) "0" 0) as Happ.
      cbn [Nat.add] in Happ. rewrite posToBinary_length in Happ.
      rewrite <- Happ. cbn [String.get].
      replace (S (Pos.size_nat p) - 1 - Pos.size_nat p)%nat with 0%nat by lia.
      rewrite Pos2Z.inj_xO, Z.testbit_even_0. reflexivity.
    + rewrite <- append_correct1 by (rewrite posToBinary_length; lia).
      rewrite IH by lia.
      replace (S (Pos.size_nat p) - 1 - k)%nat
        with (S (Pos.size_nat p - 1 - k))%nat by lia.
      rewrite Nat2Z.inj_succ, Pos2Z.inj_xO, Z.testbit_even_succ by lia.
      reflexivity.
  - assert (k = 0)%nat as -> by lia. reflexivity.
Qed.

Lemma zeroDigits_length : forall k, String.length (JS.zeroDigits k) = k.
Proof.
  induction k as [ | k IH]; cbn [JS.zeroDigits String.length]; congruence.
Qed.

Lemma zeroDigits_get : forall k j,
  (j < k)%nat -> String.get j (JS.zeroDigits k) = Some "0"%char.
Proof.
  induction k as [ | k IH]; intros j Hj; [lia | ].
  cbn [JS.zeroDigits]. destruct j as [ | j]; cbn [String.get].
  - reflexivity.
  - apply IH. lia.
Qed.

Lemma padded_get : forall (s : string) (n j : nat),
  (String.length s <= n)%nat -> (j < n)%nat ->
  String.get j (JS.padStart s (Z.of_nat n))
  = if (j <? n - String.length s)%nat then Some "0"%char
    else String.get (j - (n - String.length s)) s.
Proof.
  intros s n j Hlen Hj. unfold JS.padStart. rewrite Nat2Z.id.
  destruct (Nat.ltb_spec j (n - String.length s)) as [Hlt | Hge].
  - rewrite <- append_correct1 by (rewrite zeroDigits_length; exact Hlt).
    apply zeroDigits_get. exact Hlt.
  - rewrite (append_correct2 (JS.zeroDigits (n - String.length s)) s
               (j - (n - String.length s))).
    rewrite zeroDigits_length. f_equal. lia.
Qed.

Lemma padded_binary_digit : forall n i q : Z,
  (0 <= n <= 31)%Z -> (0 <= i < 2 ^ n)%Z -> (0 <= q < n)%Z ->
  String.length (JS.padStart (JS.toBinary i) n) = Z.to_nat n /\
  String.get (Z.to_nat q) (JS.padStart (JS.toBinary i) n)
  = Some (if (QuantumState.bitOf n i q =? 1)%Z then "1"%char else "0"%char).
Proof.
  intros n i q Hn Hi Hq.
  rewrite (bitOf_qubitBit n q i Hn Hq Hi).
  rewrite (qubitBit_testbit n q i Hq).
  assert (Hlen : (String.length (JS.toBinary i) <= Z.to_nat n)%nat).
  { destruct i as [ | p | p]; cbn [JS.toBinary]; [cbn; lia | | lia].
    rewrite posToBinary_length. apply size_below_pow2.
    rewrite Z2Nat.id by lia. lia. }
  split.
  - unfold JS.padStart. rewrite string_length_append, zeroDigits_length. lia.
  - rewrite <- (Z2Nat.id n) at 1 by lia.
    rewrite padded_get by (exact Hlen || lia).
    destruct (Nat.ltb_spec (Z.to_nat q)
                (Z.to_nat n - String.length (JS.toBinary i))) as [Hlt | Hge].
    + (* a padding zero: the bit lies above the digits of [i] *)
      rewrite (bits_above_pow2 i (Z.of_nat (String.length (JS.toBinary i)))).
      * reflexivity.
      * destruct i as [ | p | p]; cbn [JS.toBinary]; [cbn; lia | | lia].
        rewrite posToBinary_length. split; [lia | apply pos_below_size].
      * lia.
    + destruct i as [ | p | p]; [ | | lia].
      * cbn [JS.toBinary] in *. cbn [String.length] in *.
        replace (Z.to_nat q - (Z.to_nat n - 1))%nat with 0%nat by lia.
        rewrite Z.testbit_0_l. reflexivity.
      * cbn [JS.toBinary] in *. rewrite posToBinary_length in *.
        rewrite posToBinary_get by lia.
        replace (Z.of_nat (Pos.size_nat p - 1
                           - (Z.to_nat q - (Z.to_nat n - Pos.size_nat p))))
          with (n - 1 - q)%Z by lia.
        destruct (Z.testbit (Z.pos p) (n - 1 - q)); reflexivity.
Qed.

Lemma combine_arange_nth : forall (amps : list Complex.t) (i : Z),
  (0 <= i < JS.alength amps)%Z ->
  nth_error (combine (JS.arange (JS.alength amps)) amps) (Z.to_nat i)
  = Some (i, nth (Z.to_nat i) amps Complex.zero).
Proof.
  intros amps i Hi. unfold JS.alength in Hi.
  assert (Hlen : List.length (JS.arange (JS.alength amps)) = List.length amps).
  { unfold JS.arange, JS.alength. rewrite length_map, length_seq. lia. }
  rewrite (nth_error_nth' _ (0%Z, Complex.zero))
    by (rewrite length_combine, Hlen; lia).
  rewrite combine_nth by exact Hlen. f_equal. f_equal.
  rewrite <- (map_id (JS.arange (JS.alength amps))).
  apply (nth_map_arange _ (fun x => x)). unfold JS.alength. lia.
Qed.

(** X22. The bit string of a basis index, [i.toString(2)] padded with
    zeros to the number of qubits, has one character per qubit, and the
    character at position q is the bit the simulator reads for qubit q by
    shifting: qubit 0 is the leftmost character.  Entry i of
    [getStateVector] carries the index i, the amplitude at i, its squared
    magnitude and that bit string. *)
Theorem bitString_reads_qubits :
  (forall n i q : Z,
     (0 <= n <= 31)%Z -> (0 <= i < 2 ^ n)%Z -> (0 <= q < n)%Z ->
     String.length (JS.padStart (JS.toBinary i) n) = Z.to_nat n /\
     String.get (Z.to_nat q) (JS.padStart (JS.toBinary i) n)
     = Some (if (QuantumState.bitOf n i q =? 1)%Z
             then "1"%char else "0"%char)) /\
  (forall (c : QuantumCircuit.t) (i : Z),
     wellFormedCircuit c -> (0 <= i < 2 ^ QuantumCircuit.numQubits c)%Z ->
     exists e : QuantumCircuit.StateVectorEntry,
       nth_error (QuantumCircuit.getStateVector c) (Z.to_nat i) = Some e /\
       QuantumCircuit.sv_index e = i /\
       JS.aget (QuantumState.amplitudes (QuantumCircuit.state c)) i
       = Ok (QuantumCircuit.sv_amplitude e) /\
       QuantumCircuit.sv_probability e
       = (Complex.magnitude (QuantumCircuit.sv_amplitude e) ^ 2)%R /\
       (forall q, (0 <= q < QuantumCircuit.numQubits c)%Z ->
          String.get (Z.to_nat q) (QuantumCircuit.sv_bitString e)
          = Some (if (QuantumState.bitOf (QuantumCircuit.numQubits c) i q
                      =? 1)%Z
                  then "1"%char else "0"%char))).
Proof.
  split; [exact padded_binary_digit | ].
  intros c i [(Hn & Hd & Hlen) Hnq] Hi.
  rewrite Hnq in Hn, Hd. rewrite Hd in Hlen.
  unfold QuantumCircuit.getStateVector.
  rewrite nth_error_map, combine_arange_nth by lia.
  cbn [option_map]. eexists. split; [reflexivity | ].
  cbn [QuantumCircuit.sv_index QuantumCircuit.sv_amplitude
       QuantumCircuit.sv_probability QuantumCircuit.sv_bitString].
  split; [reflexivity | ]. split; [apply aget_nth; lia | ].
  split; [reflexivity | ].
  intros q Hq. apply padded_binary_digit; assumption.
Qed.

Lemma bitString_reads_qubits_witness :
  String.get (Z.to_nat 0) (JS.padStart (JS.toBinary 1) 2) = Some "0"%char.
Proof.
  apply (proj1 bitString_reads_qubits 2%Z 1%Z 0%Z); lia.
Defined.

Lemma map_nth_seq : forall (A B : Type) (f : A -> B) (l : list A) (d : A),
  map (fun k => f (nth k l d)) (seq 0 (List.length l)) = map f l.
Proof.
  intros A B f l d. induction l as [ | a l IH]; [reflexivity | ].
  cbn [List.length seq map nth]. f_equal.
  rewrite <- seq_shift, map_map. exact IH.
Qed.

Lemma map_nth_arange : forall (B : Type) (f : Complex.t -> B)
                              (l : list Complex.t),
  map (fun i => f (nth (Z.to_nat i) l Complex.zero)) (JS.arange (JS.alength l))
  = map f l.
Proof.
  intros B f l. unfold JS.arange, JS.alength. rewrite Nat2Z.id, map_map.
  rewrite <- (map_nth_seq _ _ f l Complex.zero).
  apply map_ext. intros k. rewrite Nat2Z.id. reflexivity.
Qed.

Lemma sum_of_squared_moduli : forall l,
  complexSum (map (fun a => Complex.multiply a (Complex.conjugate a)) l)
  = Complex.mk (squaredNorm l) 0.
Proof.
  induction l as [ | [re im] l IH]; cbn [map complexSum squaredNorm].
  - reflexivity.
  - rewrite IH. unfold Complex.add, Complex.multiply, Complex.conjugate.
    cbn [Complex.real Complex.imag]. f_equal; ring.
Qed.

Lemma getDensityMatrix_spec : forall s,
  wellFormedState s ->
  exists rho,
    QuantumState.getDensityMatrix s = Ok rho /\
    Matrix.rows rho = QuantumState.dimension s /\
    Matrix.cols rho = QuantumState.dimension s /\
    wellFormedMatrix rho /\
    (forall i j, (0 <= i < QuantumState.dimension s)%Z ->
                 (0 <= j < QuantumState.dimension s)%Z ->
       entryOf (Matrix.data rho) i j
       = Complex.multiply
           (nth (Z.to_nat i) (QuantumState.amplitudes s) Complex.zero)
           (Complex.conjugate
              (nth (Z.to_nat j) (QuantumState.amplitudes s) Complex.zero))).
Proof.
  intros s Hwf. pose proof (wellFormed_dimension_pos s Hwf) as Hpos.
  destruct Hwf as (Hn & Hd & Hlen).
  assert (Hd0 : (0 <= QuantumState.dimension s)%Z) by lia.
  unfold QuantumState.getDensityMatrix.
  destruct (grid_loops (QuantumState.dimension s) (QuantumState.dimension s)
              (QuantumState.dimension s) (QuantumState.dimension s)
              (fun i j => (i, j))
              (fun i j =>
                 Complex.multiply
                   (nth (Z.to_nat i) (QuantumState.amplitudes s) Complex.zero)
                   (Complex.conjugate
                      (nth (Z.to_nat j) (QuantumState.amplitudes s)
                           Complex.zero)))
              (fun i j d =>
                 a <- JS.aget (QuantumState.amplitudes s) i ;;
                 b <- JS.aget (QuantumState.amplitudes s) j ;;
                 Matrix.dset d i j (Complex.multiply a (Complex.conjugate b)))
              (Matrix.data (Matrix.new_ (QuantumState.dimension s)
                                        (QuantumState.dimension s)))
              Hd0 Hd0)
    as (d' & Hrun & Hsh' & Hent).
  - apply new_wellFormed; assumption.
  - intros i j Hi Hj. cbn [fst snd]. lia.
  - intros i j i' j' _ _ _ _ Heq. injection Heq as -> ->. split; reflexivity.
  - intros i j d Hi Hj. cbn [fst snd].
    rewrite !aget_nth by lia. reflexivity.
  - rewrite Hrun. cbn [bind]. eexists. split; [reflexivity | ].
    cbn [Matrix.rows Matrix.cols Matrix.data].
    split; [reflexivity | ]. split; [reflexivity | ].
    split; [split; [exact Hd0 | split; [exact Hd0 | exact Hsh']] | ].
    intros i j Hi Hj. specialize (Hent i j Hi Hj). cbn [fst snd] in Hent.
    rewrite (dget_entryOf _ _ _ _ _ Hsh') in Hent by lia.
    injection Hent as Hent. exact Hent.
Qed.

(** X23. The density matrix of a register is square of the register's
    dimension, equal to its own conjugate transpose, and its trace is the
    squared norm of the amplitudes. *)
Theorem density_matrix_hermitian : forall s : QuantumState.t,
  wellFormedState s ->
  exists rho : Matrix.t,
    QuantumState.getDensityMatrix s = Ok rho /\
    Matrix.rows rho = QuantumState.dimension s /\
    Matrix.cols rho = QuantumState.dimension s /\
    Matrix.dagger rho = Ok rho /\
    Matrix.trace rho
    = Ok (Complex.mk (squaredNorm (QuantumState.amplitudes s)) 0).
Proof.
  intros s Hwf.
  destruct (getDensityMatrix_spec s Hwf) as (rho & Hrho & Hr & Hc & Hwr & Hent).
  exists rho. split; [exact Hrho | ]. split; [exact Hr | ].
  split; [exact Hc | ]. split.
  - destruct (dagger_spec rho Hwr) as (t & Ht & Hrt & Hct & Hwt & Het).
    rewrite Ht. f_equal.
    apply matrix_ext; try assumption; try congruence.
    intros j i Hj Hi. rewrite Het by lia.
    rewrite !Hent by lia.
    rewrite conjugate_multiply, conjugate_involutive. reflexivity.
  - rewrite (trace_spec rho Hwr). rewrite Hr, Hc, Z.min_id. f_equal.
    rewrite <- sum_of_squared_moduli. f_equal.
    rewrite <- (map_nth_arange _
                  (fun a => Complex.multiply a (Complex.conjugate a))
                  (QuantumState.amplitudes s)).
    destruct Hwf as (_ & _ & Hlen). rewrite Hlen.
    apply map_ext_arange. intros i Hi. apply Hent; lia.
Qed.

Lemma density_matrix_hermitian_witness :
  exists rho : Matrix.t,
    QuantumState.getDensityMatrix (QuantumState.new_ 1) = Ok rho /\
    Matrix.dagger rho = Ok rho.
Proof.
  destruct (density_matrix_hermitian (QuantumState.new_ 1))
    as (rho & H1 & _ & _ & H2 & _).
  - wf_state.
  - exists rho. split; [exact H1 | exact H2].
Defined.






(** * Shots, snapshots and the queue of gates *)

Lemma applyClassicalGate_frame : forall c g c',
  QuantumCircuit.applyClassicalGate c g = Ok c' ->
  QuantumCircuit.measurements c' = QuantumCircuit.measurements c /\
  QuantumCircuit.numQubits c' = QuantumCircuit.numQubits c /\
  QuantumCircuit.executionHistory c' = QuantumCircuit.executionHistory c /\
  QuantumState.dimension (QuantumCircuit.state c')
  = QuantumState.dimension (QuantumCircuit.state c) /\
  QuantumState.numQubits (QuantumCircuit.state c')
  = QuantumState.numQubits (QuantumCircuit.state c).
Proof.
  intros c g c' H. unfold QuantumCircuit.applyClassicalGate in H.
  destruct g as [name targets params matrix | name inputs output position].
  - injection H as <-. repeat split.
  - destruct (String.eqb name "NOT").
    + match type of H with
      | bind ?loop _ = _ => destruct loop as [na | e]
      end; cbn [bind] in H; [ | discriminate].
      injection H as <-. repeat split.
    + destruct (String.eqb name "AND").
      * match type of H with
        | bind ?scan _ = _ => destruct scan as [idx | e]
        end; cbn [bind] in H; [ | discriminate].
        destruct (0 <=? idx)%Z; injection H as <-; repeat split.
      * destruct (String.eqb name "OR").
        -- match type of H with
           | bind ?scan _ = _ => destruct scan as [idx | e]
           end; cbn [bind] in H; [ | discriminate].
           destruct (0 <=? idx)%Z; injection H as <-; repeat split.
        -- injection H as <-. repeat split.
Qed.

Lemma applyGate_frame : forall s m targets s',
  QuantumState.applyGate s m targets = Ok s' ->
  QuantumState.dimension s' = QuantumState.dimension s /\
  QuantumState.numQubits s' = QuantumState.numQubits s.
Proof.
  intros s m targets s' H. unfold QuantumState.applyGate in H.
  destruct (QuantumState.createFullGateMatrix s m targets) as [full | e];
    cbn [bind] in H; [ | discriminate].
  match type of H with
  | bind ?loop _ = _ => destruct loop as [na | e]
  end; cbn [bind] in H; [ | discriminate].
  injection H as <-. split; reflexivity.
Qed.

Lemma applyGates_frame : forall gs c c' gs' ops,
  QuantumCircuit.applyGates c gs = Ok (c', gs', ops) ->
  QuantumCircuit.measurements c' = QuantumCircuit.measurements c /\
  QuantumCircuit.numQubits c' = QuantumCircuit.numQubits c /\
  QuantumCircuit.executionHistory c' = QuantumCircuit.executionHistory c /\
  QuantumState.dimension (QuantumCircuit.state c')
  = QuantumState.dimension (QuantumCircuit.state c) /\
  QuantumState.numQubits (QuantumCircuit.state c')
  = QuantumState.numQubits (QuantumCircuit.state c).
Proof.
  induction gs as [ | g gs IH]; intros c c' gs' ops H;
    cbn [QuantumCircuit.applyGates] in H.
  - injection H as <- _ _. repeat split.
  - match type of H with
    | bind ?step _ = _ => destruct step as [[[[c1 g1] t1] p1] | e] eqn:Hstep
    end; cbn [bind] in H; [ | discriminate].
    destruct (QuantumCircuit.applyGates c1 gs) as [[[c2 gs2] ops2] | e] eqn:Hrest;
      cbn [bind] in H; [ | discriminate].
    injection H as <- _ _.
    destruct (IH _ _ _ _ Hrest) as (H1 & H2 & H3 & H4 & H5).
    assert (Hc1 :
      QuantumCircuit.measurements c1 = QuantumCircuit.measurements c /\
      QuantumCircuit.numQubits c1 = QuantumCircuit.numQubits c /\
      QuantumCircuit.executionHistory c1 = QuantumCircuit.executionHistory c /\
      QuantumState.dimension (QuantumCircuit.state c1)
      = QuantumState.dimension (QuantumCircuit.state c) /\
      QuantumState.numQubits (QuantumCircuit.state c1)
      = QuantumState.numQubits (QuantumCircuit.state c)).
    { destruct g as [name targets params matrix | name inputs output position].
      - match type of Hstep with
        | bind ?get _ = _ => destruct get as [m | e]
        end; cbn [bind] in Hstep; [ | discriminate].
        destruct (QuantumState.applyGate (QuantumCircuit.state c) m targets)
          as [s' | e] eqn:Happ; cbn [bind] in Hstep; [ | discriminate].
        injection Hstep as <- _ _ _.
        destruct (applyGate_frame _ _ _ _ Happ) as [Hd Hn].
        cbn [QuantumCircuit.with_state QuantumCircuit.measurements
             QuantumCircuit.numQubits QuantumCircuit.executionHistory
             QuantumCircuit.state].
        repeat split; assumption.
      - destruct (QuantumCircuit.applyClassicalGate c
                    (QuantumCircuit.Classical name inputs output position))
          as [c1' | e] eqn:Hcl; cbn [bind] in Hstep; [ | discriminate].
        injection Hstep as <- _ _ _.
        apply (applyClassicalGate_frame _ _ _ Hcl). }
    destruct Hc1 as (G1 & G2 & G3 & G4 & G5).
    repeat split; congruence.
Qed.

Lemma getQubitProbabilities_raises : forall c q,
  (0 < QuantumState.dimension (QuantumCircuit.state c))%Z ->
  exists e, QuantumCircuit.getQubitProbabilities c q = Err e /\
            (QuantumState.amplitudes (QuantumCircuit.state c) <> [] ->
             e = TypeErrorConstAssign).
Proof.
  intros c q Hd. unfold QuantumCircuit.getQubitProbabilities, JS.for_range.
  destruct (Z.to_nat (QuantumState.dimension (QuantumCircuit.state c)))
    as [ | k] eqn:Hk; [lia | ].
  cbn [JS.for_from].
  destruct (QuantumState.amplitudes (QuantumCircuit.state c)) as [ | a rest].
  - cbn [JS.aget Z.ltb Z.compare Z.to_nat nth_error bind].
    eexists. split; [reflexivity | ]. intros F. contradiction.
  - cbn [JS.aget Z.ltb Z.compare Z.to_nat nth_error bind].
    exists TypeErrorConstAssign. split; [ | reflexivity].
    destruct (QuantumState.bitOf (QuantumCircuit.numQubits c) 0 q =? 0)%Z;
      reflexivity.
Qed.

Lemma performMeasurements_raises : forall c rand k m ms,
  (0 < QuantumState.dimension (QuantumCircuit.state c))%Z ->
  exists e, QuantumCircuit.performMeasurements c rand k (m :: ms) = Err e /\
            (QuantumState.amplitudes (QuantumCircuit.state c) <> [] ->
             e = TypeErrorConstAssign).
Proof.
  intros c rand k m ms Hd. cbn [QuantumCircuit.performMeasurements].
  unfold QuantumCircuit.measureQubit.
  destruct (getQubitProbabilities_raises c (QuantumCircuit.qubit m) Hd)
    as (e & He & Hkind).
  rewrite He. cbn [bind]. exists e. split; [reflexivity | exact Hkind].
Qed.

Lemma executeSingleShot_raises : forall c rand k,
  QuantumCircuit.measurements c <> [] ->
  (0 < QuantumState.dimension (QuantumCircuit.state c))%Z ->
  exists e, QuantumCircuit.executeSingleShot c rand k = Err e /\
            (QuantumCircuit.gates c = [] ->
             QuantumState.amplitudes (QuantumCircuit.state c) <> [] ->
             e = TypeErrorConstAssign).
Proof.
  intros c rand k Hm Hd. unfold QuantumCircuit.executeSingleShot.
  destruct (QuantumCircuit.applyGates c (QuantumCircuit.gates c))
    as [[[c1 gs1] ops1] | e] eqn:Hgates; cbn [bind].
  - destruct (applyGates_frame _ _ _ _ _ Hgates) as (H1 & _ & _ & H4 & _).
    rewrite H1.
    destruct (QuantumCircuit.measurements c) as [ | m ms]; [contradiction | ].
    destruct (performMeasurements_raises c1 rand k m ms) as (e & He & Hkind);
      [lia | ].
    rewrite He. cbn [bind]. exists e. split; [reflexivity | ].
    intros Hnil Hamps. apply Hkind.
    rewrite Hnil in Hgates. cbn [QuantumCircuit.applyGates] in Hgates.
    injection Hgates as <- _ _. exact Hamps.
  - exists e. split; [reflexivity | ].
    intros Hnil _. rewrite Hnil in Hgates. discriminate.
Qed.

(** X25. A shot of a circuit that holds a measurement never completes:
    [executeSingleShot] and [run] raise, whatever the gates and the random
    samples are; with no gates queued the exception is the [TypeError] of
    assigning to a constant in [getQubitProbabilities]. *)
Theorem shot_with_measurement_raises :
  forall (c : QuantumCircuit.t) (rand : nat -> R) (k : nat) (shots : Z),
    QuantumCircuit.measurements c <> [] ->
    (0 < QuantumState.dimension (QuantumCircuit.state c))%Z ->
    (1 <= shots)%Z ->
    (exists e, QuantumCircuit.executeSingleShot c rand k = Err e /\
               (QuantumCircuit.gates c = [] ->
                QuantumState.amplitudes (QuantumCircuit.state c) <> [] ->
                e = TypeErrorConstAssign)) /\
    (exists e, QuantumCircuit.run c rand k shots = Err e /\
               (QuantumCircuit.gates c = [] ->
                QuantumState.amplitudes (QuantumCircuit.state c) <> [] ->
                e = TypeErrorConstAssign)).
Proof.
  intros c rand k shots Hm Hd Hshots. split.
  - apply executeSingleShot_raises; assumption.
  - unfold QuantumCircuit.run, JS.for_range.
    destruct (Z.to_nat shots) as [ | n] eqn:Hn; [lia | ].
    cbn [JS.for_from].
    destruct (executeSingleShot_raises (QuantumCircuit.reset c) rand k)
      as (e & He & Hkind).
    + unfold QuantumCircuit.reset. cbn [QuantumCircuit.measurements].
      destruct (QuantumCircuit.measurements c); [contradiction | discriminate].
    + exact Hd.
    + rewrite He. cbn [bind]. exists e. split; [reflexivity | ].
      intros Hnil Hamps. apply Hkind; assumption.
Qed.

Lemma shot_with_measurement_raises_witness :
  exists c e,
    QuantumCircuit.addMeasurement (QuantumCircuit.new_ 1) 0 = Ok c /\
    QuantumCircuit.run c (fun _ => (1 / 2)%R) 0%nat 1 = Err e.
Proof.
  eexists. 
  destruct (shot_with_measurement_raises
              (QuantumCircuit.mk 1 [] [QuantumCircuit.mkMeasurement 0 None]
                 (QuantumState.new_ 1) [])
              (fun _ => (1 / 2)%R) 0%nat 1) as [_ (e & He & _)].
  - discriminate.
  - cbn. lia.
  - lia.
  - exists e. split; [reflexivity | exact He].
Defined.

(** X26. The gate loop of a shot records one operation per gate, in order
    and under the gate's name; the first snapshot is the register before
    the loop, each snapshot taken after a gate is the one taken before the
    next gate, and the last one is the register the loop leaves. *)
Theorem applyGates_records_every_gate :
  forall (gs : list QuantumCircuit.Gate) (c c' : QuantumCircuit.t)
         (gs' : list QuantumCircuit.Gate)
         (ops : list QuantumCircuit.GateOperation),
    QuantumCircuit.applyGates c gs = Ok (c', gs', ops) ->
    List.length ops = List.length gs /\
    List.length gs' = List.length gs /\
    map QuantumCircuit.op_gate ops = map QuantumCircuit.gateName gs /\
    map QuantumCircuit.gateName gs' = map QuantumCircuit.gateName gs /\
    (forall op, nth_error ops 0 = Some op ->
       QuantumCircuit.beforeState op
       = QuantumState.clone (QuantumCircuit.state c)) /\
    (forall i op1 op2,
       nth_error ops i = Some op1 -> nth_error ops (S i) = Some op2 ->
       QuantumCircuit.afterState op1 = QuantumCircuit.beforeState op2) /\
    (forall op, nth_error ops (List.length ops - 1) = Some op ->
       QuantumCircuit.afterState op
       = QuantumState.clone (QuantumCircuit.state c')).
Proof.
  induction gs as [ | g gs IH]; intros c c' gs' ops H;
    cbn [QuantumCircuit.applyGates] in H.
  - injection H as <- <- <-. cbn [List.length map nth_error].
    repeat split; try reflexivity; intros; discriminate.
  - match type of H with
    | bind ?step _ = _ => destruct step as [[[[c1 g1] t1] p1] | e] eqn:Hstep
    end; cbn [bind] in H; [ | discriminate].
    destruct (QuantumCircuit.applyGates c1 gs) as [[[c2 gs2] ops2] | e] eqn:Hrest;
      cbn [bind] in H; [ | discriminate].
    injection H as <- <- <-.
    destruct (IH _ _ _ _ Hrest) as (L1 & L2 & N1 & N2 & Hfirst & Hchain & Hlast).
    assert (Hg1 : QuantumCircuit.gateName g1 = QuantumCircuit.gateName g).
    { destruct g as [name targets params matrix | name inputs output position].
      - match type of Hstep with
        | bind ?get _ = _ => destruct get as [m | e]
        end; cbn [bind] in Hstep; [ | discriminate].
        destruct (QuantumState.applyGate (QuantumCircuit.state c) m targets);
          cbn [bind] in Hstep; [ | discriminate].
        injection Hstep as _ <- _ _. reflexivity.
      - destruct (QuantumCircuit.applyClassicalGate c _);
          cbn [bind] in Hstep; [ | discriminate].
        injection Hstep as _ <- _ _. reflexivity. }
    cbn [List.length map].
    split; [lia | ]. split; [lia | ].
    split; [cbn [QuantumCircuit.op_gate]; congruence | ].
    split; [congruence | ].
    split; [ | split].
    + intros op Hop. cbn [nth_error] in Hop. injection Hop as <-. reflexivity.
    + intros [ | i] op1 op2 H1 H2; cbn [nth_error] in H1, H2.
      * injection H1 as <-. cbn [QuantumCircuit.afterState].
        symmetry. apply Hfirst. exact H2.
      * eapply Hchain; eauto.
    + intros op Hop.
      replace (S (List.length ops2) - 1)%nat with (List.length ops2) in Hop by lia.
      destruct ops2 as [ | op2 ops2'].
      * cbn [List.length nth_error] in Hop. injection Hop as <-.
        cbn [QuantumCircuit.afterState].
        destruct gs; [ | discriminate L1].
        cbn [QuantumCircuit.applyGates] in Hrest. injection Hrest as <- _.
        reflexivity.
      * cbn [List.length nth_error] in Hop. apply Hlast.
        cbn [List.length]. replace (S (List.length ops2') - 1)%nat
          with (List.length ops2') by lia.
        exact Hop.
Qed.

Lemma applyGates_records_every_gate_witness :
  exists c' gs' ops,
    QuantumCircuit.applyGates (QuantumCircuit.new_ 1)
      [QuantumCircuit.Classical "NOT" [0%Z] 0 None;
       QuantumCircuit.Classical "NOT" [0%Z] 0 None]
    = Ok (c', gs', ops) /\
    List.length ops = 2%nat.
Proof.
  eexists. eexists. eexists.
  assert (H : QuantumCircuit.applyGates (QuantumCircuit.new_ 1)
                [QuantumCircuit.Classical "NOT" [0%Z] 0 None;
                 QuantumCircuit.Classical "NOT" [0%Z] 0 None]
              = Ok (_, _, _)) by reflexivity.
  split; [exact H | ].
  exact (proj1 (applyGates_records_every_gate _ _ _ _ _ H)).
Defined.

Lemma clone_eq : forall a, Complex.clone a = a.
Proof. intros [re im]. reflexivity. Qed.

Lemma prepare_map_project : forall n q v amps off,
  (0 <= n <= 31)%Z -> (0 <= q < n)%Z ->
  (Z.of_nat off + Z.of_nat (List.length amps) <= 2 ^ n)%Z ->
  map (fun '(index, amp) =>
         if (JS.band (JS.shr index (n - 1 - q)) 1 =? v)%Z
         then Complex.clone amp else Complex.mk 0 0)
      (combine (map Z.of_nat (seq off (List.length amps))) amps)
  = projectOnto n q v amps (Z.of_nat off).
Proof.
  intros n q v amps. induction amps as [ | a amps IH]; intros off Hn Hq Hlen.
  - reflexivity.
  - cbn [List.length seq map combine projectOnto]. cbn [List.length] in Hlen.
    f_equal.
    + change (JS.band (JS.shr (Z.of_nat off) (n - 1 - q)) 1)
        with (QuantumState.bitOf n (Z.of_nat off) q).
      rewrite bitOf_qubitBit by lia.
      rewrite clone_eq. reflexivity.
    + rewrite IH by lia. f_equal. lia.
Qed.

Lemma existsb_Exists_magnitude : forall l,
  existsb (fun amp => if Rlt_dec 1e-10 (Complex.magnitude amp)
                      then true else false) l = true
  <-> Exists (fun a => (1e-10 < Complex.magnitude a)%R) l.
Proof.
  intros l. rewrite existsb_exists, Exists_exists.
  split; intros (a & Hin & Ha); exists a; (split; [exact Hin | ]).
  - destruct (Rlt_dec 1e-10 (Complex.magnitude a)); [assumption | discriminate].
  - destruct (Rlt_dec 1e-10 (Complex.magnitude a)); [reflexivity | contradiction].
Qed.

(** X27. [prepareQubitState] replaces the amplitudes by their projection
    onto the given value of the qubit, without rescaling, so that the
    squared norm afterwards is the probability mass the projection
    retains; when no projected amplitude exceeds the threshold it leaves
    the circuit as it is. *)
Theorem prepareQubitState_projects :
  forall (c : QuantumCircuit.t) (q v : Z),
    wellFormedState (QuantumCircuit.state c) ->
    (0 <= q < QuantumState.numQubits (QuantumCircuit.state c))%Z ->
    let n := QuantumState.numQubits (QuantumCircuit.state c) in
    let amps := QuantumState.amplitudes (QuantumCircuit.state c) in
    (Exists (fun a => (1e-10 < Complex.magnitude a)%R)
            (projectOnto n q v amps 0) ->
     QuantumState.amplitudes
       (QuantumCircuit.state (QuantumCircuit.prepareQubitState c q v))
     = projectOnto n q v amps 0 /\
     squaredNorm
       (QuantumState.amplitudes
          (QuantumCircuit.state (QuantumCircuit.prepareQubitState c q v)))
     = retainedMass n q v amps 0) /\
    (~ Exists (fun a => (1e-10 < Complex.magnitude a)%R)
              (projectOnto n q v amps 0) ->
     QuantumCircuit.prepareQubitState c q v = c).
Proof.
  intros c q v (Hn & Hd & Hlen) Hq n amps.
  assert (Hmap :
    map (fun '(index, amp) =>
           if (JS.band (JS.shr index (n - 1 - q)) 1 =? v)%Z
           then Complex.clone amp else Complex.mk 0 0)
        (combine (JS.arange (JS.alength amps)) amps)
    = projectOnto n q v amps 0).
  { unfold JS.arange, JS.alength. rewrite Nat2Z.id.
    apply (prepare_map_project n q v amps 0); try assumption.
    unfold JS.alength in Hlen. fold amps in Hlen. subst n. lia. }
  unfold QuantumCircuit.prepareQubitState. cbv zeta. fold n. fold amps.
  rewrite Hmap.
  split.
  - intros Hex. apply existsb_Exists_magnitude in Hex. rewrite Hex.
    cbn [negb QuantumCircuit.with_state QuantumCircuit.state
         QuantumState.with_amplitudes QuantumState.amplitudes].
    split; [reflexivity | apply squaredNorm_project].
  - intros Hnex.
    destruct (existsb _ (projectOnto n q v amps 0)) eqn:Hb.
    + exfalso. apply Hnex. apply existsb_Exists_magnitude. exact Hb.
    + reflexivity.
Qed.

Lemma prepareQubitState_projects_witness :
  QuantumCircuit.prepareQubitState (QuantumCircuit.new_ 1) 0 1
  = QuantumCircuit.new_ 1.
Proof.
  apply (prepareQubitState_projects (QuantumCircuit.new_ 1) 0 1).
  - wf_state.
  - cbn. lia.
  - intros Hex.
    change (Exists (fun a => (1e-10 < Complex.magnitude a)%R)
                   [Complex.zero; Complex.zero]) in Hex.
    assert (Hz : Complex.magnitude Complex.zero = 0%R).
    { unfold Complex.magnitude, Complex.zero. cbn [Complex.real Complex.imag].
      replace (0 * 0 + 0 * 0)%R with 0%R by ring. apply sqrt_0. }
    inversion Hex as [a l Ha | a l Hl]; subst.
    + rewrite Hz in Ha. lra.
    + inversion Hl as [a' l' Ha' | a' l' Hl']; subst.
      * rewrite Hz in Ha'. lra.
      * inversion Hl'.
Defined.

Lemma firstn_succ_nth : forall (A : Type) (l : list A) (i : nat) (d : A),
  (i < List.length l)%nat -> firstn (S i) l = firstn i l ++ [nth i l d].
Proof.
  intros A l. induction l as [ | a l IH]; intros i d Hi; [cbn in Hi; lia | ].
  destruct i as [ | i]; [reflexivity | ].
  cbn [firstn nth app]. f_equal. apply IH. cbn in Hi. lia.
Qed.

Lemma probabilities_loop : forall (amps : list Complex.t) (d : Z),
  JS.alength amps = d ->
  JS.for_range d (fun i probabilities =>
      a <- JS.aget amps i ;;
      Ok (probabilities ++ [(Complex.magnitude a * Complex.magnitude a)%R])) []
  = Ok (map (fun a => (Complex.magnitude a * Complex.magnitude a)%R) amps).
Proof.
  intros amps d Hd.
  assert (H0 : (0 <= d)%Z) by (unfold JS.alength in Hd; lia).
  destruct (for_range_indexed _
    (fun k ps => ps = map (fun a => (Complex.magnitude a
                                     * Complex.magnitude a)%R)
                          (firstn (Z.to_nat k) amps))
    (fun i probabilities =>
       a <- JS.aget amps i ;;
       Ok (probabilities ++ [(Complex.magnitude a * Complex.magnitude a)%R]))
    d [] H0)
    as (ps & Hrun & Hps).
  - reflexivity.
  - intros k ps Hk ->.
    rewrite aget_nth by lia. cbn [bind].
    eexists. split; [reflexivity | ].
    replace (Z.to_nat (k + 1)) with (S (Z.to_nat k)) by lia.
    unfold JS.alength in Hd.
    rewrite (firstn_succ_nth _ amps (Z.to_nat k) Complex.zero).
    + rewrite map_app. reflexivity.
    + lia.
  - rewrite Hrun, Hps. unfold JS.alength in Hd.
    rewrite firstn_all2 by lia. reflexivity.
Qed.

(** X28. [measureJointState] collapses the register to one basis state
    inside the register and reports, for every listed qubit, the bit of
    that qubit in the index it collapsed to. *)
Theorem measureJointState_bits :
  forall (c : QuantumCircuit.t) (random : R) (qubits : list Z),
    wellFormedState (QuantumCircuit.state c) ->
    Forall (fun q =>
              (0 <= q < QuantumState.numQubits (QuantumCircuit.state c))%Z)
           qubits ->
    let n := QuantumState.numQubits (QuantumCircuit.state c) in
    exists (i : Z) (c' : QuantumCircuit.t),
      QuantumCircuit.measureJointState c random qubits
      = Ok (map (fun q => (q, qubitBit n q i)) qubits, c') /\
      (0 <= i < 2 ^ n)%Z /\
      QuantumState.amplitudes (QuantumCircuit.state c')
      = basisState (2 ^ n) i /\
      squaredNorm (QuantumState.amplitudes (QuantumCircuit.state c')) = 1%R /\
      QuantumCircuit.gates c' = QuantumCircuit.gates c /\
      QuantumCircuit.measurements c' = QuantumCircuit.measurements c.
Proof.
  intros c random qubits Hwf Hqs n.
  pose proof (wellFormed_dimension_pos _ Hwf) as Hpos.
  destruct Hwf as (Hn & Hd & Hlen). fold n in Hn, Hd.
  rewrite Hd in Hlen, Hpos.
  unfold QuantumCircuit.measureJointState. cbv zeta. fold n.
  rewrite (probabilities_loop _ (2 ^ n)%Z Hlen). cbn [bind].
  assert (Hbits : forall i, (0 <= i < 2 ^ n)%Z ->
            map (fun qubit => (qubit, JS.band (JS.shr i (n - 1 - qubit)) 1))
                qubits
            = map (fun q => (q, qubitBit n q i)) qubits).
  { intros i Hi. apply map_ext_in. intros q Hq.
    rewrite Forall_forall in Hqs. specialize (Hqs q Hq).
    change (JS.band (JS.shr i (n - 1 - q)) 1)
      with (QuantumState.bitOf n i q).
    rewrite bitOf_qubitBit by assumption. reflexivity. }
  assert (Hfinish : forall i, (0 <= i < 2 ^ n)%Z ->
    exists c',
      Ok (map (fun qubit => (qubit, JS.band (JS.shr i (n - 1 - qubit)) 1))
              qubits,
          QuantumCircuit.with_state c
            (QuantumState.with_amplitudes (QuantumCircuit.state c)
               (JS.aset (JS.afill (2 ^ n) Complex.zero) i (Complex.mk 1 0))))
      = Ok (map (fun q => (q, qubitBit n q i)) qubits, c') /\
      QuantumState.amplitudes (QuantumCircuit.state c') = basisState (2 ^ n) i /\
      squaredNorm (QuantumState.amplitudes (QuantumCircuit.state c')) = 1%R /\
      QuantumCircuit.gates c' = QuantumCircuit.gates c /\
      QuantumCircuit.measurements c' = QuantumCircuit.measurements c).
  { intros i Hi. eexists. rewrite (Hbits i Hi).
    split; [reflexivity | ].
    cbn [QuantumCircuit.with_state QuantumCircuit.state
         QuantumState.with_amplitudes QuantumState.amplitudes
         QuantumCircuit.gates QuantumCircuit.measurements].
    rewrite aset_afill_basis by exact Hi.
    split; [reflexivity | ].
    split; [apply squaredNorm_basisState; exact Hi | ].
    split; reflexivity. }
  destruct (QuantumState.scanCumulative _ random 0 0) as [i | ] eqn:Hscan.
  - destruct (scanCumulative_some _ _ _ _ _ Hscan) as (k & p & Hi & Hnth & _).
    assert (Hrange : (0 <= i < 2 ^ n)%Z).
    { assert (Hk : (k < List.length
                          (map (fun a => (Complex.magnitude a
                                          * Complex.magnitude a)%R)
                               (QuantumState.amplitudes
                                  (QuantumCircuit.state c))))%nat)
        by (apply nth_error_Some; congruence).
      rewrite length_map in Hk. unfold JS.alength in Hlen. lia. }
    destruct (Hfinish i Hrange) as (c' & Heq & H1 & H2 & H3 & H4).
    exists i, c'. repeat (split; [assumption | ]). exact H4.
  - assert (Hrange : (0 <= 2 ^ n - 1 < 2 ^ n)%Z) by lia.
    destruct (Hfinish _ Hrange) as (c' & Heq & H1 & H2 & H3 & H4).
    exists (2 ^ n - 1)%Z, c'. repeat (split; [assumption | ]). exact H4.
Qed.

Lemma measureJointState_bits_witness :
  exists (i : Z) (c' : QuantumCircuit.t),
    QuantumCircuit.measureJointState (QuantumCircuit.new_ 2) (1 / 2) [0; 1]%Z
    = Ok (map (fun q => (q, qubitBit 2 q i)) [0; 1]%Z, c') /\
    (0 <= i < 2 ^ 2)%Z.
Proof.
  destruct (measureJointState_bits (QuantumCircuit.new_ 2) (1 / 2) [0; 1]%Z)
    as (i & c' & H1 & H2 & _).
  - wf_state.
  - repeat constructor; cbn; lia.
  - exists i, c'. split; [exact H1 | exact H2].
Defined.

Ltac table_entry Hi Hg :=
  injection Hi as <-;
  cbv -[Rlt_dec sqrt Rmult Rplus Rminus Ropp IZR Rdiv Rinv cos sin PI Rpower
        Z.pow Z.le Z.lt] in Hg;
  try (match type of Hg with
       | match ?p with _ => _ end = _ =>
           destruct p; [discriminate Hg | ]
       end);
  injection Hg as <-;
  cbn [QuantumGates.qubits Matrix.rows Matrix.cols Matrix.data];
  split; [lia | ]; split; [reflexivity | ];
  unfold shape, JS.alength; simpl;
  split; [reflexivity | repeat constructor].

Lemma table_shape : forall name params info m,
  QuantumGates.getGateInfo name = Some info ->
  QuantumGates.getGate name params = Ok m ->
  (1 <= QuantumGates.qubits info <= 3)%Z /\
  Matrix.rows m = (2 ^ QuantumGates.qubits info)%Z /\
  shape (2 ^ QuantumGates.qubits info) (2 ^ QuantumGates.qubits info)
        (Matrix.data m).
Proof.
  intros name params info m Hi Hg.
  unfold QuantumGates.getGateInfo in Hi. unfold QuantumGates.getGate in Hg.
  cbv zeta in Hg.
  remember (QuantumGates.toUpperCase name) as u eqn:Hu. clear Hu.
  unfold QuantumGates.info in Hi. cbn [QuantumGates.lookup] in Hi.
  repeat match type of Hi with
         | (if String.eqb u ?k then _ else _) = _ =>
             let Hu := fresh "Hu" in
             destruct (String.eqb u k) eqn:Hu;
             [apply String.eqb_eq in Hu; subst u; table_entry Hi Hg
             | clear Hu]
         end.
  discriminate Hi.
Qed.

Lemma splice_length : forall (A : Type) (l : list A) (k : Z) (x : A),
  List.length (QuantumCircuit.splice l k x) = S (List.length l).
Proof.
  intros A l k x. unfold QuantumCircuit.splice.
  rewrite length_app. cbn [List.length].
  rewrite <- (firstn_skipn (Z.to_nat k) l) at 3. rewrite length_app. lia.
Qed.

Lemma splice_In : forall (A : Type) (l : list A) (k : Z) (x : A),
  In x (QuantumCircuit.splice l k x).
Proof.
  intros A l k x. unfold QuantumCircuit.splice.
  apply in_or_app. right. left. reflexivity.
Qed.

Lemma targets_in_range : forall n targets,
  existsb (fun qubit => (qubit <? 0)%Z || (qubit >=? n)%Z) targets = false ->
  Forall (fun q => (0 <= q < n)%Z) targets.
Proof.
  intros n targets H. apply Forall_forall. intros q Hq.
  destruct (Z.ltb_spec q 0) as [Hlo | Hlo].
  - exfalso.
    assert (Ht : existsb (fun qubit => (qubit <? 0)%Z || (qubit >=? n)%Z)
                         targets = true).
    { apply existsb_exists. exists q. split; [exact Hq | ].
      destruct (Z.ltb_spec q 0); [reflexivity | lia]. }
    congruence.
  - destruct (Z.lt_ge_cases q n) as [Hhi | Hhi]; [lia | ].
    exfalso.
    assert (Ht : existsb (fun qubit => (qubit <? 0)%Z || (qubit >=? n)%Z)
                         targets = true).
    { apply existsb_exists. exists q. split; [exact Hq | ].
      apply orb_true_iff. right. apply Z.geb_le. lia. }
    congruence.
Qed.

Lemma applyGate_succeeds : forall s gate targets k,
  wellFormedState s ->
  (0 <= k <= 31)%Z ->
  Matrix.rows gate = (2 ^ k)%Z ->
  shape (2 ^ k) (2 ^ k) (Matrix.data gate) ->
  Forall (fun q => (0 <= q < QuantumState.numQubits s)%Z) targets ->
  JS.alength targets = k ->
  exists s', QuantumState.applyGate s gate targets = Ok s' /\
             wellFormedState s'.
Proof.
  intros s gate targets k Hwf Hk Hrows Hshape Htargets Hlen.
  destruct (createFullGateMatrix_spec s gate targets k Hwf Hk Hrows Hshape
              Htargets Hlen) as (full & Hfull & _ & _ & _ & Hent).
  pose proof (wellFormed_dimension_pos s Hwf) as Hpos.
  pose proof Hwf as (Hn & Hd & Hl).
  destruct (applyGate_loops full (QuantumState.amplitudes s)
              (QuantumState.dimension s)
              (fun i j => fullOperatorEntry (QuantumState.numQubits s)
                            gate targets i j))
    as (na & Hna & Hlenna & _); [lia | exact Hl | exact Hent | ].
  unfold QuantumState.applyGate. rewrite Hfull. cbn [bind].
  rewrite Hna. cbn [bind]. eexists. split; [reflexivity | ].
  unfold wellFormedState.
  cbn [QuantumState.with_amplitudes QuantumState.numQubits
       QuantumState.dimension QuantumState.amplitudes].
  split; [exact Hn | ]. split; [exact Hd | exact Hlenna].
Qed.

(** X29. What [addGate] accepts the register can apply: after a successful
    [addGate] on a well-formed circuit the queue holds one gate more, the
    new entry carrying the catalog matrix, the register, the measurements
    and the qubit count are unchanged, and [applyGate] of that matrix on
    the given targets succeeds on the register. *)
Theorem queued_gate_applies :
  forall (c c' : QuantumCircuit.t) (name : string) (targets : list Z)
         (params : QuantumCircuit.Params),
    wellFormedCircuit c ->
    QuantumCircuit.addGate c name targets params = Ok c' ->
    exists (m : Matrix.t) (s' : QuantumState.t),
      QuantumGates.getGate name (QuantumCircuit.values params) = Ok m /\
      In (QuantumCircuit.Quantum name targets (Some params) (Some m))
         (QuantumCircuit.gates c') /\
      List.length (QuantumCircuit.gates c')
      = S (List.length (QuantumCircuit.gates c)) /\
      QuantumCircuit.state c' = QuantumCircuit.state c /\
      QuantumCircuit.measurements c' = QuantumCircuit.measurements c /\
      QuantumCircuit.numQubits c' = QuantumCircuit.numQubits c /\
      QuantumState.applyGate (QuantumCircuit.state c) m targets = Ok s' /\
      wellFormedState s'.
Proof.
  intros c c' name targets params [Hwf Hnq] H.
  unfold QuantumCircuit.addGate in H.
  destruct (QuantumGates.getGateInfo name) as [info | ] eqn:Hinfo;
    [ | discriminate].
  destruct (Z.eqb_spec (JS.alength targets) (QuantumGates.qubits info))
    as [Harity | Harity]; cbn [negb] in H; [ | discriminate].
  destruct (existsb _ targets) eqn:Hrange; [discriminate | ].
  destruct (QuantumGates.getGate name (QuantumCircuit.values params))
    as [m | e] eqn:Hm; cbn [bind] in H; [ | discriminate].
  destruct (table_shape _ _ _ _ Hinfo Hm) as (Hq & Hrows & Hshape).
  apply targets_in_range in Hrange. rewrite <- Hnq in Hrange.
  destruct (applyGate_succeeds (QuantumCircuit.state c) m targets
              (QuantumGates.qubits info) Hwf) as (s' & Hs' & Hwf');
    try assumption; [lia | ].
  exists m, s'. split; [reflexivity | ].
  destruct (QuantumCircuit.positionOf params) as [position | ];
    injection H as <-;
    cbn [QuantumCircuit.with_gates QuantumCircuit.gates QuantumCircuit.state
         QuantumCircuit.measurements QuantumCircuit.numQubits].
  - split; [apply splice_In | ]. split; [apply splice_length | ].
    repeat (split; [reflexivity | ]). split; assumption.
  - split; [apply in_or_app; right; left; reflexivity | ].
    split; [rewrite length_app; cbn [List.length]; lia | ].
    repeat (split; [reflexivity | ]). split; assumption.
Qed.

Lemma queued_gate_applies_witness :
  exists (m : Matrix.t) (s' : QuantumState.t),
    QuantumGates.getGate "cnot" (QuantumCircuit.values []) = Ok m /\
    QuantumState.applyGate (QuantumCircuit.state (QuantumCircuit.new_ 2)) m
      [0; 1]%Z = Ok s'.
Proof.
  destruct (queued_gate_applies (QuantumCircuit.new_ 2)
              (QuantumCircuit.with_gates (QuantumCircuit.new_ 2)
                 [QuantumCircuit.Quantum "cnot" [0; 1]%Z (Some [])
                    (Some (Matrix.mk 4 4
                       [ [Complex.mk 1 0; Complex.mk 0 0; Complex.mk 0 0; Complex.mk 0 0];
                         [Complex.mk 0 0; Complex.mk 1 0; Complex.mk 0 0; Complex.mk 0 0];
                         [Complex.mk 0 0; Complex.mk 0 0; Complex.mk 0 0; Complex.mk 1 0];
                         [Complex.mk 0 0; Complex.mk 0 0; Complex.mk 1 0; Complex.mk 0 0] ]))])
              "cnot" [0; 1]%Z [])
    as (m & s' & H1 & _ & _ & _ & _ & _ & H2 & _).
  - wf_state.
  - reflexivity.
  - exists m, s'. split; [exact H1 | exact H2].
Defined.


(** * The classical NOT pseudo-gate *)

Lemma notTarget_bits : forall n inQ outQ i t,
  (0 <= inQ < n)%Z -> (0 <= outQ < n)%Z -> (0 <= t)%Z ->
  Z.testbit (notTarget n inQ outQ i) t
  = if (t =? n - 1 - outQ)%Z then negb (Z.testbit i (n - 1 - inQ))
    else Z.testbit i t.
Proof.
  intros n inQ outQ i t Hin Hout Ht. unfold notTarget.
  rewrite (qubitBit_testbit n inQ i Hin).
  rewrite target_bits; [ | lia | | lia].
  - destruct (Z.testbit i (n - 1 - inQ)); reflexivity.
  - destruct (Z.testbit i (n - 1 - inQ)); cbn; lia.
Qed.

Lemma notTarget_range : forall n inQ outQ i,
  (0 <= inQ < n)%Z -> (0 <= outQ < n)%Z -> (0 <= i < 2 ^ n)%Z ->
  (0 <= notTarget n inQ outQ i < 2 ^ n)%Z.
Proof.
  intros n inQ outQ i Hin Hout Hi. apply bits_below_pow2; [lia | ].
  intros t Ht. rewrite notTarget_bits by lia.
  destruct (Z.eqb_spec t (n - 1 - outQ)); [lia | ].
  apply (bits_above_pow2 i n); lia.
Qed.

Lemma not_newIndex : forall n inQ outQ i,
  (0 <= n <= 31)%Z -> (0 <= inQ < n)%Z -> (0 <= outQ < n)%Z ->
  (0 <= i < 2 ^ n)%Z ->
  (if negb (1 - JS.band (JS.shr i (QuantumCircuit.shiftFor n (Some inQ))) 1
            =? JS.band (JS.shr i (n - 1 - outQ)) 1)%Z
   then JS.bxor i (JS.shl 1 (n - 1 - outQ))
   else i)
  = notTarget n inQ outQ i.
Proof.
  intros n inQ outQ i Hn Hin Hout Hi.
  cbn [QuantumCircuit.shiftFor].
  change (JS.band (JS.shr i (n - 1 - inQ)) 1)
    with (QuantumState.bitOf n i inQ).
  change (JS.band (JS.shr i (n - 1 - outQ)) 1)
    with (QuantumState.bitOf n i outQ).
  rewrite !bitOf_qubitBit by assumption.
  rewrite (qubitBit_testbit n inQ i Hin), (qubitBit_testbit n outQ i Hout).
  pose proof (pow2_le_31 n Hn) as Hpow.
  assert (Hmask : (0 < 2 ^ (n - 1 - outQ) <= 2 ^ 30)%Z).
  { split; [apply Z.pow_pos_nonneg; lia | apply Z.pow_le_mono_r; lia]. }
  apply Z.bits_inj'. intros t Ht.
  rewrite notTarget_bits by assumption.
  destruct (Z.testbit i (n - 1 - inQ)) eqn:Bin;
    destruct (Z.testbit i (n - 1 - outQ)) eqn:Bout; cbn [Z.b2z negb];
    cbn [Z.sub Z.opp Z.add Z.eqb Pos.eqb Z.pos_sub negb].
  - (* both bits set: the output bit is cleared *)
    unfold JS.bxor. rewrite shl_bit by (try lia; right; reflexivity).
    rewrite !ToInt32_small by lia.
    rewrite Z.lxor_spec, Z.mul_1_l, Z.pow2_bits_eqb by lia.
    destruct (Z.eqb_spec t (n - 1 - outQ)) as [-> | Hne].
    + rewrite Bout, Z.eqb_refl. reflexivity.
    + destruct (Z.eqb_spec (n - 1 - outQ) t); [lia | ].
      apply xorb_false_r.
  - destruct (Z.eqb_spec t (n - 1 - outQ)) as [-> | Hne];
      [exact Bout | reflexivity].
  - destruct (Z.eqb_spec t (n - 1 - outQ)) as [-> | Hne];
      [exact Bout | reflexivity].
  - unfold JS.bxor. rewrite shl_bit by (try lia; right; reflexivity).
    rewrite !ToInt32_small by lia.
    rewrite Z.lxor_spec, Z.mul_1_l, Z.pow2_bits_eqb by lia.
    destruct (Z.eqb_spec t (n - 1 - outQ)) as [-> | Hne].
    + rewrite Bout, Z.eqb_refl. reflexivity.
    + destruct (Z.eqb_spec (n - 1 - outQ) t); [lia | ].
      apply xorb_false_r.
Qed.

Lemma lastWriter_none : forall f m j,
  (forall i, (0 <= i < Z.of_nat m)%Z -> f i <> j) ->
  lastWriter f m j = None.
Proof.
  intros f m j. induction m as [ | m IH]; intros H; [reflexivity | ].
  cbn [lastWriter].
  destruct (Z.eqb_spec (f (Z.of_nat m)) j) as [Heq | _].
  - exfalso. apply (H (Z.of_nat m)); [lia | exact Heq].
  - apply IH. intros i Hi. apply H. lia.
Qed.

Lemma lastWriter_some : forall f m j w,
  (0 <= w < Z.of_nat m)%Z -> f w = j ->
  (forall i, (w < i < Z.of_nat m)%Z -> f i <> j) ->
  lastWriter f m j = Some w.
Proof.
  intros f m j w. induction m as [ | m IH]; intros Hw Hf Hlater; [lia | ].
  cbn [lastWriter].
  destruct (Z.eq_dec w (Z.of_nat m)) as [-> | Hne].
  - rewrite Hf, Z.eqb_refl. reflexivity.
  - destruct (Z.eqb_spec (f (Z.of_nat m)) j) as [Heq | _].
    + exfalso. apply (Hlater (Z.of_nat m)); [lia | exact Heq].
    + apply IH; [lia | exact Hf | ]. intros i Hi. apply Hlater. lia.
Qed.

Lemma scatter_loop :
  forall (amps : list Complex.t) (d : Z) (f : Z -> Z)
         (body : Z -> list Complex.t -> result (list Complex.t)),
    JS.alength amps = d ->
    (forall i, (0 <= i < d)%Z -> (0 <= f i < d)%Z) ->
    (forall i na, (0 <= i < d)%Z ->
       body i na = (a <- JS.aget amps i ;;
                    Ok (JS.aset na (f i) (Complex.clone a)))) ->
    exists na,
      JS.for_range d body (JS.afill d Complex.zero) = Ok na /\
      JS.alength na = d /\
      (forall j, (0 <= j < d)%Z ->
         JS.aget na j
         = Ok (match lastWriter f (Z.to_nat d) j with
               | Some i => nth (Z.to_nat i) amps Complex.zero
               | None => Complex.zero
               end)).
Proof.
  intros amps d f body Hlen Hf Hbody.
  assert (Hd : (0 <= d)%Z) by (unfold JS.alength in Hlen; lia).
  destruct (for_range_indexed _
    (fun k na =>
       JS.alength na = d /\
       forall j, (0 <= j < d)%Z ->
         JS.aget na j
         = Ok (match lastWriter f (Z.to_nat k) j with
               | Some i => nth (Z.to_nat i) amps Complex.zero
               | None => Complex.zero
               end))
    body d (JS.afill d Complex.zero) Hd) as (na & Hrun & Hna).
  - split.
    + unfold JS.alength, JS.afill. rewrite repeat_length. lia.
    + intros j Hj. cbn [Z.to_nat lastWriter]. apply aget_afill. exact Hj.
  - intros k na Hk [Hl Hinv].
    rewrite Hbody by exact Hk. rewrite aget_nth by lia. cbn [bind].
    eexists. split; [reflexivity | ]. split.
    + rewrite aset_length. exact Hl.
    + intros j Hj.
      replace (Z.to_nat (k + 1)) with (S (Z.to_nat k)) by lia.
      cbn [lastWriter]. rewrite Z2Nat.id by lia.
      destruct (Z.eqb_spec (f k) j) as [Heq | Hne].
      * rewrite Heq. rewrite aget_aset_same by lia.
        rewrite clone_eq. reflexivity.
      * rewrite aget_aset_other; [apply Hinv; exact Hj | | lia | exact Hne].
        specialize (Hf k Hk). lia.
  - exists na. split; [exact Hrun | exact Hna].
Qed.

Lemma le_lor_pow2 : forall i s,
  (0 <= i)%Z -> (0 <= s)%Z -> (i <= Z.lor i (2 ^ s))%Z.
Proof.
  intros i s Hi Hs.
  pose proof (Z.add_lor_land i (2 ^ s)) as Hadd.
  assert (Hland : (Z.land i (2 ^ s) <= 2 ^ s)%Z).
  { destruct (Z.testbit i s) eqn:B.
    - replace (Z.land i (2 ^ s)) with (2 ^ s)%Z; [lia | ].
      apply Z.bits_inj'. intros t Ht.
      rewrite Z.land_spec, Z.pow2_bits_eqb by lia.
      destruct (Z.eqb_spec s t) as [<- | _]; [rewrite B; reflexivity | ].
      rewrite andb_false_r. reflexivity.
    - replace (Z.land i (2 ^ s)) with 0%Z;
        [apply Z.lt_le_incl, Z.pow_pos_nonneg; lia | ].
      apply Z.bits_inj'. intros t Ht.
      rewrite Z.land_spec, Z.pow2_bits_eqb, Z.bits_0 by lia.
      destruct (Z.eqb_spec s t) as [<- | _]; [rewrite B; reflexivity | ].
      rewrite andb_false_r. reflexivity. }
  lia.
Qed.

Lemma lor_mask_bits : forall j s t,
  (0 <= s)%Z -> (0 <= t)%Z ->
  Z.testbit (Z.lor j (2 ^ s)) t
  = if (t =? s)%Z then true else Z.testbit j t.
Proof.
  intros j s t Hs Ht. rewrite Z.lor_spec, Z.pow2_bits_eqb by lia.
  destruct (Z.eqb_spec t s) as [-> | Hne].
  - rewrite Z.eqb_refl. apply orb_true_r.
  - destruct (Z.eqb_spec s t); [lia | ]. apply orb_false_r.
Qed.

Lemma lastWriter_same_qubit : forall n q j,
  (0 <= q < n)%Z -> (0 <= j < 2 ^ n)%Z ->
  lastWriter (notTarget n q q) (Z.to_nat (2 ^ n)) j
  = Some (notTarget n q q j).
Proof.
  intros n q j Hq Hj.
  assert (Hinv : forall i, notTarget n q q (notTarget n q q i) = i).
  { intros i. apply Z.bits_inj'. intros t Ht.
    rewrite !notTarget_bits by lia.
    destruct (Z.eqb_spec t (n - 1 - q)) as [-> | Hne].
    - rewrite Z.eqb_refl. apply negb_involutive.
    - reflexivity. }
  pose proof (notTarget_range n q q j Hq Hq Hj) as Hr.
  apply lastWriter_some.
  - lia.
  - apply Hinv.
  - intros i Hi Heq.
    assert (i = notTarget n q q j) by (rewrite <- Heq, Hinv; reflexivity).
    lia.
Qed.

Lemma lastWriter_other_qubit : forall n inQ outQ j,
  (0 <= inQ < n)%Z -> (0 <= outQ < n)%Z -> inQ <> outQ ->
  (0 <= j < 2 ^ n)%Z ->
  lastWriter (notTarget n inQ outQ) (Z.to_nat (2 ^ n)) j
  = if (qubitBit n outQ j =? 1 - qubitBit n inQ j)%Z
    then Some (Z.lor j (2 ^ (n - 1 - outQ)))
    else None.
Proof.
  intros n inQ outQ j Hin Hout Hne Hj.
  rewrite (qubitBit_testbit n outQ j Hout), (qubitBit_testbit n inQ j Hin).
  assert (Hwritten : forall i,
            notTarget n inQ outQ i = j ->
            Z.testbit j (n - 1 - outQ) = negb (Z.testbit j (n - 1 - inQ)) /\
            forall t, (0 <= t)%Z -> t <> (n - 1 - outQ)%Z ->
                      Z.testbit i t = Z.testbit j t).
  { intros i Heq. split.
    - rewrite <- Heq at 1. rewrite notTarget_bits by lia.
      rewrite Z.eqb_refl. f_equal.
      rewrite <- Heq. rewrite notTarget_bits by lia.
      destruct (Z.eqb_spec (n - 1 - inQ) (n - 1 - outQ)); [lia | reflexivity].
    - intros t Ht Hts. rewrite <- Heq. rewrite notTarget_bits by lia.
      destruct (Z.eqb_spec t (n - 1 - outQ)); [contradiction | reflexivity]. }
  destruct (Z.eqb_spec (Z.b2z (Z.testbit j (n - 1 - outQ)))
                       (1 - Z.b2z (Z.testbit j (n - 1 - inQ)))) as [Hb | Hb].
  - assert (Hbits : Z.testbit j (n - 1 - outQ)
                    = negb (Z.testbit j (n - 1 - inQ))).
    { destruct (Z.testbit j (n - 1 - outQ)), (Z.testbit j (n - 1 - inQ));
        cbn in Hb; try reflexivity; lia. }
    assert (Hw : (0 <= Z.lor j (2 ^ (n - 1 - outQ)) < 2 ^ n)%Z).
    { apply bits_below_pow2; [lia | ]. intros t Ht.
      rewrite lor_mask_bits by lia.
      destruct (Z.eqb_spec t (n - 1 - outQ)); [lia | ].
      apply (bits_above_pow2 j n); lia. }
    apply lastWriter_some.
    + lia.
    + apply Z.bits_inj'. intros t Ht.
      rewrite notTarget_bits by lia. rewrite !lor_mask_bits by lia.
      destruct (Z.eqb_spec (n - 1 - inQ) (n - 1 - outQ)); [lia | ].
      destruct (Z.eqb_spec t (n - 1 - outQ)) as [-> | Hts].
      * symmetry. exact Hbits.
      * reflexivity.
    + intros i Hi Heq.
      destruct (Hwritten i Heq) as [_ Hsame].
      assert (Hlor : Z.lor i (2 ^ (n - 1 - outQ))
                     = Z.lor j (2 ^ (n - 1 - outQ))).
      { apply Z.bits_inj'. intros t Ht. rewrite !lor_mask_bits by lia.
        destruct (Z.eqb_spec t (n - 1 - outQ)); [reflexivity | ].
        apply Hsame; assumption. }
      pose proof (le_lor_pow2 i (n - 1 - outQ)). lia.
  - apply lastWriter_none. intros i Hi Heq.
    destruct (Hwritten i Heq) as [Hbits _]. apply Hb.
    rewrite Hbits. destruct (Z.testbit j (n - 1 - inQ)); reflexivity.
Qed.

(** X30. The classical NOT pseudo-gate moves the amplitude of every index
    to the index whose output bit is the complement of the input bit, a
    later index overwriting an earlier one.  With the input qubit as the
    output qubit this flips the bit: the amplitude at an index is the
    former amplitude at the index with that bit flipped.  With two
    different qubits, the slots whose output bit is not the complement of
    their input bit are left zero, and every other slot receives the former
    amplitude of the index with the output bit set: the amplitudes at the
    indices with the output bit clear are not kept. *)
Theorem classical_not_gate :
  forall (c : QuantumCircuit.t) (inQ outQ : Z) (others : list Z)
         (position : option R),
    wellFormedState (QuantumCircuit.state c) ->
    let n := QuantumState.numQubits (QuantumCircuit.state c) in
    let amps := QuantumState.amplitudes (QuantumCircuit.state c) in
    (0 <= inQ < n)%Z -> (0 <= outQ < n)%Z ->
    exists c' : QuantumCircuit.t,
      QuantumCircuit.applyClassicalGate c
        (QuantumCircuit.Classical "NOT" (inQ :: others) outQ position)
      = Ok c' /\
      JS.alength (QuantumState.amplitudes (QuantumCircuit.state c')) = (2 ^ n)%Z /\
      (forall j, (0 <= j < 2 ^ n)%Z ->
         JS.aget (QuantumState.amplitudes (QuantumCircuit.state c')) j
         = Ok (if (inQ =? outQ)%Z
               then nth (Z.to_nat (Z.lxor j (2 ^ (n - 1 - outQ)))) amps
                        Complex.zero
               else if (qubitBit n outQ j =? 1 - qubitBit n inQ j)%Z
               then nth (Z.to_nat (Z.lor j (2 ^ (n - 1 - outQ)))) amps
                        Complex.zero
               else Complex.zero)).
Proof.
  intros c inQ outQ others position Hwf n amps Hin Hout.
  pose proof Hwf as (Hn & Hd & Hlen). fold n in Hn, Hd. fold amps in Hlen.
  rewrite Hd in Hlen.
  unfold QuantumCircuit.applyClassicalGate. cbv zeta. fold n. fold amps.
  cbn [String.eqb Ascii.eqb Bool.eqb andb nth_error].
  destruct (scatter_loop amps (2 ^ n)%Z (notTarget n inQ outQ)
              (fun i na =>
                 a <- JS.aget amps i ;;
                 Ok (JS.aset na
                       (if negb (1 - JS.band
                                      (JS.shr i
                                         (QuantumCircuit.shiftFor n (Some inQ)))
                                      1
                                 =? JS.band (JS.shr i (n - 1 - outQ)) 1)%Z
                        then JS.bxor i (JS.shl 1 (n - 1 - outQ))
                        else i)
                       (Complex.clone a))) Hlen)
    as (na & Hrun & Hlenna & Hget).
  - intros i Hi. apply notTarget_range; assumption.
  - intros i na Hi. rewrite not_newIndex by assumption. reflexivity.
  - rewrite Hrun. cbn [bind]. eexists. split; [reflexivity | ].
    cbn [QuantumCircuit.with_state QuantumCircuit.state
         QuantumState.with_amplitudes QuantumState.amplitudes].
    split; [exact Hlenna | ].
    intros j Hj. rewrite (Hget j Hj). f_equal.
    destruct (Z.eqb_spec inQ outQ) as [<- | Hne].
    + rewrite lastWriter_same_qubit by assumption.
      f_equal. f_equal.
      apply Z.bits_inj'. intros t Ht.
      rewrite notTarget_bits by lia.
      rewrite Z.lxor_spec, Z.pow2_bits_eqb by lia.
      destruct (Z.eqb_spec t (n - 1 - inQ)) as [-> | Hts].
      * rewrite Z.eqb_refl. apply xorb_true_r.
      * destruct (Z.eqb_spec (n - 1 - inQ) t); [lia | ].
        symmetry. apply xorb_false_r.
    + rewrite lastWriter_other_qubit by assumption.
      destruct (qubitBit n outQ j =? 1 - qubitBit n inQ j)%Z; reflexivity.
Qed.

Lemma classical_not_gate_witness :
  exists c' : QuantumCircuit.t,
    QuantumCircuit.applyClassicalGate (QuantumCircuit.new_ 2)
      (QuantumCircuit.Classical "NOT" [0%Z] 1 None) = Ok c' /\
    (forall j, (0 <= j < 2 ^ 2)%Z ->
       JS.aget (QuantumState.amplitudes (QuantumCircuit.state c')) j
       = Ok Complex.zero).
Proof.
  destruct (classical_not_gate (QuantumCircuit.new_ 2) 0 1 [] None)
    as (c' & Hrun & _ & Hget).
  - wf_state.
  - cbn. lia.
  - cbn. lia.
  - exists c'. split; [exact Hrun | ].
    intros j Hj. rewrite (Hget j Hj). f_equal.
    assert (Hcases : (j = 0 \/ j = 1 \/ j = 2 \/ j = 3)%Z) by lia.
    destruct Hcases as [-> | [-> | [-> | ->]]]; reflexivity.
Defined.
